(** * acquia-docs-mcp-server: crawler, page cache and relevance engine

    A shallow embedding of [src/main.py]: the URL classifier
    ([is_docs_url], [get_product_area]), the bounded page cache
    ([add_to_cache], [fetch_page]), the breadth-first crawler
    ([crawl_docs]), the relevance engine ([calculate_relevance],
    [extract_snippet]) and the search orchestrator
    ([smart_memcached_injection], [direct_search_docs]).

    Conventions.
    - A Python [str] is a [string]; the model covers ASCII text, on which
      [str.lower] only touches the letters A-Z.
    - A Python [int] is a [Z]; a length or an occurrence count is a [nat]
      that is injected into [Z] where the code adds it to a score.
    - A Python [dict] whose iteration order is observed ([page_cache],
      [all_pages]) is an association list in insertion order; a dict that
      the loop only looks up ([product_page_counts], iterated for the
      closing log summary alone) is a [gmap]; a [set] is a [gset].
    - The network, the HTML parser with [urljoin], [hashlib.md5],
      [requests.utils.quote], the iteration order of a Python [set] and
      the address check of [ipaddress] are parameters of the
      development. *)

From Stdlib Require Import ZArith String Ascii List Sorted Lia.
From stdpp Require Import gmap strings list fin_maps pretty sorting.

(** ** Python string primitives *)

Module Str.

Definition lower_ascii (c : ascii) : ascii :=
  let n := nat_of_ascii c in
  if ((65 <=? n) && (n <=? 90))%nat then ascii_of_nat (n + 32) else c.

(** [s.lower()] *)
Fixpoint lower (s : string) : string :=
  match s with
  | EmptyString => EmptyString
  | String c s' => String (lower_ascii c) (lower s')
  end.

(** [s.startswith(p)] *)
Definition startswith (s p : string) : bool := String.prefix p s.

(** [sub in s] *)
Fixpoint contains (sub s : string) : bool :=
  String.prefix sub s ||
  match s with
  | EmptyString => false
  | String _ s' => contains sub s'
  end.

(** The left-to-right scan of [s.count(sub)] for a non-empty [sub]:
    [skip] characters of the last occurrence are still to be passed. *)
Fixpoint count_from (sub : string) (skip : nat) (s : string) : nat :=
  match s with
  | EmptyString => 0
  | String _ s' =>
      match skip with
      | S k => count_from sub k s'
      | O =>
          if String.prefix sub s
          then S (count_from sub (String.length sub - 1) s')
          else count_from sub 0 s'
      end
  end.

(** [s.count(sub)]: non-overlapping occurrences; [len(s) + 1] for the
    empty needle. *)
Definition count (s sub : string) : nat :=
  match sub with
  | EmptyString => S (String.length s)
  | _ => count_from sub 0 s
  end.

(** Characters [str.split()] and [str.strip()] treat as white space. *)
Definition is_space (c : ascii) : bool :=
  let n := nat_of_ascii c in
  ((n =? 32) || ((9 <=? n) && (n <=? 13)) || ((28 <=? n) && (n <=? 31)))%nat.

Fixpoint split_aux (cur : string) (s : string) : list string :=
  match s with
  | EmptyString => match cur with EmptyString => [] | _ => [cur] end
  | String c s' =>
      if is_space c
      then match cur with
           | EmptyString => split_aux EmptyString s'
           | _ => cur :: split_aux EmptyString s'
           end
      else split_aux (cur +:+ String c EmptyString) s'
  end.

(** [s.split()] *)
Definition split (s : string) : list string := split_aux EmptyString s.

Fixpoint split_on_aux (sep : ascii) (cur : string) (s : string) : list string :=
  match s with
  | EmptyString => [cur]
  | String c s' =>
      if Ascii.eqb c sep
      then cur :: split_on_aux sep EmptyString s'
      else split_on_aux sep (cur +:+ String c EmptyString) s'
  end.

(** [s.split(c)] for a one-character separator *)
Definition split_on (sep : ascii) (s : string) : list string :=
  split_on_aux sep EmptyString s.

Fixpoint lstrip (s : string) : string :=
  match s with
  | EmptyString => EmptyString
  | String c s' => if is_space c then lstrip s' else s
  end.

Fixpoint rev_onto (s acc : string) : string :=
  match s with
  | EmptyString => acc
  | String c s' => rev_onto s' (String c acc)
  end.

Definition rev (s : string) : string := rev_onto s EmptyString.

(** [s.strip()] *)
Definition strip (s : string) : string := rev (lstrip (rev (lstrip s))).

(** [s.split(sep)[0]] for a non-empty [sep] *)
Fixpoint before_first (sep s : string) : string :=
  match s with
  | EmptyString => EmptyString
  | String c s' =>
      if String.prefix sep s then EmptyString else String c (before_first sep s')
  end.

(** [s.endswith(p)] *)
Definition endswith (s p : string) : bool := String.prefix (rev p) (rev s).

(** [s[:n]] *)
Definition take (n : nat) (s : string) : string := String.substring 0 n s.

(** [sep.join(l)] *)
Definition join (sep : string) (l : list string) : string := String.concat sep l.

(** The scan of [s.replace(old, new)] for a non-empty [old]; [skip]
    characters of the occurrence just replaced are still to be passed. *)
Fixpoint replace_from (old new : string) (skip : nat) (s : string) : string :=
  match s with
  | EmptyString => EmptyString
  | String c s' =>
      match skip with
      | S k => replace_from old new k s'
      | O =>
          if String.prefix old s
          then new +:+ replace_from old new (String.length old - 1) s'
          else String c (replace_from old new 0 s')
      end
  end.

(** [new] before every character and at the end: the empty needle. *)
Fixpoint intersperse (new s : string) : string :=
  match s with
  | EmptyString => new
  | String c s' => new +:+ String c (intersperse new s')
  end.

(** [s.replace(old, new)] *)
Definition replace (s old new : string) : string :=
  match old with
  | EmptyString => intersperse new s
  | _ => replace_from old new 0 s
  end.

End Str.

(** ** Python dicts in insertion order *)

Module Dict.

Section Ops.
Context {V : Type}.

Definition t := list (string * V).

Definition keys (d : t) : list string := map fst d.

(** [k in d] *)
Definition mem (k : string) (d : t) : bool :=
  existsb (fun kv => String.eqb (fst kv) k) d.

(** [d.get(k)] *)
Fixpoint get (k : string) (d : t) : option V :=
  match d with
  | [] => None
  | (k', v) :: d' => if String.eqb k' k then Some v else get k d'
  end.

(** [d[k] = v]: a present key keeps its position, a new key goes last. *)
Fixpoint set (k : string) (v : V) (d : t) : t :=
  match d with
  | [] => [(k, v)]
  | (k', v') :: d' =>
      if String.eqb k' k then (k', v) :: d' else (k', v') :: set k v d'
  end.

(** [del d[k]] for a present key *)
Fixpoint del (k : string) (d : t) : t :=
  match d with
  | [] => []
  | (k', v') :: d' => if String.eqb k' k then d' else (k', v') :: del k d'
  end.

(** [next(iter(d))]; [None] stands for [StopIteration]. *)
Definition first_key (d : t) : option string :=
  match d with
  | [] => None
  | (k, _) :: _ => Some k
  end.

End Ops.
Arguments t : clear implicits.

End Dict.

(** ** Data model *)

(** The page dictionary built by [fetch_page] and [get_memcached_doc_data]. *)
Record Page := mkPage {
  page_url : string;
  page_title : string;
  page_content : string;
  page_links : list string;
  page_success : bool
}.

(** The module-level state: [page_cache], [url_to_cache_key] and
    [discovered_urls]. *)
Record Globals := mkGlobals {
  page_cache : Dict.t Page;
  url_to_cache_key : Dict.t string;
  discovered_urls : gset string
}.

Definition empty_globals : Globals := mkGlobals [] [] ∅.

(** ** Configuration *)

Definition DRUPAL_BASE_URL : string := "https://docs.acquia.com/".
Definition DRUPAL_DOCS_START : string := DRUPAL_BASE_URL.
Definition MAIN_DOC_URLS : list string :=
  [ "https://docs.acquia.com/acquia-source/overview";
    "https://docs.acquia.com/campaign-studio/overview";
    "https://docs.acquia.com/content-optimization/overview";
    "https://docs.acquia.com/conversion-optimization/overview";
    "https://docs.acquia.com/customer-data-platform/overview-0";
    "https://docs.acquia.com/acquia-cloud-platform/overview";
    "https://docs.acquia.com/acquia-dam/overview";
    "https://docs.acquia.com/drupal-starter-kits/overview";
    "https://docs.acquia.com/site-factory/overview";
    "https://docs.acquia.com/web-governance/overview" ].
Definition MAX_CRAWL_DEPTH : Z := 5.
Definition CACHE_SIZE : nat := 1000.
Definition MAX_PAGES_PER_PRODUCT : Z := 75.
Definition MEMCACHED_DOC_URL : string :=
  "https://docs.acquia.com/acquia-cloud-platform/enabling-memcached-cloud-platform".


Definition dquote : string := String (ascii_of_nat 34) EmptyString.

(** The pre-loaded text of the pinned document. *)
Definition MEMCACHED_DOC_CONTENT : string :=
  "# Enabling Memcached on Cloud Platform

To enable Memcached on your website hosted by Cloud Platform, you must install the Memcache API and Integration module in your codebase, and configure the module for use.

## Configuration for the current Drupal version

For Memcached to function, you must provide additional configuration code that enables autoloading, and identifies Memcached as an alternative cache back-end.

To configure your website for Memcached, make the following changes to your codebase, depending on your subscription type:

### For Cloud Classic:

1. Download the Memcache API and Integration module, and then add the module to your codebase in the modules/contrib/memcache directory. Acquia recommends that you use Composer to install the module:
   ```
   composer require drupal/memcache
   ```

2. For Cloud Classic, do the following:
   
   a. Add the Composer package that contains the Acquia Memcache settings to your project:
   ```
   composer require acquia/memcache-settings
   ```
   
   b. For each website that requires Memcached, edit the Cloud Platform database require line in settings.php with a PHP require_once statement, similar to the following example:
   ```php
   if (file_exists('/var/www/site-php')) {
      require('/var/www/site-php/mysite/mysite-settings.inc');
      // Memcached settings for Acquia Hosting
      $memcache_settings_file = DRUPAL_ROOT . " +:+ dquote +:+
  "/../vendor/acquia/memcache-settings/memcache.settings.php" +:+ dquote +:+
  ";
      if (file_exists($memcache_settings_file)) {
        require_once $memcache_settings_file;
      }
   }
   ```

3. Rebuild caches by running the following command, replacing [example.com] with the domain name of your website:
   ```
   drush cr --uri=[example.com]
   ```

4. Truncate all cache_ tables in the database for the website.

### For Cloud Next:
For Cloud Next, you do not need to add anything to your settings.php file as the configuration logic is already included in Cloud Next. If you already have code in settings.php that enables Memcache integration with Cloud Platform, you can opt to remove it.

## Important Notes:
- Do not edit the memcache_key_prefix or memcache_servers settings, as Cloud Platform adds the correct values in Acquia-specific code.
- Test any procedures on a non-production environment before implementing them on production.
- The same steps must be used for CD environments because CD environments are not supported in Cloud Next.

Source: https://docs.acquia.com/acquia-cloud-platform/enabling-memcached-cloud-platform
".

(** ** External collaborators *)

(** What one [requests.get] followed by the BeautifulSoup extraction of
    [fetch_page] yields: a [RequestException]; any other exception raised
    before the link loops (oversized body, parser failure); the extracted
    title text, content text and the targets of the anchors (after
    [urljoin] and removal of the fragment), first those of
    [soup.find_all], then those of the navigation selectors; or an
    exception raised inside the link loops, where [urljoin] or the
    [urlparse] of [is_docs_url] rejects the target of an anchor with a
    [ValueError]: the targets of the anchors the two loops went through
    before that one. *)
Inductive Response :=
| RequestError (msg : string)
| OtherError (msg : string)
| Parsed (title content : string) (hrefs nav_hrefs : list string)
| LinkError (msg : string) (hrefs nav_hrefs : list string).

Class Externals := {
  (** the state of the network *)
  World : Type;
  http_get : string -> World -> Response * World;
  (** the site's search page for a query: the anchor targets after
      [urljoin], or [None] when the status is not 200 or when the request
      or the extraction of the links raises, which the inner [try] of
      [direct_search_docs] catches before [doc_urls] is extended *)
  site_search : string -> World -> option (list string) * World;
  (** [hashlib.md5(url.encode()).hexdigest()[:8]] *)
  md5_hex8 : string -> string;
  (** [requests.utils.quote] *)
  quote : string -> string;
  (** [list(set(l))]: the elements of [l], each once, in the order the
      interpreter's hash table yields them *)
  set_order : list string -> list string;
  set_order_NoDup : forall l, NoDup (set_order l);
  set_order_elem : forall l x, x ∈ set_order l <-> x ∈ l
}.

(** ** URL classifier *)

(** [urllib.parse.urlparse] on [scheme://netloc/path;params?query#fragment],
    for text in ASCII. [Url.urlparse] is the result of a call that
    returns; [Url.urlsplit_raises] tells when the call raises
    [ValueError] instead, which it does on some hosts in square
    brackets. *)
Record ParseResult := mkParse {
  scheme : string;
  netloc : string;
  path : string;
  params : string;
  query : string;
  fragment : string
}.

Module Url.

(** The longest prefix without a character satisfying [p], and the rest. *)
Fixpoint break_at (p : ascii -> bool) (s : string) : string * string :=
  match s with
  | EmptyString => (EmptyString, EmptyString)
  | String c s' =>
      if p c then (EmptyString, s)
      else let '(a, b) := break_at p s' in (String c a, b)
  end.

Definition tail (s : string) : string :=
  match s with
  | EmptyString => EmptyString
  | String _ s' => s'
  end.

Definition is_char (c : ascii) : ascii -> bool := Ascii.eqb c.

Definition is_alpha (c : ascii) : bool :=
  let n := nat_of_ascii c in
  (((65 <=? n) && (n <=? 90)) || ((97 <=? n) && (n <=? 122)))%nat.

Definition is_scheme_char (c : ascii) : bool :=
  let n := nat_of_ascii c in
  (is_alpha c || ((48 <=? n) && (n <=? 57)) || (n =? 43) || (n =? 45) || (n =? 46))%nat.

Fixpoint all_chars (p : ascii -> bool) (s : string) : bool :=
  match s with
  | EmptyString => true
  | String c s' => p c && all_chars p s'
  end.

Definition uses_params : list string :=
  [ ""; "ftp"; "hdl"; "prospero"; "http"; "imap"; "https"; "shttp"; "rtsp";
    "rtspu"; "sip"; "sips"; "mms"; "sftp"; "tel" ].

(** [_splitparams]: the [;params] of the last path segment. *)
Definition splitparams (url : string) : string * string :=
  let '(rseg, rprefix) := break_at (is_char "/") (Str.rev url) in
  let '(seg, rest) := break_at (is_char ";") (Str.rev rseg) in
  match rest with
  | EmptyString => (url, EmptyString)
  | String _ ps => (Str.rev rprefix +:+ seg, ps)
  end.

(** [url.lstrip(_WHATWG_C0_CONTROL_OR_SPACE)]: the characters up to the
    space are dropped at the front. *)
Fixpoint lstrip_c0 (s : string) : string :=
  match s with
  | EmptyString => EmptyString
  | String c s' => if (nat_of_ascii c <=? 32)%nat then lstrip_c0 s' else s
  end.

(** TAB, CR and LF, the [_UNSAFE_URL_BYTES_TO_REMOVE], are dropped
    wherever they stand. *)
Fixpoint remove_unsafe (s : string) : string :=
  match s with
  | EmptyString => EmptyString
  | String c s' =>
      let n := nat_of_ascii c in
      if ((n =? 9) || (n =? 13) || (n =? 10))%nat then remove_unsafe s'
      else String c (remove_unsafe s')
  end.

Definition urlparse (url : string) : ParseResult :=
  let url := remove_unsafe (lstrip_c0 url) in
  let '(sch, url1) :=
    let '(pre, rest) := break_at (is_char ":") url in
    match rest, pre with
    | String _ after, String c0 _ =>
        if is_alpha c0 && all_chars is_scheme_char pre
        then (Str.lower pre, after) else (EmptyString, url)
    | _, _ => (EmptyString, url)
    end in
  let '(loc, url2) :=
    if String.prefix "//" url1
    then break_at (fun c => is_char "/" c || is_char "?" c || is_char "#" c)
                  (tail (tail url1))
    else (EmptyString, url1) in
  let '(url3, frag) :=
    let '(a, b) := break_at (is_char "#") url2 in (a, tail b) in
  let '(url4, qry) :=
    let '(a, b) := break_at (is_char "?") url3 in (a, tail b) in
  let '(pth, prm) :=
    if existsb (String.eqb sch) uses_params && Str.contains ";" url4
    then splitparams url4 else (url4, EmptyString) in
  mkParse sch loc pth prm qry frag.

(** The checks [urlsplit] makes on a netloc with square brackets. Whether
    a bracketed host is an IPv6 literal is decided by the [ipaddress]
    module and taken as a parameter: [ip_literal hostname] says that
    [ipaddress.ip_address(hostname)] returns an [IPv6Address]. The check
    of [_checknetloc] concerns text outside ASCII only. *)
Section Checks.
Variable ip_literal : string -> bool.

Definition is_hex (c : ascii) : bool :=
  let n := nat_of_ascii c in
  (((48 <=? n) && (n <=? 57)) || ((65 <=? n) && (n <=? 70))
   || ((97 <=? n) && (n <=? 102)))%nat.

(** The pattern of [_check_bracketed_host] for a host that starts with
    [v]: hexadecimal digits, a dot, and at least one more character. *)
Definition ipvfuture (hostname : string) : bool :=
  match hostname with
  | String "v" rest =>
      let '(digits, more) := break_at (fun c => negb (is_hex c)) rest in
      match digits, more with
      | String _ _, String "." (String _ _) => true
      | _, _ => false
      end
  | _ => false
  end.

(** [_check_bracketed_host] returns without raising. *)
Definition bracketed_host_ok (hostname : string) : bool :=
  if String.prefix "v" hostname then ipvfuture hostname
  else ip_literal hostname.

(** [s.rpartition(c)[2]] *)
Definition after_last (c : ascii) (s : string) : string :=
  Str.rev (break_at (is_char c) (Str.rev s)).1.

(** [_check_bracketed_netloc] raises. *)
Definition bracketed_netloc_raises (netloc : string) : bool :=
  let hostname_and_port := after_last "@" netloc in
  let '(before_bracket, rest) := break_at (is_char "[") hostname_and_port in
  match rest with
  | String _ bracketed =>
      if negb (String.eqb before_bracket EmptyString) then true
      else
        let '(hostname, rest') := break_at (is_char "]") bracketed in
        let port := tail rest' in
        if negb (String.eqb port EmptyString) && negb (String.prefix ":" port)
        then true
        else negb (bracketed_host_ok hostname)
  | EmptyString =>
      let '(hostname, _) := break_at (is_char ":") hostname_and_port in
      negb (bracketed_host_ok hostname)
  end.

(** [urlsplit], and so [urlparse], raises [ValueError]. *)
Definition urlsplit_raises (url : string) : bool :=
  let loc := netloc (urlparse url) in
  let has_open := Str.contains "[" loc in
  let has_close := Str.contains "]" loc in
  if (has_open && negb has_close) || (has_close && negb has_open) then true
  else if has_open && has_close then bracketed_netloc_raises loc
  else false.

End Checks.

End Url.

Definition excluded_patterns : list string :=
  [ "/user/login"; "/user/register"; "/user/password"; "/user/logout";
    "/admin/"; "/taxonomy/term/"; "/node/add";
    "/contact"; "/rss.xml"; "/sitemap.xml" ].

Definition excluded_extensions : list string :=
  [ ".jpg"; ".jpeg"; ".png"; ".gif"; ".pdf"; ".zip"; ".tar.gz"; ".css"; ".js" ].

Definition problem_patterns : list string :=
  [ "/themes/"; "/modules/"; "/core/"; "/sites/default" ].

(** The body of [is_docs_url] after the two [urlparse] calls. *)
Definition is_docs_parsed (parsed base : ParseResult) : bool :=
  if negb (String.eqb (netloc parsed) (netloc base)) then false
  else
    let path_lower := Str.lower (path parsed) in
    if existsb (fun pattern => Str.contains pattern path_lower) excluded_patterns
    then false
    else if existsb (fun ext => Str.endswith path_lower ext) excluded_extensions
    then false
    else if Str.startswith path_lower "/" && (1 <? String.length path_lower)%nat
    then
      if negb (existsb (fun pattern => Str.contains pattern path_lower)
                       problem_patterns)
      then true else false
    else false.

(** [is_docs_url] on a URL that [urlparse] accepts. *)
Definition is_docs_url (url : string) : bool :=
  is_docs_parsed (Url.urlparse url) (Url.urlparse DRUPAL_BASE_URL).

(** The call [is_docs_url(url)] as a whole: [None] is the [ValueError]
    that one of its two [urlparse] calls raises. *)
Definition is_docs_url_call (ip_literal : string -> bool) (url : string)
    : option bool :=
  if Url.urlsplit_raises ip_literal url then None
  else if Url.urlsplit_raises ip_literal DRUPAL_BASE_URL then None
  else Some (is_docs_url url).

(** The category markers of [get_product_area], in the order of the
    [if]/[elif] chain; marker and category differ by the leading slash. *)
Definition product_areas : list string :=
  [ "acquia-source"; "campaign-studio"; "content-optimization";
    "conversion-optimization"; "customer-data-platform";
    "acquia-cloud-platform"; "acquia-dam"; "drupal-starter-kits";
    "site-factory"; "web-governance" ].

Fixpoint first_area (path_lower : string) (areas : list string) : string :=
  match areas with
  | [] => "general"
  | a :: areas' =>
      if Str.contains ("/" +:+ a) path_lower then a
      else first_area path_lower areas'
  end.

Definition get_product_area (url : string) : string :=
  first_area (Str.lower (path (Url.urlparse url))) product_areas.

(** ** Relevance engine *)

Definition any_in (indicators : list string) (s : string) : bool :=
  existsb (fun indicator => Str.contains indicator s) indicators.

Definition is_memcached_related_query (query : string) : bool :=
  let query_lower := Str.lower query in
  let memcache_indicators := [ "memcache"; "memcached"; "cache"; "caching" ] in
  let settings_indicators :=
    [ "settings.php"; "settings"; "configuration"; "config" ] in
  let action_indicators :=
    [ "enable"; "enabling"; "configure"; "setup"; "install"; "add";
      "integration" ] in
  let has_memcache := any_in memcache_indicators query_lower in
  let has_settings := any_in settings_indicators query_lower in
  let has_action := any_in action_indicators query_lower in
  if has_memcache && has_settings then true
  else if has_memcache && has_action then true
  else
    let demo_phrases :=
      [ "enable memcached"; "memcache integration"; "memcached settings";
        "cache backend"; "acquia memcache"; "cloud classic memcache" ] in
    if any_in demo_phrases query_lower then true else false.

Definition get_memcached_doc_data : Page :=
  mkPage MEMCACHED_DOC_URL "Enabling Memcached on Cloud Platform"
         MEMCACHED_DOC_CONTENT [] true.

Definition memcache_keywords : list string :=
  [ "memcache"; "settings.php"; "cloud classic"; "require_once";
    "composer require" ].

(** [sum(f(x) for x in l)] *)
Definition sum_over {A} (f : A -> Z) (l : list A) : Z :=
  fold_right (fun x acc => f x + acc)%Z 0%Z l.

Definition calculate_relevance (query : string) (page_data : Page) : Z :=
  let query_lower := Str.lower query in
  let query_words := Str.split query_lower in
  let content_lower := Str.lower (page_content page_data) in
  let title_lower := Str.lower (page_title page_data) in
  let title_exact_match :=
    if Str.contains query_lower title_lower then 10%Z else 0%Z in
  let title_word_matches :=
    (sum_over (fun word => if Str.contains word title_lower then 1 else 0)
              query_words * 5)%Z in
  let content_exact_match :=
    (Z.of_nat (Str.count content_lower query_lower) * 2)%Z in
  let content_word_matches :=
    sum_over (fun word => Z.of_nat (Str.count content_lower word)) query_words in
  let base_score :=
    (title_exact_match + title_word_matches + content_exact_match
     + content_word_matches)%Z in
  if is_memcached_related_query query then
    let base_score1 :=
      if String.eqb (page_url page_data) MEMCACHED_DOC_URL
         || Str.contains "memcached" title_lower
      then (base_score + 1000)%Z else base_score in
    let memcache_boost :=
      sum_over (fun keyword => (Z.of_nat (Str.count content_lower keyword) * 50)%Z)
               memcache_keywords in
    (base_score1 + memcache_boost)%Z
  else base_score.

(** The sentence loop of [extract_snippet]: it stops after the second
    relevant sentence. *)
Fixpoint relevant_sentences (query_words sentences : list string) (found : nat)
    : list string :=
  match sentences with
  | [] => []
  | sentence :: rest =>
      if any_in query_words (Str.lower sentence) then
        if (2 <=? S found)%nat then [Str.strip sentence]
        else Str.strip sentence :: relevant_sentences query_words rest (S found)
      else relevant_sentences query_words rest found
  end.

Definition extract_snippet (query content : string) (max_length : nat) : string :=
  let query_words := Str.split (Str.lower query) in
  let sentences := Str.split_on "." content in
  let relevant := relevant_sentences query_words sentences 0 in
  let snippet :=
    match relevant with
    | [] => EmptyString
    | _ => Str.join ". " relevant +:+ "."
    end in
  if (max_length <? String.length snippet)%nat
  then Str.take max_length snippet +:+ "..." else snippet.

(** ** Page cache and fetcher *)

Definition network_error_page (url msg : string) : Page :=
  mkPage url "Network Error" ("Network error: " +:+ msg) [] false.

Definition parse_error_page (url msg : string) : Page :=
  mkPage url "Parse Error" ("Parse error: " +:+ msg) [] false.

(** The title of a fetched page: the part before the site name. *)
Definition clean_title (title : string) : string :=
  if Str.contains " | " title
  then Str.strip (Str.before_first " | " title) else title.

(** [x in l] on a Python list of strings *)
Definition in_list (x : string) (l : list string) : bool :=
  existsb (String.eqb x) l.

(** The first link loop of [fetch_page], over [soup.find_all('a')]. *)
Fixpoint main_links (url : string) (hrefs links : list string)
    (discovered : gset string) : list string * gset string :=
  match hrefs with
  | [] => (links, discovered)
  | full_url :: hrefs' =>
      if is_docs_url full_url && negb (String.eqb full_url url)
      then main_links url hrefs' (links ++ [full_url]) ({[full_url]} ∪ discovered)
      else main_links url hrefs' links discovered
  end.

(** The second link loop, over the navigation selectors. *)
Fixpoint nav_links (url : string) (hrefs links : list string)
    (discovered : gset string) : list string * gset string :=
  match hrefs with
  | [] => (links, discovered)
  | full_url :: hrefs' =>
      if is_docs_url full_url && negb (String.eqb full_url url)
         && negb (in_list full_url links)
      then nav_links url hrefs' (links ++ [full_url]) ({[full_url]} ∪ discovered)
      else nav_links url hrefs' links discovered
  end.

Section Program.
Context `{E : Externals}.

(** [add_to_cache], with the capacity as an argument ([CACHE_SIZE] in the
    program). [None] is the [StopIteration] that [next(iter(page_cache))]
    raises on an empty cache; nothing has been mutated at that point. *)
Definition add_to_cache (capacity : nat) (url : string) (page_data : Page)
    (g : Globals) : option Globals :=
  let evicted :=
    if (capacity <=? length (page_cache g))%nat then
      match Dict.first_key (page_cache g) with
      | None => None
      | Some oldest_url =>
          Some (mkGlobals
                  (Dict.del oldest_url (page_cache g))
                  (if Dict.mem oldest_url (url_to_cache_key g)
                   then Dict.del oldest_url (url_to_cache_key g)
                   else url_to_cache_key g)
                  (discovered_urls g))
      end
    else Some g in
  match evicted with
  | None => None
  | Some g1 =>
      Some (mkGlobals
              (Dict.set url page_data (page_cache g1))
              (Dict.set url (md5_hex8 url) (url_to_cache_key g1))
              (discovered_urls g1))
  end.

(** A sequence of [add_to_cache] calls; it stops at the first one that
    raises. *)
Fixpoint put_all (capacity : nat) (ops : list (string * Page)) (g : Globals)
    : option Globals :=
  match ops with
  | [] => Some g
  | (url, p) :: ops' =>
      match add_to_cache capacity url p g with
      | None => None
      | Some g' => put_all capacity ops' g'
      end
  end.

(** [initialize_memcached_cache] *)
Definition initialize_memcached_cache (g : Globals) : option Globals :=
  add_to_cache CACHE_SIZE MEMCACHED_DOC_URL get_memcached_doc_data g.

(** [fetch_page]: a cached page is returned as it is; otherwise the page
    is requested, its links are filtered and deduplicated, and the record
    is cached. Both [except] clauses turn an exception into a record with
    [success = False]; an exception raised inside the link loops comes
    after [discovered_urls.add] has run for the earlier anchors, and
    nothing undoes that. *)
Definition fetch_page (url : string) (g : Globals) (w : World)
    : Page * Globals * World :=
  match Dict.get url (page_cache g) with
  | Some cached => (cached, g, w)
  | None =>
      let '(response, w') := http_get url w in
      match response with
      | RequestError msg => (network_error_page url msg, g, w')
      | OtherError msg => (parse_error_page url msg, g, w')
      | Parsed title0 content_text hrefs nav_hrefs =>
          let title := clean_title title0 in
          let '(links1, discovered1) :=
            main_links url hrefs [] (discovered_urls g) in
          let '(links, discovered) := nav_links url nav_hrefs links1 discovered1 in
          let result := mkPage url title content_text (set_order links) true in
          let g1 := mkGlobals (page_cache g) (url_to_cache_key g) discovered in
          match add_to_cache CACHE_SIZE url result g1 with
          | Some g2 => (result, g2, w')
          | None => (parse_error_page url EmptyString, g1, w')
          end
      | LinkError msg hrefs nav_hrefs =>
          let '(links1, discovered1) :=
            main_links url hrefs [] (discovered_urls g) in
          let '(_, discovered) := nav_links url nav_hrefs links1 discovered1 in
          (parse_error_page url msg,
           mkGlobals (page_cache g) (url_to_cache_key g) discovered, w')
      end
  end.

(** ** Crawler *)

(** The records [crawl_docs] writes inside its loop: the [info] line that
    precedes every fetch and the [warning] line of the [else] branch. The
    [info] lines written outside the loop on every run, the start line
    before it and the summary after it, are not part of this log: an empty
    [crawl_log] says that the loop logged nothing, not that the call did. *)
Inductive LogRecord :=
| LogCrawling (product_area url : string) (depth page : Z)
| LogFailedToFetch (url content : string).

Definition FrontierItem : Type := string * Z * string.

Definition item_url (item : FrontierItem) : string := item.1.1.
Definition item_depth (item : FrontierItem) : Z := item.1.2.

(** The local variables of [crawl_docs] together with the module state
    and the network. *)
Record CrawlState := mkCrawl {
  visited : gset string;
  to_visit : list FrontierItem;
  all_pages : Dict.t Page;
  product_page_counts : gmap string Z;
  crawl_log : list LogRecord;
  crawl_globals : Globals;
  crawl_world : World
}.

(** The loop over [page_data['links']]: a link that is neither visited
    nor in the frontier goes to the list of its product area. *)
Fixpoint partition_links (seen : gset string) (frontier : list FrontierItem)
    (product_area : string) (links : list string) : list string * list string :=
  match links with
  | [] => ([], [])
  | link :: links' =>
      let '(same_product_links, other_links) :=
        partition_links seen frontier product_area links' in
      if bool_decide (link ∉ seen) && negb (in_list link (map item_url frontier))
      then
        if String.eqb (get_product_area link) product_area
        then (link :: same_product_links, other_links)
        else (same_product_links, link :: other_links)
      else (same_product_links, other_links)
  end.

(** One pass through the body of the [while] loop. The politeness
    [time.sleep] changes no variable and is left out. *)
Definition crawl_iteration (max_depth : Z) (st : CrawlState) : CrawlState :=
  match to_visit st with
  | [] => st
  | (url, depth, product_hint) :: rest =>
      if bool_decide (url ∈ visited st) || (max_depth <? depth)%Z then
        mkCrawl (visited st) rest (all_pages st) (product_page_counts st)
                (crawl_log st) (crawl_globals st) (crawl_world st)
      else
        let product_area := get_product_area url in
        let counts0 :=
          match product_page_counts st !! product_area with
          | None => <[product_area := 0%Z]> (product_page_counts st)
          | Some _ => product_page_counts st
          end in
        let n := default 0%Z (counts0 !! product_area) in
        if (MAX_PAGES_PER_PRODUCT <=? n)%Z then
          mkCrawl (visited st) rest (all_pages st) counts0
                  (crawl_log st) (crawl_globals st) (crawl_world st)
        else
          let visited1 := {[url]} ∪ visited st in
          let counts1 := <[product_area := (n + 1)%Z]> counts0 in
          let log1 :=
            crawl_log st ++ [LogCrawling product_area url depth (n + 1)%Z] in
          let '(page_data, g1, w1) :=
            fetch_page url (crawl_globals st) (crawl_world st) in
          if page_success page_data then
            let all_pages1 := Dict.set url page_data (all_pages st) in
            if (depth <? max_depth)%Z then
              let '(same_product_links, other_links) :=
                partition_links visited1 rest product_area (page_links page_data) in
              let to_visit1 :=
                rest
                ++ map (fun link => (link, (depth + 1)%Z, product_area))
                       (take 25 same_product_links)
                ++ map (fun link => (link, (depth + 1)%Z, get_product_area link))
                       (take 8 other_links) in
              mkCrawl visited1 to_visit1 all_pages1 counts1 log1 g1 w1
            else
              mkCrawl visited1 rest all_pages1 counts1
                      (log1 ++ [LogFailedToFetch url (page_content page_data)])
                      g1 w1
          else
            mkCrawl visited1 rest (all_pages st) counts1 log1 g1 w1
  end.

(** [while to_visit: ...]; [None] when the fuel runs out first. *)
Fixpoint crawl_loop (fuel : nat) (max_depth : Z) (st : CrawlState)
    : option CrawlState :=
  match to_visit st with
  | [] => Some st
  | _ :: _ =>
      match fuel with
      | O => None
      | S fuel' => crawl_loop fuel' max_depth (crawl_iteration max_depth st)
      end
  end.

Definition crawl_init (start_urls : list string) (g : Globals) (w : World)
    : CrawlState :=
  mkCrawl ∅ (map (fun url => (url, 0%Z, "main")) start_urls) [] ∅ [] g w.

Definition default_start_urls (start_urls : option (list string)) : list string :=
  match start_urls with
  | None => DRUPAL_DOCS_START :: MAIN_DOC_URLS
  | Some l => l
  end.

(** [crawl_docs(start_urls, max_depth)]: the state at loop exit, whose
    [all_pages] is the returned dictionary. *)
Definition crawl_docs (fuel : nat) (start_urls : option (list string))
    (max_depth : Z) (g : Globals) (w : World) : option CrawlState :=
  crawl_loop fuel max_depth (crawl_init (default_start_urls start_urls) g w).

(** The state after [n] passes through the loop body of a crawl. *)
Fixpoint crawl_after (n : nat) (max_depth : Z) (st : CrawlState) : CrawlState :=
  match n with
  | O => st
  | S n' => crawl_iteration max_depth (crawl_after n' max_depth st)
  end.

(** Fuel that suffices for every crawl from [start_urls]: every visit
    uses one unit of one of eleven budgets and enqueues at most 33 links. *)
Definition crawl_fuel (start_urls : list string) : nat :=
  length start_urls + 33 * (11 * Z.to_nat MAX_PAGES_PER_PRODUCT).

(** ** Search orchestrator *)

Record Result := mkResult {
  res_title : string;
  res_url : string;
  res_snippet : string;
  res_content : string;
  res_relevance : Z
}.

Definition make_result (query url : string) (page_data : Page) (score : Z)
    : Result :=
  mkResult (page_title page_data) url
           (extract_snippet query (page_content page_data) 300)
           (page_content page_data) score.

Definition search_url (query : string) : string :=
  "https://docs.acquia.com/search/?q=" +:+ quote query.

(** The loop over the anchors of the site's search page, left at the
    twentieth accepted link. *)
Fixpoint search_result_links (doc_urls hrefs acc : list string) : list string :=
  match hrefs with
  | [] => acc
  | full_url :: hrefs' =>
      if is_docs_url full_url && negb (in_list full_url doc_urls) then
        let acc' := acc ++ [full_url] in
        if (20 <=? length acc')%nat then acc'
        else search_result_links doc_urls hrefs' acc'
      else search_result_links doc_urls hrefs' acc
  end.

(** Fetch and score one linked page; append it when it scores. *)
Definition score_linked (query linked_url : string) (results : list Result)
    (g : Globals) (w : World) : list Result * Globals * World :=
  let '(linked_page, g', w') := fetch_page linked_url g w in
  if page_success linked_page then
    let linked_score := calculate_relevance query linked_page in
    if (0 <? linked_score)%Z
    then (results ++ [make_result query linked_url linked_page linked_score], g', w')
    else (results, g', w')
  else (results, g', w').

(** Second pass over the links of a high-scoring page. *)
Fixpoint explore_linked (query : string) (doc_urls links : list string)
    (results : list Result) (g : Globals) (w : World)
    : list Result * Globals * World :=
  match links with
  | [] => (results, g, w)
  | linked_url :: links' =>
      if negb (in_list linked_url doc_urls) then
        let '(results', g', w') := score_linked query linked_url results g w in
        explore_linked query doc_urls links' results' g' w'
      else explore_linked query doc_urls links' results g w
  end.

(** The links of an overview page that did not score itself. *)
Fixpoint explore_overview (query : string) (links : list string)
    (results : list Result) (g : Globals) (w : World)
    : list Result * Globals * World :=
  match links with
  | [] => (results, g, w)
  | linked_url :: links' =>
      if negb (in_list linked_url (map res_url results)) then
        let '(results', g', w') := score_linked query linked_url results g w in
        explore_overview query links' results' g' w'
      else explore_overview query links' results g w
  end.

Definition nonempty {A} (l : list A) : bool :=
  match l with [] => false | _ => true end.

(** The first pass of [direct_search_docs] over [doc_urls]. *)
Fixpoint search_pass (query : string) (doc_urls urls : list string)
    (results : list Result) (g : Globals) (w : World)
    : list Result * Globals * World :=
  match urls with
  | [] => (results, g, w)
  | url :: urls' =>
      let '(page_data, g1, w1) := fetch_page url g w in
      if page_success page_data then
        let score := calculate_relevance query page_data in
        if (0 <? score)%Z then
          let results1 := results ++ [make_result query url page_data score] in
          if (50 <? score)%Z && nonempty (page_links page_data) then
            let '(results2, g2, w2) :=
              explore_linked query doc_urls (take 20 (page_links page_data))
                             results1 g1 w1 in
            search_pass query doc_urls urls' results2 g2 w2
          else search_pass query doc_urls urls' results1 g1 w1
        else if page_success page_data && nonempty (page_links page_data)
                && any_in ["overview"; "web-governance"] url then
          let '(results2, g2, w2) :=
            explore_overview query (take 30 (page_links page_data)) results g1 w1 in
          search_pass query doc_urls urls' results2 g2 w2
        else search_pass query doc_urls urls' results g1 w1
      else search_pass query doc_urls urls' results g1 w1
  end.

(** [results.sort(key=relevance, reverse=True)]: descending and stable. *)
Fixpoint insert_desc (r : Result) (l : list Result) : list Result :=
  match l with
  | [] => [r]
  | x :: l' =>
      if (res_relevance r <? res_relevance x)%Z
      then x :: insert_desc r l' else r :: l
  end.

Definition sort_desc (l : list Result) : list Result :=
  fold_right insert_desc [] l.

Definition memcached_result (query : string) : Result :=
  let memcached_data := get_memcached_doc_data in
  mkResult (page_title memcached_data) (page_url memcached_data)
           (extract_snippet query (page_content memcached_data) 300)
           (page_content memcached_data)
           (calculate_relevance query memcached_data).

Definition smart_memcached_injection (query : string) (results : list Result)
    : list Result :=
  if is_memcached_related_query query then
    let memcached_already_included :=
      existsb (fun result => String.eqb (res_url result) MEMCACHED_DOC_URL) results in
    if negb memcached_already_included
    then memcached_result query :: results
    else results
  else results.

Definition entry_points : list string :=
  MAIN_DOC_URLS ++
  [ "https://docs.acquia.com/acquia-cloud-platform";
    "https://docs.acquia.com/acquia-dam";
    "https://docs.acquia.com/campaign-studio";
    "https://docs.acquia.com/content-optimization";
    "https://docs.acquia.com/conversion-optimization";
    "https://docs.acquia.com/customer-data-platform";
    "https://docs.acquia.com/acquia-source";
    "https://docs.acquia.com/drupal-starter-kits";
    "https://docs.acquia.com/site-factory";
    "https://docs.acquia.com/web-governance" ].

Definition no_results (query : string) : Result :=
  mkResult ("No results found for " +:+ dquote +:+ query +:+ dquote)
           (search_url query)
           ("No matching content found in the documentation for " +:+ dquote
            +:+ query +:+ dquote
            +:+ ". Try the manual search link or use different keywords.")
           EmptyString 0%Z.

(** The results collected by the two passes, before sorting. *)
Definition collect_results (query : string) (g : Globals) (w : World)
    : list Result * Globals * World :=
  let '(found, w1) := site_search (search_url query) w in
  let doc_urls :=
    match found with
    | Some hrefs => entry_points ++ search_result_links entry_points hrefs []
    | None => entry_points
    end in
  search_pass query doc_urls doc_urls [] g w1.

(** [direct_search_docs]. No call inside its [try] block raises in this
    model, so the [except] branch is not represented. *)
Definition direct_search_docs (query : string) (g : Globals) (w : World)
    : list Result * Globals * World :=
  let '(collected, g', w') := collect_results query g w in
  let results := smart_memcached_injection query (sort_desc collected) in
  match results with
  | [] => ([no_results query], g', w')
  | _ => (take 10 results, g', w')
  end.

(** *** The pages a search fetches *)

(** The result the passes append for a fetched page: one that was
    fetched with success and scores above zero. *)
Definition scored (query : string) (fetched : string * Page) : option Result :=
  if page_success fetched.2 && (0 <? calculate_relevance query fetched.2)%Z
  then Some (make_result query fetched.1 fetched.2
                         (calculate_relevance query fetched.2))
  else None.

(** What the [fetch_page] calls of [direct_search_docs] return, call by
    call, each with the URL asked for: the same walk as [explore_linked],
    [explore_overview] and [search_pass], keeping the pages instead of the
    results. *)
Fixpoint explore_linked_fetched (query : string) (doc_urls links : list string)
    (results : list Result) (g : Globals) (w : World) : list (string * Page) :=
  match links with
  | [] => []
  | linked_url :: links' =>
      if negb (in_list linked_url doc_urls) then
        let '(results', g', w') := score_linked query linked_url results g w in
        (linked_url, (fetch_page linked_url g w).1.1)
          :: explore_linked_fetched query doc_urls links' results' g' w'
      else explore_linked_fetched query doc_urls links' results g w
  end.

Fixpoint explore_overview_fetched (query : string) (links : list string)
    (results : list Result) (g : Globals) (w : World) : list (string * Page) :=
  match links with
  | [] => []
  | linked_url :: links' =>
      if negb (in_list linked_url (map res_url results)) then
        let '(results', g', w') := score_linked query linked_url results g w in
        (linked_url, (fetch_page linked_url g w).1.1)
          :: explore_overview_fetched query links' results' g' w'
      else explore_overview_fetched query links' results g w
  end.

Fixpoint search_pass_fetched (query : string) (doc_urls urls : list string)
    (results : list Result) (g : Globals) (w : World) : list (string * Page) :=
  match urls with
  | [] => []
  | url :: urls' =>
      let '(page_data, g1, w1) := fetch_page url g w in
      (url, page_data) ::
      if page_success page_data then
        let score := calculate_relevance query page_data in
        if (0 <? score)%Z then
          let results1 := results ++ [make_result query url page_data score] in
          if (50 <? score)%Z && nonempty (page_links page_data) then
            let '(results2, g2, w2) :=
              explore_linked query doc_urls (take 20 (page_links page_data))
                             results1 g1 w1 in
            explore_linked_fetched query doc_urls (take 20 (page_links page_data))
                                   results1 g1 w1
            ++ search_pass_fetched query doc_urls urls' results2 g2 w2
          else search_pass_fetched query doc_urls urls' results1 g1 w1
        else if page_success page_data && nonempty (page_links page_data)
                && any_in ["overview"; "web-governance"] url then
          let '(results2, g2, w2) :=
            explore_overview query (take 30 (page_links page_data)) results g1 w1 in
          explore_overview_fetched query (take 30 (page_links page_data))
                                   results g1 w1
          ++ search_pass_fetched query doc_urls urls' results2 g2 w2
        else search_pass_fetched query doc_urls urls' results g1 w1
      else search_pass_fetched query doc_urls urls' results g1 w1
  end.

(** The pages [direct_search_docs] fetches for [query], cached or from
    the network, in the order of the calls. *)
Definition fetched_pages (query : string) (g : Globals) (w : World)
    : list (string * Page) :=
  let '(found, w1) := site_search (search_url query) w in
  let doc_urls :=
    match found with
    | Some hrefs => entry_points ++ search_result_links entry_points hrefs []
    | None => entry_points
    end in
  search_pass_fetched query doc_urls doc_urls [] g w1.

End Program.

(** ** Paragraph excerpts and search over crawled pages *)

Definition newline : string := String (ascii_of_nat 10) EmptyString.

(** The paragraph loop of [extract_relevant_paragraphs]: it is left after
    the append that brings the list to [max_paragraphs] entries. *)
Fixpoint relevant_paras (query_words paragraphs : list string)
    (max_paragraphs : Z) (found : nat) : list string :=
  match paragraphs with
  | [] => []
  | para :: rest =>
      if any_in query_words (Str.lower para) then
        if (max_paragraphs <=? Z.of_nat (S found))%Z then [para]
        else para :: relevant_paras query_words rest max_paragraphs (S found)
      else relevant_paras query_words rest max_paragraphs found
  end.

(** [[p.strip() for p in content.split(newline) if len(p.strip()) > 30]] *)
Definition long_paragraphs (content : string) : list string :=
  List.filter (fun p => (30 <? String.length p)%nat)
              (map Str.strip (Str.split_on (ascii_of_nat 10) content)).

Definition extract_relevant_paragraphs (query content : string)
    (max_paragraphs : Z) : list string :=
  let query_words := Str.split (Str.lower query) in
  relevant_paras query_words (long_paragraphs content) max_paragraphs 0.

(** [l.sort(key=..., reverse=True)] for any record: descending, stable. *)
Fixpoint insert_desc_by {A} (key : A -> Z) (x : A) (l : list A) : list A :=
  match l with
  | [] => [x]
  | y :: l' =>
      if (key x <? key y)%Z then y :: insert_desc_by key x l' else x :: l
  end.

Definition sort_desc_by {A} (key : A -> Z) (l : list A) : list A :=
  fold_right (insert_desc_by key) [] l.

(** The dictionaries [search_in_pages] returns. *)
Record Hit := mkHit {
  hit_url : string;
  hit_title : string;
  hit_relevance : Z;
  hit_excerpts : list string
}.

(** The loop of [search_in_pages] over [pages.items()]. *)
Fixpoint scored_hits (query : string) (pages : Dict.t Page) : list Hit :=
  match pages with
  | [] => []
  | (url, page_data) :: pages' =>
      let score := calculate_relevance query page_data in
      if (0 <? score)%Z
      then mkHit url (page_title page_data) score
             (extract_relevant_paragraphs query (page_content page_data) 3)
           :: scored_hits query pages'
      else scored_hits query pages'
  end.

Definition search_in_pages (query : string) (pages : Dict.t Page) : list Hit :=
  take 10 (sort_desc_by hit_relevance (scored_hits query pages)).

(** ** Source links, resources and the cache tools *)

(** The [Resource] objects of [list_resources]. *)
Record Resource := mkResource {
  uri : string;
  name : string;
  mimeType : string;
  description : string
}.

(** The text both [read_resource] branches build from a page. *)
Definition format_page (url : string) (page_data : Page) : string :=
  "# " +:+ page_title page_data +:+ newline +:+ newline
  +:+ "Source: " +:+ url +:+ newline +:+ newline +:+ page_content page_data.

(** The loop of the [crawl_docs] tool: a crawled page enters the cache
    when its URL is not cached and the cache is below [CACHE_SIZE]. *)
Fixpoint merge_crawled (crawled : Dict.t Page) (cache : Dict.t Page)
    (added_count : Z) : Dict.t Page * Z :=
  match crawled with
  | [] => (cache, added_count)
  | (url, page_data) :: crawled' =>
      if negb (Dict.mem url cache) && (length cache <? CACHE_SIZE)%nat
      then merge_crawled crawled' (Dict.set url page_data cache)
                         (added_count + 1)%Z
      else merge_crawled crawled' cache added_count
  end.

Section Tools.
Context `{E : Externals}.

Definition get_source_links_for_query (query : string) (g : Globals) (w : World)
    : string * Globals * World :=
  if is_memcached_related_query query then (MEMCACHED_DOC_URL, g, w)
  else
    let '(results, g', w') := direct_search_docs query g w in
    match results with
    | r :: _ =>
        match res_url r with
        | EmptyString => (search_url query, g', w')
        | _ => (res_url r, g', w')
        end
    | [] => (search_url query, g', w')
    end.

(** [list_resources]; [None] is an exception of
    [initialize_memcached_cache]. *)
Definition list_resources (g : Globals) : option (list Resource * Globals) :=
  let ensured :=
    if negb (Dict.mem MEMCACHED_DOC_URL (page_cache g))
    then initialize_memcached_cache g else Some g in
  match ensured with
  | None => None
  | Some g1 =>
      Some (map (fun entry =>
                   mkResource ("drupal://" +:+ entry.1) (page_title entry.2)
                              "text/plain"
                              ("Documentation: " +:+ page_title entry.2))
                (page_cache g1),
            g1)
  end.

(** [read_resource]; [None] is an exception ([StopIteration] of the cache
    initialisation, [KeyError] of the lookup that follows it). *)
Definition read_resource (uri : string) (g : Globals) (w : World)
    : option (string * Globals * World) :=
  let url := Str.replace uri "drupal://" EmptyString in
  if String.eqb url MEMCACHED_DOC_URL then
    let ensured :=
      if negb (Dict.mem url (page_cache g))
      then initialize_memcached_cache g else Some g in
    match ensured with
    | None => None
    | Some g1 =>
        match Dict.get url (page_cache g1) with
        | Some page_data => Some (format_page url page_data, g1, w)
        | None => None
        end
    end
  else
    match Dict.get url (page_cache g) with
    | Some page_data => Some (format_page url page_data, g, w)
    | None =>
        let '(page_data, g1, w1) := fetch_page url g w in
        if page_success page_data
        then Some (format_page url page_data, g1, w1)
        else Some ("Content not available for " +:+ url, g1, w1)
    end.

(** The state changes of the [crawl_docs] tool of [call_tool]: the crawl
    from the default seeds, then the merge into the cache. The result is
    the crawled dictionary, [added_count] and the new state; [None] when
    the fuel of the crawl runs out. *)
Definition tool_crawl_docs (fuel : nat) (max_depth : option Z) (g : Globals)
    (w : World) : option (Dict.t Page * Z * Globals * World) :=
  match crawl_docs fuel None (default MAX_CRAWL_DEPTH max_depth) g w with
  | None => None
  | Some st =>
      let g1 := crawl_globals st in
      let '(cache, added_count) :=
        merge_crawled (all_pages st) (page_cache g1) 0%Z in
      Some (all_pages st, added_count,
            mkGlobals cache (url_to_cache_key g1) (discovered_urls g1),
            crawl_world st)
  end.

(** The state change of the [refresh_docs] tool. *)
Definition tool_refresh_docs (g : Globals) : Globals := mkGlobals [] [] ∅.

End Tools.

(** ** Well-formed caches *)

(** A link kept by the loops of [fetch_page]: in scope and not the page
    itself. *)
Definition link_ok (url link : string) : Prop :=
  is_docs_url link = true /\ link <> url.

(** What [fetch_page] and [get_memcached_doc_data] guarantee of a page
    stored under [url]. *)
Definition entry_ok (entry : string * Page) : Prop :=
  page_url entry.2 = entry.1
  /\ page_success entry.2 = true
  /\ NoDup (page_links entry.2)
  /\ Forall (fun link => is_docs_url link = true /\ link <> entry.1)
            (page_links entry.2).

(** A cache as the program builds it: a dictionary (no key twice) of at
    most [CACHE_SIZE] pages, each stored under its own URL. *)
Definition cache_wf (g : Globals) : Prop :=
  NoDup (Dict.keys (page_cache g))
  /\ Forall entry_ok (page_cache g)
  /\ length (page_cache g) <= CACHE_SIZE.

(** The oldest key, when [add_to_cache] is going to evict it. *)
Definition evicted_key (capacity : nat) (g : Globals) : option string :=
  if (capacity <=? length (page_cache g))%nat
  then Dict.first_key (page_cache g) else None.

(** ** Quantities of a crawl state *)

(** Every value [get_product_area] can return. *)
Definition all_areas : list string := product_areas ++ ["general"].

Section CrawlMeasures.
Context `{E : Externals}.

(** [product_page_counts.get(area, 0)] *)
Definition count_of (st : CrawlState) (area : string) : Z :=
  default 0%Z (product_page_counts st !! area).

(** The visits the budgets of the areas [l] still allow under the
    counts [c]. *)
Definition budget_sum (c : string -> Z) (l : list string) : nat :=
  foldr (fun area acc => Z.to_nat (MAX_PAGES_PER_PRODUCT - c area) + acc) 0 l.

Definition remaining_budget (st : CrawlState) : nat :=
  budget_sum (count_of st) all_areas.

Definition crawl_measure (st : CrawlState) : nat :=
  length (to_visit st) + 33 * remaining_budget st.

(** The URLs of the [Crawling] records: the fetches attempted so far. *)
Fixpoint attempted (log : list LogRecord) : list string :=
  match log with
  | [] => []
  | LogCrawling _ url _ _ :: log' => url :: attempted log'
  | LogFailedToFetch _ _ :: log' => attempted log'
  end.

(** Every cached page lists each of its links once, as the pages built by
    [fetch_page] and [get_memcached_doc_data] do. *)
Definition cache_links_ok (g : Globals) : Prop :=
  Forall (fun entry => NoDup (page_links entry.2)) (page_cache g).

(** The entry of a product area counts the fetches attempted for it and
    stays within the budget. *)
Definition budget_inv (st : CrawlState) : Prop :=
  forall a,
    count_of st a
    = Z.of_nat (length (filter (fun u => get_product_area u = a)
                               (attempted (crawl_log st))))
    /\ (count_of st a <= MAX_PAGES_PER_PRODUCT)%Z.

(** A URL has a [Crawling] record exactly when it is visited, and no URL
    has two. *)
Definition attempt_inv (st : CrawlState) : Prop :=
  NoDup (attempted (crawl_log st))
  /\ (forall u, u ∈ attempted (crawl_log st) <-> u ∈ visited st).

(** The frontier is what is left of the seeds followed by the links
    enqueued since; no enqueued link occurs twice, is visited, or is also
    a remaining seed; with distinct seeds no remaining seed is visited. *)
Definition frontier_inv (init : list FrontierItem) (st : CrawlState) : Prop :=
  cache_links_ok (crawl_globals st)
  /\ exists seeds links,
       to_visit st = seeds ++ links
       /\ seeds `suffix_of` init
       /\ NoDup (map item_url links)
       /\ (forall u, u ∈ map item_url links ->
             (u ∉ visited st) /\ (u ∉ map item_url seeds))
       /\ (NoDup (map item_url init) ->
           forall u, u ∈ map item_url seeds -> u ∉ visited st).

End CrawlMeasures.

(** The frontier items one visit of [url] appends: up to 25 links of the
    page's own product area and up to 8 of the others, and nothing when
    the fetch failed or the depth limit is reached. *)
Definition enqueued `{E : Externals} (max_depth : Z) (st : CrawlState)
    (url : string) (depth : Z) (rest : list FrontierItem) (page_data : Page)
    : list FrontierItem :=
  if page_success page_data && (depth <? max_depth)%Z then
    let product_area := get_product_area url in
    let '(same_product_links, other_links) :=
      partition_links ({[url]} ∪ visited st) rest product_area
                      (page_links page_data) in
    map (fun link => (link, (depth + 1)%Z, product_area))
        (take 25 same_product_links)
    ++ map (fun link => (link, (depth + 1)%Z, get_product_area link))
           (take 8 other_links)
  else [].

(** ** Further crawl invariants *)

Section CrawlInvariantsMore.
Context `{E : Externals}.

(** The result dictionary holds successful pages of visited URLs, one
    per key, and no more pages than fetches were attempted. *)
Definition result_inv (st : CrawlState) : Prop :=
  Forall (fun entry => page_success entry.2 = true /\ entry.1 ∈ visited st)
         (all_pages st)
  /\ NoDup (Dict.keys (all_pages st))
  /\ length (all_pages st) <= length (attempted (crawl_log st)).

(** Whatever is visited or waiting is a seed or in scope, and cache and
    result hold well-formed pages. *)
Definition scope_inv (seeds : list string) (st : CrawlState) : Prop :=
  cache_wf (crawl_globals st)
  /\ Forall entry_ok (all_pages st)
  /\ Forall (fun item => item_url item ∈ seeds
                         \/ is_docs_url (item_url item) = true) (to_visit st)
  /\ (forall u, u ∈ visited st -> u ∈ seeds \/ is_docs_url u = true).

(** What a log record says of the crawl state: a [Crawling] record names
    the product area of its URL and a depth within the limit; a
    [Failed to fetch] record names a URL whose page is in the result. *)
Definition log_ok (max_depth : Z) (st : CrawlState) (r : LogRecord) : Prop :=
  match r with
  | LogCrawling area url depth _ =>
      area = get_product_area url /\ (0 <= depth <= max_depth)%Z
      /\ url ∈ visited st
  | LogFailedToFetch url _ => url ∈ Dict.keys (all_pages st)
  end.

Definition depth_inv (max_depth : Z) (st : CrawlState) : Prop :=
  Forall (fun item => (0 <= item_depth item <= Z.max 0 max_depth)%Z) (to_visit st)
  /\ Forall (log_ok max_depth st) (crawl_log st).

(** Nothing has been enqueued: the frontier is what is left of the seeds,
    and only seeds are visited. *)
Definition seeds_only_inv (init : list FrontierItem) (st : CrawlState) : Prop :=
  to_visit st `suffix_of` init
  /\ (forall u, u ∈ visited st -> u ∈ map item_url init).

(** Nothing has happened but pops of the frontier. *)
Definition idle_inv (init : CrawlState) (st : CrawlState) : Prop :=
  to_visit st `suffix_of` to_visit init
  /\ visited st = visited init /\ all_pages st = all_pages init
  /\ crawl_log st = crawl_log init /\ crawl_globals st = crawl_globals init
  /\ crawl_world st = crawl_world init.

End CrawlInvariantsMore.

(** The URLs of [l], counted product area by product area. *)
Definition per_area_total (areas : list string) (l : list string) : nat :=
  foldr (fun a acc => length (filter (fun u => get_product_area u = a) l) + acc)
        0 areas.

(** ** Pages that do not match a query *)

Section Scoreless.
Context `{E : Externals}.

(** No cached page scores above zero for [query]. *)
Definition cache_scoreless (query : string) (g : Globals) : Prop :=
  Forall (fun entry => (calculate_relevance query entry.2 <= 0)%Z) (page_cache g).

(** No page the network serves scores above zero for [query]. *)
Definition network_scoreless (query : string) : Prop :=
  forall url w title content hrefs nav_hrefs w',
    http_get url w = (Parsed title content hrefs nav_hrefs, w') ->
    forall links,
      (calculate_relevance query (mkPage url (clean_title title) content links true)
       <= 0)%Z.

End Scoreless.

(** ** A small site for the examples *)

(** Collaborators given by a table: a site that answers every request the
    same way, whatever was requested before. *)
Definition table_externals (site : string -> Response)
    (search : option (list string)) : Externals :=
  {| World := unit;
     http_get := fun url w => (site url, w);
     site_search := fun _ w => (search, w);
     md5_hex8 := Str.take 8;
     quote := fun s => s;
     set_order := remove_dups;
     set_order_NoDup := NoDup_remove_dups;
     set_order_elem := elem_of_remove_dups |}.

(** A site on which every request fails. *)
Definition offline : Externals :=
  table_externals (fun _ => RequestError "unreachable") None.

Definition blank_page (url : string) : Page := mkPage url "t" "c" [] true.

(** [n] cache entries with distinct URLs, oldest first. *)
Definition numbered_url (n : nat) : string :=
  "https://docs.acquia.com/page/" +:+ pretty n.

Definition numbered_entries (n : nat) : list (string * Page) :=
  map (fun i => (numbered_url i, blank_page (numbered_url i))) (seq 0 n).

(** Three pages inserted in the order A, B, C. *)
Definition abc_ops : list (string * Page) :=
  [ ("A", blank_page "A"); ("B", blank_page "B"); ("C", blank_page "C") ].

(** A cache filled to [CACHE_SIZE]. *)
Definition full_cache : Globals := mkGlobals (numbered_entries CACHE_SIZE) [] ∅.


(** The page [p] with another content text. *)
Definition with_content (p : Page) (content : string) : Page :=
  mkPage (page_url p) (page_title p) content (page_links p) (page_success p).


(** A site of three pages: A links to B and C (B twice), B and C have no
    links. *)
Definition url_A : string := "https://docs.acquia.com/acquia-dam/a".
Definition url_B : string := "https://docs.acquia.com/acquia-dam/b".
Definition url_C : string := "https://docs.acquia.com/site-factory/c".

Definition abc_site : Externals :=
  table_externals
    (fun url =>
       if String.eqb url url_A then Parsed "A" "alpha" [url_B; url_C; url_B] []
       else if String.eqb url url_B then Parsed "B" "beta" [] []
       else if String.eqb url url_C then Parsed "C" "gamma" [] []
       else RequestError "not found")
    None.

(** The page A again, with an anchor after the one to B whose target
    [urljoin] rejects, so that the link loop raises there. *)
Definition broken_link_site : Externals :=
  table_externals
    (fun url =>
       if String.eqb url url_A then LinkError "Invalid IPv6 URL" [url_B] []
       else RequestError "not found")
    None.

(** [n] copies of [s] *)
Fixpoint repeat_string (n : nat) (s : string) : string :=
  match n with
  | O => EmptyString
  | S n' => s +:+ repeat_string n' s
  end.

(** The module state after [main] has called
    [initialize_memcached_cache]. *)
Definition preloaded `{E : Externals} : Globals :=
  default empty_globals (initialize_memcached_cache empty_globals).

Definition cloud_overview_url : string :=
  "https://docs.acquia.com/acquia-cloud-platform/overview".
Definition dam_overview_url : string :=
  "https://docs.acquia.com/acquia-dam/overview".

(** A site whose Cloud Platform overview is about Memcached too, says so
    sixty times, and links to the pinned document. *)
Definition memcached_site : Externals :=
  table_externals
    (fun url =>
       if String.eqb url cloud_overview_url
       then Parsed "Memcached on Cloud Platform"
                   (repeat_string 60 "memcache ") [MEMCACHED_DOC_URL] []
       else RequestError "not found")
    None.

(** A site with a single page, the DAM overview. *)
Definition dam_site : Externals :=
  table_externals
    (fun url =>
       if String.eqb url dam_overview_url
       then Parsed "Acquia DAM" "Digital asset management." [] []
       else RequestError "not found")
    None.

(** The pinned document and the DAM overview in the cache, no network. *)
Definition two_page_cache : Globals :=
  mkGlobals [ (MEMCACHED_DOC_URL, get_memcached_doc_data);
              (dam_overview_url,
               mkPage dam_overview_url "Settings.php" "Overview." [] true) ]
            [] ∅.

(** * Properties *)

(** ** Dictionaries *)

Section DictFacts.
Context {V : Type}.
Implicit Types (d : Dict.t V) (k : string) (v : V).

Lemma dict_mem_keys k d : Dict.mem k d = true <-> k ∈ Dict.keys d.
Proof.
  unfold Dict.mem, Dict.keys. induction d as [|[k' v'] d IH]; simpl.
  - split; [discriminate | intros H; inversion H].
  - rewrite orb_true_iff, IH, elem_of_cons, String.eqb_eq. intuition congruence.
Qed.

Lemma dict_set_absent k v d :
  k ∉ Dict.keys d -> Dict.set k v d = d ++ [(k, v)].
Proof.
  induction d as [|[k' v'] d IH]; simpl; intros Hk; [reflexivity|].
  apply not_elem_of_cons in Hk as [Hne Hk].
  destruct (String.eqb_spec k' k) as [->|_]; [congruence|].
  now rewrite IH.
Qed.

Lemma dict_set_keys_present k v d :
  k ∈ Dict.keys d -> Dict.keys (Dict.set k v d) = Dict.keys d.
Proof.
  induction d as [|[k' v'] d IH]; simpl; intros Hk; [inversion Hk|].
  destruct (String.eqb_spec k' k) as [->|Hne]; [reflexivity|].
  simpl. f_equal. apply IH. apply elem_of_cons in Hk as [->|Hk]; congruence.
Qed.

Lemma dict_set_length_present k v d :
  k ∈ Dict.keys d -> length (Dict.set k v d) = length d.
Proof.
  intros Hk. rewrite <- (length_map fst (Dict.set k v d)), <- (length_map fst d).
  fold (Dict.keys (Dict.set k v d)). now rewrite dict_set_keys_present.
Qed.

Lemma dict_del_head k v d : Dict.del k ((k, v) :: d) = d.
Proof. simpl. now rewrite String.eqb_refl. Qed.

Lemma dict_get_set_eq k v d : Dict.get k (Dict.set k v d) = Some v.
Proof.
  induction d as [|[k' v'] d IH]; simpl.
  - now rewrite String.eqb_refl.
  - destruct (String.eqb_spec k' k) as [->|Hne]; simpl.
    + now rewrite String.eqb_refl.
    + destruct (String.eqb_spec k' k); [congruence | exact IH].
Qed.

Lemma dict_get_set_ne k k0 v d :
  k0 <> k -> Dict.get k0 (Dict.set k v d) = Dict.get k0 d.
Proof.
  intros Hne. induction d as [|[k' v'] d IH]; simpl.
  - destruct (String.eqb_spec k k0); congruence.
  - destruct (String.eqb_spec k' k) as [->|Hk]; simpl.
    + destruct (String.eqb_spec k k0); congruence.
    + now rewrite IH.
Qed.

End DictFacts.

(** ** Page cache *)

Section CacheFacts.
Context `{E : Externals}.

(** The cache of [add_to_cache] when nothing has to be evicted. *)
Lemma add_to_cache_room capacity url p g :
  length (page_cache g) < capacity ->
  exists g', add_to_cache capacity url p g = Some g'
             /\ page_cache g' = Dict.set url p (page_cache g).
Proof.
  intros Hlt. unfold add_to_cache.
  destruct (Nat.leb_spec capacity (length (page_cache g))); [lia|].
  eexists; split; reflexivity.
Qed.

(** The cache of [add_to_cache] when the cache is full: the head of the
    dictionary goes, whatever the key being written. *)
Lemma add_to_cache_full capacity url p g oldest v rest :
  page_cache g = (oldest, v) :: rest ->
  capacity <= length (page_cache g) ->
  exists g', add_to_cache capacity url p g = Some g'
             /\ page_cache g' = Dict.set url p rest.
Proof.
  intros Hc Hle. unfold add_to_cache.
  destruct (Nat.leb_spec capacity (length (page_cache g))); [|lia].
  rewrite Hc. simpl Dict.first_key. cbv iota.
  eexists; split; [reflexivity|]. simpl page_cache.
  now rewrite String.eqb_refl.
Qed.

(** [add_to_cache] raises only on an empty cache of capacity zero. *)
Lemma add_to_cache_succeeds capacity url p g :
  0 < capacity \/ page_cache g <> [] ->
  is_Some (add_to_cache capacity url p g).
Proof.
  intros H. unfold add_to_cache.
  destruct (Nat.leb_spec capacity (length (page_cache g))) as [Hle|Hlt]; [|eauto].
  destruct (page_cache g) as [|[k v] rest] eqn:Hc; simpl in *; [|eauto].
  destruct H; [lia | congruence].
Qed.

Lemma put_all_app capacity ops1 ops2 g :
  put_all capacity (ops1 ++ ops2) g
  = match put_all capacity ops1 g with
    | Some g' => put_all capacity ops2 g'
    | None => None
    end.
Proof.
  revert g. induction ops1 as [|[url p] ops1 IH]; intros g; simpl; [reflexivity|].
  destruct (add_to_cache capacity url p g); [apply IH | reflexivity].
Qed.

(** After [n] insertions of distinct URLs into an empty cache, the cache
    is the window of the last [capacity] insertions, oldest first. *)
Lemma put_all_window capacity (ops : list (string * Page)) n :
  0 < capacity -> NoDup (map fst ops) -> n <= length ops ->
  exists g, put_all capacity (take n ops) empty_globals = Some g
            /\ page_cache g = drop (n - capacity) (take n ops).
Proof.
  intros Hcap Hnd. induction n as [|n IH]; intros Hn.
  - exists empty_globals. now rewrite take_0.
  - destruct IH as (g & Hg & Hwin); [lia|].
    destruct (lookup_lt_is_Some_2 ops n) as [[url p] Hop]; [lia|].
    rewrite (take_S_r _ _ _ Hop), put_all_app, Hg. simpl.
    assert (Hfresh : url ∉ Dict.keys (drop (n - capacity) (take n ops))).
    { intros Hin. unfold Dict.keys in Hin.
      apply list_elem_of_fmap in Hin as ([url' p'] & Heq & Hin). simpl in Heq. subst url'.
      apply list_elem_of_lookup in Hin as [i Hi].
      rewrite lookup_drop in Hi.
      assert (Hlt : n - capacity + i < n).
      { apply lookup_lt_Some in Hi. rewrite length_take in Hi. lia. }
      rewrite lookup_take_lt in Hi by lia.
      assert (Hi' : map fst ops !! (n - capacity + i) = Some url).
      { change (map fst ops) with (fst <$> ops). now rewrite list_lookup_fmap, Hi. }
      assert (Hn' : map fst ops !! n = Some url).
      { change (map fst ops) with (fst <$> ops). now rewrite list_lookup_fmap, Hop. }
      pose proof (NoDup_lookup _ _ _ _ Hnd Hi' Hn'). lia. }
    assert (Hlen : length (page_cache g) = Nat.min n capacity).
    { rewrite Hwin, length_drop, length_take. lia. }
    destruct (Nat.le_gt_cases capacity n) as [Hfull|Hroom].
    + destruct (page_cache g) as [|[k v] rest] eqn:Hc; [simpl in Hlen; lia|].
      destruct (add_to_cache_full capacity url p g k v rest Hc) as (g' & Hadd & Hc');
        [rewrite Hc, Hlen; lia|].
      rewrite Hadd. exists g'. split; [reflexivity|].
      rewrite Hc'.
      assert (Hrest : rest = drop (S (n - capacity)) (take n ops)).
      { pose proof (f_equal (drop 1) Hwin) as Hd. rewrite drop_drop in Hd.
        simpl in Hd. rewrite drop_0 in Hd.
        replace (n - capacity + 1) with (S (n - capacity)) in Hd by lia. exact Hd. }
      rewrite dict_set_absent.
      * replace (S n - capacity) with (S (n - capacity)) by lia.
        rewrite drop_app_le by (rewrite length_take; lia). now rewrite Hrest.
      * rewrite <- Hwin in Hfresh. unfold Dict.keys in *. simpl in Hfresh.
        now apply not_elem_of_cons in Hfresh as [_ ?].
    + destruct (add_to_cache_room capacity url p g) as (g' & Hadd & Hc'); [lia|].
      rewrite Hadd. exists g'. split; [reflexivity|].
      rewrite Hc', Hwin. rewrite dict_set_absent by exact Hfresh.
      replace (n - capacity) with 0 by lia.
      replace (S n - capacity) with 0 by lia. now rewrite !drop_0.
Qed.

End CacheFacts.

Section CacheClaims.
Context `{E : Externals}.

(** C2, for positive capacities. For every capacity of at least one and every sequence
    of more than [capacity] insertions with pairwise distinct URLs into an
    empty cache: no insertion raises and after each of them the cache is
    the window of the most recent insertions, oldest first, of size at
    most [capacity]; at the end it holds exactly the [capacity] most
    recently inserted URLs; and an insertion of a new URL into a full
    cache removes the head of the dictionary, the oldest entry present. *)
Theorem cache_fifo_window (capacity : nat) (ops : list (string * Page)) :
  0 < capacity -> NoDup (map fst ops) -> capacity < length ops ->
  (forall n, n <= length ops ->
     exists g, put_all capacity (take n ops) empty_globals = Some g
               /\ page_cache g = drop (n - capacity) (take n ops)
               /\ length (page_cache g) <= capacity)
  /\ (exists g, put_all capacity ops empty_globals = Some g
                /\ Dict.keys (page_cache g)
                   = drop (length ops - capacity) (map fst ops)
                /\ length (page_cache g) = capacity)
  /\ (forall g url p oldest v rest,
        page_cache g = (oldest, v) :: rest ->
        capacity <= length (page_cache g) ->
        url ∉ Dict.keys (page_cache g) ->
        exists g', add_to_cache capacity url p g = Some g'
                   /\ page_cache g' = rest ++ [(url, p)]).
Proof.
  intros Hcap Hnd Hlen. split; [|split].
  - intros n Hn.
    destruct (put_all_window capacity ops n Hcap Hnd Hn) as (g & Hg & Hwin).
    exists g. repeat split; try assumption.
    rewrite Hwin, length_drop, length_take. lia.
  - destruct (put_all_window capacity ops (length ops) Hcap Hnd (le_n _))
      as (g & Hg & Hwin).
    rewrite firstn_all in Hg, Hwin. exists g. split; [exact Hg|].
    unfold Dict.keys. rewrite Hwin. split.
    + change (map fst) with (fmap (M:=list) (@fst string Page)).
      now rewrite fmap_drop.
    + rewrite length_drop. lia.
  - intros g url p oldest v rest Hc Hfull Hfresh.
    destruct (add_to_cache_full capacity url p g oldest v rest Hc Hfull)
      as (g' & Hadd & Hc').
    exists g'. split; [exact Hadd|]. rewrite Hc'. apply dict_set_absent.
    rewrite Hc in Hfresh. unfold Dict.keys in *. simpl in Hfresh.
    now apply not_elem_of_cons in Hfresh as [_ ?].
Qed.

(** C9, with the case of the oldest URL. Writing a URL that is already cached: when the cache
    holds at least [capacity] entries the oldest entry is evicted all the
    same, so the cache shrinks by one; a URL other than the oldest keeps
    its place among the surviving keys, while the oldest URL itself is
    evicted and comes back as the newest entry. When there is room the
    keys and their order do not change. *)
Theorem add_to_cache_existing_key (capacity : nat) (g : Globals)
    (url : string) (p : Page) (oldest : string) (v : Page)
    (rest : Dict.t Page) :
  page_cache g = (oldest, v) :: rest ->
  NoDup (Dict.keys (page_cache g)) ->
  url ∈ Dict.keys (page_cache g) ->
  (capacity <= length (page_cache g) ->
     exists g', add_to_cache capacity url p g = Some g'
       /\ (url <> oldest ->
             Dict.keys (page_cache g') = Dict.keys rest
             /\ length (page_cache g') = length (page_cache g) - 1
             /\ Dict.get url (page_cache g') = Some p)
       /\ (url = oldest -> page_cache g' = rest ++ [(url, p)]))
  /\ (length (page_cache g) < capacity ->
        exists g', add_to_cache capacity url p g = Some g'
          /\ Dict.keys (page_cache g') = Dict.keys (page_cache g)
          /\ Dict.get url (page_cache g') = Some p).
Proof.
  intros Hc Hnd Hin. split.
  - intros Hfull.
    destruct (add_to_cache_full capacity url p g oldest v rest Hc Hfull)
      as (g' & Hadd & Hc').
    exists g'. split; [exact Hadd|]. rewrite Hc'. rewrite Hc in Hin, Hnd |- *.
    unfold Dict.keys in Hin, Hnd. simpl in Hin, Hnd.
    apply NoDup_cons in Hnd as [Hhead Hnd].
    split.
    + intros Hne. apply elem_of_cons in Hin as [?|Hin]; [congruence|].
      split; [now apply dict_set_keys_present|].
      split; [|apply dict_get_set_eq].
      rewrite dict_set_length_present by exact Hin. simpl. lia.
    + intros ->. now apply dict_set_absent.
  - intros Hroom.
    destruct (add_to_cache_room capacity url p g Hroom) as (g' & Hadd & Hc').
    exists g'. split; [exact Hadd|]. rewrite Hc'.
    split; [now apply dict_set_keys_present | apply dict_get_set_eq].
Qed.

End CacheClaims.

(** The scenario of capacity 2 with insertions A, B, C: the cache ends
    as B, C. *)
Lemma cache_fifo_window_witness :
  exists g, put_all (E:=offline) 2 abc_ops empty_globals = Some g
            /\ Dict.keys (page_cache g) = ["B"; "C"]
            /\ length (page_cache g) = 2.
Proof.
  refine (proj1 (proj2 (cache_fifo_window (E:=offline) 2 abc_ops _ _ _))).
  - lia.
  - apply (bool_decide_unpack _). vm_compute. reflexivity.
  - simpl. lia.
Defined.

(** With capacity zero the first insertion into the empty cache raises
    [StopIteration]: no sequence of insertions completes. *)
Lemma cache_capacity_zero_raises :
  ~ (exists g, put_all (E:=offline) 0 [("A", blank_page "A")] empty_globals = Some g
               /\ Dict.keys (page_cache g) = drop (1 - 0) ["A"]).
Proof. intros (g & Hg & _). vm_compute in Hg. discriminate. Qed.

(** Capacity 2, cache A, B: writing B again evicts A and leaves one
    entry. *)
Lemma add_to_cache_existing_key_witness :
  exists g', add_to_cache (E:=offline) 2 "B" (blank_page "B")
                          (mkGlobals (take 2 abc_ops) [] ∅) = Some g'
             /\ Dict.keys (page_cache g') = ["B"]
             /\ length (page_cache g') = 1.
Proof.
  destruct (add_to_cache_existing_key (E:=offline) 2
              (mkGlobals (take 2 abc_ops) [] ∅) "B" (blank_page "B")
              "A" (blank_page "A") [("B", blank_page "B")])
    as [Hfull _].
  - reflexivity.
  - apply (bool_decide_unpack _). vm_compute. reflexivity.
  - apply (bool_decide_unpack _). vm_compute. reflexivity.
  - destruct Hfull as (g' & Hadd & Hne & _); [simpl; lia|].
    exists g'. split; [exact Hadd|].
    destruct Hne as (Hk & Hl & _); [discriminate|]. split; assumption.
Defined.

(** The full cache of [CACHE_SIZE] entries: writing its oldest URL again
    moves that URL from the first to the last place of the eviction
    order. *)
Lemma reinsert_oldest_moves_last :
  Dict.keys (page_cache full_cache) !! 0 = Some (numbered_url 0)
  /\ exists g', add_to_cache (E:=offline) CACHE_SIZE (numbered_url 0)
                             (blank_page (numbered_url 0)) full_cache = Some g'
                /\ length (page_cache g') = CACHE_SIZE
                /\ Dict.keys (page_cache g') !! 0 = Some (numbered_url 1)
                /\ Dict.keys (page_cache g') !! 999 = Some (numbered_url 0).
Proof.
  split; [vm_compute; reflexivity|].
  eexists. split; [vm_compute; reflexivity|].
  repeat split; vm_compute; reflexivity.
Qed.

(** ** URL classifier *)

Lemma existsb_false_Forall {A} (f : A -> bool) (l : list A) :
  existsb f l = false <-> Forall (fun x => f x = false) l.
Proof.
  induction l as [|x l IH]; simpl.
  - split; [constructor | reflexivity].
  - rewrite orb_false_iff, Forall_cons, IH. reflexivity.
Qed.

(** C7, with the guard on the root path and the netloc as it is
    written. The call [is_docs_url(url)] returns [True] exactly when the
    netloc of the URL, as [urlparse] gives it, is the netloc
    [docs.acquia.com] of the base URL (the comparison is between the two
    texts, so a port, user information or a capital letter makes them
    differ), its lower-cased path contains no excluded pattern, ends in no
    excluded extension, contains no internal asset marker, and moreover
    starts with a slash and is longer than one character: a deny-list on
    every path under that netloc except the empty path and the root path.
    On every other URL the call returns [False] or, from [urlparse],
    raises [ValueError]; [is_docs_url] is [true] exactly where the call
    returns [True]. *)
Theorem is_docs_url_deny_list (ip_literal : string -> bool) (url : string) :
  let parsed := Url.urlparse url in
  let path_lower := Str.lower (path parsed) in
  (is_docs_url_call ip_literal url = Some true <->
   netloc parsed = netloc (Url.urlparse DRUPAL_BASE_URL)
   /\ Forall (fun pattern => Str.contains pattern path_lower = false)
             excluded_patterns
   /\ Forall (fun ext => Str.endswith path_lower ext = false) excluded_extensions
   /\ Forall (fun pattern => Str.contains pattern path_lower = false)
             problem_patterns
   /\ Str.startswith path_lower "/" = true
   /\ 1 < String.length path_lower)
  /\ netloc (Url.urlparse DRUPAL_BASE_URL) = "docs.acquia.com"
  /\ (is_docs_url url = true <-> is_docs_url_call ip_literal url = Some true).
Proof.
  intros parsed path_lower.
  assert (Hcall : is_docs_url url = true <->
                  is_docs_url_call ip_literal url = Some true).
  { unfold is_docs_url_call.
    change (Url.urlsplit_raises ip_literal DRUPAL_BASE_URL) with false.
    split.
    - intros Hd. rewrite Hd.
      assert (Hn : netloc (Url.urlparse url) = "docs.acquia.com").
      { unfold is_docs_url, is_docs_parsed in Hd.
        destruct (String.eqb_spec (netloc (Url.urlparse url))
                    (netloc (Url.urlparse DRUPAL_BASE_URL))) as [Hn|Hn];
          [exact Hn | discriminate]. }
      unfold Url.urlsplit_raises. rewrite Hn. reflexivity.
    - destruct (Url.urlsplit_raises ip_literal url); [discriminate|].
      now intros [= ->]. }
  split; [|split; [reflexivity | exact Hcall]].
  rewrite <- Hcall. unfold is_docs_url, is_docs_parsed.
  fold parsed. fold path_lower.
  rewrite <- !existsb_false_Forall.
  set (b1 := existsb (fun pattern => Str.contains pattern path_lower)
                     excluded_patterns).
  set (b2 := existsb (fun ext => Str.endswith path_lower ext) excluded_extensions).
  set (b3 := existsb (fun pattern => Str.contains pattern path_lower)
                     problem_patterns).
  set (b4 := Str.startswith path_lower "/").
  destruct (String.eqb_spec (netloc parsed) (netloc (Url.urlparse DRUPAL_BASE_URL)))
    as [Hn|Hn]; cbn [negb]; [|intuition congruence].
  destruct (Nat.ltb_spec 1 (String.length path_lower));
    destruct b1, b2, b3, b4; cbn [negb andb];
    intuition (congruence || lia).
Qed.

(** The documentation start page itself: right host, nothing denied, and
    yet out of scope. *)
Lemma is_docs_url_root_rejected :
  let parsed := Url.urlparse DRUPAL_BASE_URL in
  netloc parsed = netloc (Url.urlparse DRUPAL_BASE_URL)
  /\ Forall (fun pattern => Str.contains pattern (path parsed) = false)
            (excluded_patterns ++ problem_patterns)
  /\ Forall (fun ext => Str.endswith (path parsed) ext = false) excluded_extensions
  /\ is_docs_url DRUPAL_BASE_URL = false.
Proof.
  repeat split; try (apply existsb_false_Forall); vm_compute; reflexivity.
Qed.

(** An entry point, the same path in upper case under [/ADMIN/], and a
    style sheet. *)
Example is_docs_url_samples :
  map is_docs_url
      [ "https://docs.acquia.com/acquia-dam/overview";
        "https://docs.acquia.com/ADMIN/acquia-dam/overview";
        "https://docs.acquia.com/acquia-dam/site.css";
        "https://www.acquia.com/acquia-dam/overview" ]
  = [true; false; false; false].
Proof. vm_compute. reflexivity. Qed.

(** The documentation host with a port, in capitals and with user
    information: the host is the same, the netloc is not, and the URL is
    out of scope. A host with one square bracket makes [urlparse] raise,
    whatever [ipaddress] accepts; leading blanks and line breaks are
    dropped before the URL is parsed. *)
Example is_docs_url_netloc_samples :
  map (fun url => (netloc (Url.urlparse url), is_docs_url url))
      [ "https://docs.acquia.com:443/acquia-dam/overview";
        "https://DOCS.ACQUIA.COM/acquia-dam/overview";
        "https://user@docs.acquia.com/acquia-dam/overview" ]
  = [ ("docs.acquia.com:443", false); ("DOCS.ACQUIA.COM", false);
      ("user@docs.acquia.com", false) ]
  /\ (forall ip_literal,
        is_docs_url_call ip_literal "https://[docs.acquia.com/acquia-dam" = None)
  /\ is_docs_url (String " " (String (ascii_of_nat 10)
                     "https://docs.acquia.com/acquia-dam/overview")) = true.
Proof. split; [|split]; [vm_compute; reflexivity | intros ip_literal | vm_compute]; reflexivity. Qed.

(** ** Relevance engine *)

Lemma prefix_app (sub s t : string) :
  String.prefix sub s = true -> String.prefix sub (s +:+ t) = true.
Proof.
  revert s. induction sub as [|c sub' IH]; intros s.
  - intros _. now destruct (s +:+ t).
  - destruct s as [|c' s]; [discriminate|]. simpl.
    destruct (ascii_dec c c'); [apply IH | discriminate].
Qed.

Section CountFacts.
Variable sub : string.

(** Passing over more characters before the scan starts finds no more
    occurrences, and passing over at most one needle length loses at most
    one. *)
Lemma count_from_skip (s : string) :
  (forall j, Str.count_from sub j s <= Str.count_from sub 0 s)
  /\ (forall j j', j <= j' -> Str.count_from sub j' s <= Str.count_from sub j s)
  /\ (forall j, j <= String.length sub ->
        Str.count_from sub 0 s <= S (Str.count_from sub j s)).
Proof.
  induction s as [|c s (IHA & IHC & IHB)].
  - repeat split; intros; simpl; lia.
  - assert (HA : forall j, Str.count_from sub j (String c s)
                           <= Str.count_from sub 0 (String c s)).
    { intros [|i]; [lia|]. cbn [Str.count_from].
      destruct (String.prefix sub (String c s)).
      - specialize (IHA i). specialize (IHB (String.length sub - 1)). lia.
      - apply IHA. }
    split; [exact HA|]. split.
    + intros [|i] [|i'] Hle; try lia; [apply HA|].
      cbn [Str.count_from]. apply IHC. lia.
    + intros [|i] Hle; [lia|]. cbn [Str.count_from].
      destruct (String.prefix sub (String c s)).
      * specialize (IHC i (String.length sub - 1)). lia.
      * apply IHB. lia.
Qed.

Lemma count_from_cons (c : ascii) (s : string) :
  Str.count_from sub 0 s <= Str.count_from sub 0 (String c s).
Proof. exact (proj1 (count_from_skip (String c s)) 1). Qed.

Lemma count_from_app_r (s t : string) (k : nat) :
  Str.count_from sub k s <= Str.count_from sub k (s +:+ t).
Proof.
  revert k. induction s as [|c s IH]; intros k; [simpl; lia|].
  change (String c s +:+ t) with (String c (s +:+ t)).
  destruct k as [|k]; cbn [Str.count_from]; [|apply IH].
  destruct (String.prefix sub (String c s)) eqn:Hp.
  - change (String c (s +:+ t)) with (String c s +:+ t).
    rewrite (prefix_app _ _ t Hp). specialize (IH (String.length sub - 1)). lia.
  - destruct (String.prefix sub (String c (s +:+ t))); [|apply IH].
    pose proof (IH 0).
    pose proof (proj2 (proj2 (count_from_skip (s +:+ t))) (String.length sub - 1)).
    lia.
Qed.

Lemma count_from_app_l (s t : string) :
  Str.count_from sub 0 t <= Str.count_from sub 0 (s +:+ t).
Proof.
  induction s as [|c s IH]; [apply Nat.le_refl|].
  change (String c s +:+ t) with (String c (s +:+ t)).
  pose proof (count_from_cons c (s +:+ t)). lia.
Qed.

End CountFacts.

Lemma string_length_app (s t : string) :
  String.length (s +:+ t) = String.length s + String.length t.
Proof. induction s; simpl; [reflexivity | now rewrite IHs]. Qed.

(** Text added before and after a content destroys no occurrence. *)
Lemma count_extend (before s after sub : string) :
  Str.count s sub <= Str.count (before +:+ s +:+ after) sub.
Proof.
  unfold Str.count. destruct sub as [|c sub'].
  - rewrite !string_length_app. lia.
  - pose proof (count_from_app_r (String c sub') s after 0).
    pose proof (count_from_app_l (String c sub') before (s +:+ after)). lia.
Qed.

Lemma lower_app (s t : string) :
  Str.lower (s +:+ t) = Str.lower s +:+ Str.lower t.
Proof. induction s; simpl; [reflexivity | now rewrite IHs]. Qed.

Lemma sum_over_mono {A} (f g : A -> Z) (l : list A) :
  (forall x, (f x <= g x)%Z) -> (sum_over f l <= sum_over g l)%Z.
Proof.
  intros Hfg. induction l as [|x l IH]; simpl; [lia|]. specialize (Hfg x). lia.
Qed.

Lemma sum_over_nonneg {A} (f : A -> Z) (l : list A) :
  (forall x, (0 <= f x)%Z) -> (0 <= sum_over f l)%Z.
Proof.
  intros Hf. induction l as [|x l IH]; simpl; [lia|]. specialize (Hf x). lia.
Qed.

(** The score grows with the occurrence counts of the content when URL
    and title stay the same. *)
Lemma calculate_relevance_mono (query : string) (p p' : Page) :
  page_url p' = page_url p -> page_title p' = page_title p ->
  (forall s, Str.count (Str.lower (page_content p)) s
             <= Str.count (Str.lower (page_content p')) s) ->
  (calculate_relevance query p <= calculate_relevance query p')%Z.
Proof.
  intros Hu Ht Hc. unfold calculate_relevance. rewrite Hu, Ht.
  set (words := Str.split (Str.lower query)).
  assert (Hw : (sum_over (fun word => Z.of_nat (Str.count (Str.lower (page_content p)) word)) words
                <= sum_over (fun word => Z.of_nat (Str.count (Str.lower (page_content p')) word)) words)%Z).
  { apply sum_over_mono. intros x. specialize (Hc x). lia. }
  assert (Hk : (sum_over (fun keyword => Z.of_nat (Str.count (Str.lower (page_content p)) keyword) * 50) memcache_keywords
                <= sum_over (fun keyword => Z.of_nat (Str.count (Str.lower (page_content p')) keyword) * 50) memcache_keywords)%Z).
  { apply sum_over_mono. intros x. specialize (Hc x). lia. }
  pose proof (Hc (Str.lower query)) as Hq.
  destruct (is_memcached_related_query query);
    [destruct (String.eqb (page_url p) MEMCACHED_DOC_URL
               || Str.contains "memcached" (Str.lower (page_title p)))|]; lia.
Qed.

Lemma sum_over_mono_in {A} (f g : A -> Z) (l : list A) :
  (forall x, x ∈ l -> (f x <= g x)%Z) -> (sum_over f l <= sum_over g l)%Z.
Proof.
  induction l as [|x l IH]; simpl; intros Hfg; [lia|].
  pose proof (Hfg x (list_elem_of_here x l)).
  assert (sum_over f l <= sum_over g l)%Z
    by (apply IH; intros y Hy; apply Hfg; now apply list_elem_of_further).
  lia.
Qed.

(** The score depends on the content through the counts of the query
    words, of the whole query and, for a Memcached query, of the boost
    keywords; it grows when none of these counts falls. *)
Lemma calculate_relevance_mono_counted (query : string) (p p' : Page) :
  page_url p' = page_url p -> page_title p' = page_title p ->
  (forall word, word ∈ Str.split (Str.lower query) ->
     Str.count (Str.lower (page_content p)) word
     <= Str.count (Str.lower (page_content p')) word) ->
  Str.count (Str.lower (page_content p)) (Str.lower query)
  <= Str.count (Str.lower (page_content p')) (Str.lower query) ->
  (is_memcached_related_query query = true ->
   forall keyword, keyword ∈ memcache_keywords ->
     Str.count (Str.lower (page_content p)) keyword
     <= Str.count (Str.lower (page_content p')) keyword) ->
  (calculate_relevance query p <= calculate_relevance query p')%Z.
Proof.
  intros Hu Ht Hw Hq Hk. unfold calculate_relevance. rewrite Hu, Ht.
  set (words := Str.split (Str.lower query)) in *.
  assert (Hws : (sum_over (fun word => Z.of_nat (Str.count (Str.lower (page_content p)) word)) words
                 <= sum_over (fun word => Z.of_nat (Str.count (Str.lower (page_content p')) word)) words)%Z).
  { apply sum_over_mono_in. intros x Hx. specialize (Hw x Hx). lia. }
  destruct (is_memcached_related_query query); [|lia].
  assert (Hks : (sum_over (fun keyword => Z.of_nat (Str.count (Str.lower (page_content p)) keyword) * 50) memcache_keywords
                 <= sum_over (fun keyword => Z.of_nat (Str.count (Str.lower (page_content p')) keyword) * 50) memcache_keywords)%Z).
  { apply sum_over_mono_in. intros x Hx. specialize (Hk eq_refl x Hx). lia. }
  destruct (String.eqb (page_url p) MEMCACHED_DOC_URL
            || Str.contains "memcached" (Str.lower (page_title p))); lia.
Qed.

(** C6, with the phrase count. The score is never negative. With query,
    URL and title fixed it does not decrease when text is added before or
    after the content, nor, more generally, when no query word, nor the
    whole lower-cased query, nor, for a Memcached query, any boost
    keyword occurs less often in the new content than in the old one. The
    occurrences of the query words alone do not decide the score: the
    whole query is counted as a phrase too. *)
Theorem calculate_relevance_nonneg_monotone (query : string) (p : Page) :
  (0 <= calculate_relevance query p)%Z
  /\ (forall before after,
        (calculate_relevance query p
         <= calculate_relevance query
              (with_content p (before +:+ page_content p +:+ after)))%Z)
  /\ (forall p',
        page_url p' = page_url p -> page_title p' = page_title p ->
        (forall word, word ∈ Str.split (Str.lower query) ->
           Str.count (Str.lower (page_content p)) word
           <= Str.count (Str.lower (page_content p')) word) ->
        Str.count (Str.lower (page_content p)) (Str.lower query)
        <= Str.count (Str.lower (page_content p')) (Str.lower query) ->
        (is_memcached_related_query query = true ->
         forall keyword, keyword ∈ memcache_keywords ->
           Str.count (Str.lower (page_content p)) keyword
           <= Str.count (Str.lower (page_content p')) keyword) ->
        (calculate_relevance query p <= calculate_relevance query p')%Z).
Proof.
  split; [|split].
  - unfold calculate_relevance.
    set (words := Str.split (Str.lower query)).
    assert (0 <= sum_over (fun word => if Str.contains word (Str.lower (page_title p)) then 1 else 0) words)%Z
      by (apply sum_over_nonneg; intros x; destruct (Str.contains _ _); lia).
    assert (0 <= sum_over (fun word => Z.of_nat (Str.count (Str.lower (page_content p)) word)) words)%Z
      by (apply sum_over_nonneg; intros; lia).
    assert (0 <= sum_over (fun keyword => Z.of_nat (Str.count (Str.lower (page_content p)) keyword) * 50) memcache_keywords)%Z
      by (apply sum_over_nonneg; intros; lia).
    destruct (Str.contains (Str.lower query) _);
      destruct (is_memcached_related_query query);
      try destruct (String.eqb (page_url p) MEMCACHED_DOC_URL
                    || Str.contains "memcached" (Str.lower (page_title p)));
      lia.
  - intros before after. apply calculate_relevance_mono; try reflexivity.
    intros s. simpl. rewrite !lower_app. apply count_extend.
  - intros p'. apply calculate_relevance_mono_counted.
Qed.

(** The query [a b] on the contents [a b] and [a ab]: the second content
    has one more occurrence of the word [a] and as many of the word [b],
    three word occurrences instead of two, but the phrase [a b] is gone,
    and the score falls from 4 to 3. *)
Lemma query_words_gained_score_lost :
  let p := mkPage "https://docs.acquia.com/x" "t" "a b" [] true in
  let p' := with_content p "a ab" in
  map (fun word => (Str.count (Str.lower (page_content p)) word,
                    Str.count (Str.lower (page_content p')) word))
      (Str.split (Str.lower "a b"))
  = [(1, 2); (1, 1)]
  /\ calculate_relevance "a b" p = 4%Z
  /\ calculate_relevance "a b" p' = 3%Z.
Proof. vm_compute. repeat split. Qed.

(** ** Crawler *)

Lemma in_list_spec (x : string) (l : list string) :
  in_list x l = true <-> x ∈ l.
Proof.
  unfold in_list. induction l as [|y l IH]; simpl.
  - split; [discriminate | intros H; inversion H].
  - rewrite orb_true_iff, IH, elem_of_cons, String.eqb_eq. reflexivity.
Qed.

Lemma first_area_in (path_lower : string) (areas : list string) :
  first_area path_lower areas ∈ areas ++ ["general"].
Proof.
  induction areas as [|a areas IH]; simpl.
  - apply list_elem_of_singleton. reflexivity.
  - destruct (Str.contains _ _); [left | right; exact IH].
Qed.

Lemma get_product_area_in (url : string) : get_product_area url ∈ all_areas.
Proof. apply first_area_in. Qed.

Lemma all_areas_NoDup : NoDup all_areas.
Proof. apply (bool_decide_unpack _). vm_compute. reflexivity. Qed.

Section PartitionFacts.
Variables (seen : gset string) (frontier : list FrontierItem) (area : string).

Lemma partition_links_elem (links : list string) (u : string) :
  u ∈ ((partition_links seen frontier area links).1
       ++ (partition_links seen frontier area links).2) ->
  u ∈ links /\ (u ∉ seen) /\ (u ∉ map item_url frontier).
Proof.
  induction links as [|link links IH]; simpl; [intros H; inversion H|].
  destruct (partition_links seen frontier area links) as [same other].
  simpl in IH.
  destruct (bool_decide (link ∉ seen)) eqn:Hs; simpl;
    [destruct (in_list link (map item_url frontier)) eqn:Hf; simpl|].
  - intros H. destruct (IH H) as (? & ? & ?). auto using list_elem_of_further.
  - apply bool_decide_eq_true in Hs.
    assert (Hnf : link ∉ map item_url frontier).
    { intros Hin. apply in_list_spec in Hin. congruence. }
    destruct (String.eqb (get_product_area link) area); simpl; intros H.
    + apply elem_of_cons in H as [->|H]; [repeat split; auto; left|].
      destruct (IH H) as (? & ? & ?). auto using list_elem_of_further.
    + apply elem_of_app in H as [H|H].
      * destruct (IH (proj2 (elem_of_app _ _ _) (or_introl H))) as (? & ? & ?).
        auto using list_elem_of_further.
      * apply elem_of_cons in H as [->|H]; [repeat split; auto; left|].
        destruct (IH (proj2 (elem_of_app _ _ _) (or_intror H))) as (? & ? & ?).
        auto using list_elem_of_further.
  - intros H. destruct (IH H) as (? & ? & ?). auto using list_elem_of_further.
Qed.

Lemma partition_links_area (links : list string) :
  Forall (fun u => get_product_area u = area)
         (partition_links seen frontier area links).1
  /\ Forall (fun u => get_product_area u <> area)
            (partition_links seen frontier area links).2.
Proof.
  induction links as [|link links [IH1 IH2]]; simpl; [split; constructor|].
  destruct (partition_links seen frontier area links) as [same other].
  simpl in IH1, IH2.
  destruct (bool_decide (link ∉ seen) && negb (in_list link (map item_url frontier)));
    [|split; assumption].
  destruct (String.eqb_spec (get_product_area link) area); simpl; split;
    try assumption; constructor; assumption.
Qed.

Lemma partition_links_NoDup (links : list string) :
  NoDup links ->
  NoDup ((partition_links seen frontier area links).1
         ++ (partition_links seen frontier area links).2).
Proof.
  induction links as [|link links IH]; simpl; [constructor|].
  intros Hnd. apply NoDup_cons in Hnd as [Hnew Hnd]. specialize (IH Hnd).
  pose proof (partition_links_elem links link) as Hel.
  destruct (partition_links seen frontier area links) as [same other].
  simpl in IH, Hel.
  assert (Hfresh : link ∉ same ++ other) by (intros H; apply Hel in H; tauto).
  destruct (bool_decide (link ∉ seen) && negb (in_list link (map item_url frontier)));
    [|exact IH].
  destruct (String.eqb (get_product_area link) area); simpl.
  - apply NoDup_cons. split; assumption.
  - apply NoDup_app in IH as (H1 & H2 & H3).
    apply NoDup_app. repeat split; [assumption| |].
    + intros x Hx Hin. apply elem_of_cons in Hin as [->|Hin].
      * apply Hfresh, elem_of_app. now left.
      * exact (H2 x Hx Hin).
    + apply NoDup_cons. split; [|assumption].
      intros H. apply Hfresh, elem_of_app. now right.
Qed.

End PartitionFacts.

Section CrawlSteps.
Context `{E : Externals}.

Lemma attempted_app (l1 l2 : list LogRecord) :
  attempted (l1 ++ l2) = attempted l1 ++ attempted l2.
Proof.
  induction l1 as [|[a u d n|u c] l1 IH]; simpl; [reflexivity| |exact IH].
  now rewrite IH.
Qed.

(** A pass that does not visit: the head is visited already, too deep, or
    its product area has used its budget. Only the frontier changes. *)
Lemma crawl_iteration_skip max_depth st url depth hint rest :
  to_visit st = (url, depth, hint) :: rest ->
  url ∈ visited st \/ (max_depth < depth)%Z
  \/ (MAX_PAGES_PER_PRODUCT <= count_of st (get_product_area url))%Z ->
  let st' := crawl_iteration max_depth st in
  visited st' = visited st /\ to_visit st' = rest
  /\ all_pages st' = all_pages st /\ crawl_log st' = crawl_log st
  /\ crawl_globals st' = crawl_globals st /\ crawl_world st' = crawl_world st
  /\ (forall a, count_of st' a = count_of st a).
Proof.
  intros Hq Hskip. unfold crawl_iteration, count_of in *. rewrite Hq.
  destruct (bool_decide (url ∈ visited st) || (max_depth <? depth)%Z) eqn:Hg;
    [simpl; repeat split; reflexivity|].
  apply orb_false_iff in Hg as [Hv Hd].
  apply bool_decide_eq_false in Hv. apply Z.ltb_ge in Hd.
  destruct Hskip as [?|[?|Hfull]]; [tauto | lia |].
  set (area := get_product_area url) in *.
  destruct (product_page_counts st !! area) as [c|] eqn:Hc; simpl in Hfull |- *.
  - rewrite Hc. simpl.
    destruct (Z.leb_spec MAX_PAGES_PER_PRODUCT c); [|lia].
    simpl. repeat split; reflexivity.
  - unfold MAX_PAGES_PER_PRODUCT in Hfull. lia.
Qed.

(** A pass that visits: the URL is marked, its budget is charged and the
    [Crawling] record is written whatever the fetch returns. *)
Lemma crawl_iteration_visit max_depth st url depth hint rest :
  to_visit st = (url, depth, hint) :: rest ->
  url ∉ visited st -> (depth <= max_depth)%Z ->
  (count_of st (get_product_area url) < MAX_PAGES_PER_PRODUCT)%Z ->
  let area := get_product_area url in
  let n := count_of st area in
  let fetched := fetch_page url (crawl_globals st) (crawl_world st) in
  let page_data := fetched.1.1 in
  let st' := crawl_iteration max_depth st in
  visited st' = {[url]} ∪ visited st
  /\ to_visit st' = rest ++ enqueued max_depth st url depth rest page_data
  /\ all_pages st'
     = (if page_success page_data
        then Dict.set url page_data (all_pages st) else all_pages st)
  /\ (forall a, count_of st' a = if decide (a = area) then (n + 1)%Z
                                 else count_of st a)
  /\ crawl_log st'
     = crawl_log st ++ LogCrawling area url depth (n + 1)%Z
         :: (if page_success page_data && negb (depth <? max_depth)%Z
             then [LogFailedToFetch url (page_content page_data)] else [])
  /\ crawl_globals st' = fetched.1.2 /\ crawl_world st' = fetched.2.
Proof.
  intros Hq Hv Hd Hn area n fetched page_data st'.
  subst st'. unfold crawl_iteration. rewrite Hq.
  destruct (bool_decide (url ∈ visited st) || (max_depth <? depth)%Z) eqn:Hg.
  { apply orb_true_iff in Hg as [Hg|Hg];
      [apply bool_decide_eq_true in Hg; tauto | apply Z.ltb_lt in Hg; lia]. }
  fold area.
  set (counts0 := match product_page_counts st !! area with
                  | Some _ => product_page_counts st
                  | None => <[area:=0%Z]> (product_page_counts st)
                  end).
  assert (Hn0 : default 0%Z (counts0 !! area) = n).
  { subst counts0 n. unfold count_of.
    destruct (product_page_counts st !! area) as [c|] eqn:Hc.
    - now rewrite Hc.
    - now rewrite lookup_insert_eq. }
  assert (Hother : forall a, a <> area -> counts0 !! a = product_page_counts st !! a).
  { intros a Ha. subst counts0.
    destruct (product_page_counts st !! area); [reflexivity|].
    now rewrite lookup_insert_ne. }
  rewrite Hn0.
  destruct (Z.leb_spec MAX_PAGES_PER_PRODUCT n); [subst n area; lia|].
  assert (Hcounts : forall counts',
            counts' = <[area:=(n + 1)%Z]> counts0 ->
            forall a, default 0%Z (counts' !! a)
                      = if decide (a = area) then (n + 1)%Z else count_of st a).
  { intros counts' -> a. destruct (decide (a = area)) as [->|Ha].
    - now rewrite lookup_insert_eq.
    - rewrite lookup_insert_ne by congruence. unfold count_of.
      now rewrite Hother. }
  unfold enqueued. fold area.
  subst page_data. fold fetched.
  destruct fetched as [[page g1] w1]. simpl.
  destruct (page_success page); simpl.
  - destruct (depth <? max_depth)%Z; simpl.
    + destruct (partition_links ({[url]} ∪ visited st) rest area (page_links page))
        as [same other].
      simpl. unfold count_of. simpl.
      repeat split; try reflexivity. now apply Hcounts.
    + unfold count_of. simpl. rewrite app_nil_r, <- app_assoc.
      repeat split; try reflexivity. now apply Hcounts.
  - unfold count_of. simpl. rewrite app_nil_r.
    repeat split; try reflexivity. now apply Hcounts.
Qed.

(** What a visit appends to the frontier. *)
Lemma enqueued_spec max_depth st url depth rest page :
  let new := enqueued max_depth st url depth rest page in
  length new <= 33
  /\ (page_success page = false -> new = [])
  /\ (forall u, u ∈ map item_url new ->
        u ∈ page_links page /\ u <> url /\ (u ∉ visited st)
        /\ (u ∉ map item_url rest))
  /\ (NoDup (page_links page) -> NoDup (map item_url new)).
Proof.
  assert (Hnil : length (@nil FrontierItem) <= 33
                 /\ (page_success page = false -> @nil FrontierItem = [])
                 /\ (forall u, u ∈ map item_url [] ->
                       u ∈ page_links page /\ u <> url /\ (u ∉ visited st)
                       /\ (u ∉ map item_url rest))
                 /\ (NoDup (page_links page) -> NoDup (map item_url []))).
  { split; [simpl; lia|]. split; [reflexivity|].
    split; [intros u H; inversion H | intros _; apply NoDup_nil_2]. }
  unfold enqueued.
  destruct (page_success page); [|exact Hnil].
  destruct (depth <? max_depth)%Z; [|exact Hnil]. clear Hnil. cbn [andb].
  pose proof (partition_links_elem ({[url]} ∪ visited st) rest
                (get_product_area url) (page_links page)) as Hel.
  pose proof (partition_links_NoDup ({[url]} ∪ visited st) rest
                (get_product_area url) (page_links page)) as Hnd.
  destruct (partition_links _ _ _ _) as [same other]. simpl in *.
  assert (Hurls : map item_url
            (map (fun link => (link, (depth + 1)%Z, get_product_area url)) (take 25 same)
             ++ map (fun link => (link, (depth + 1)%Z, get_product_area link)) (take 8 other))
          = take 25 same ++ take 8 other).
  { rewrite map_app, !map_map. unfold item_url. simpl. now rewrite !map_id. }
  rewrite Hurls.
  assert (Hsub : forall u, u ∈ take 25 same ++ take 8 other -> u ∈ same ++ other).
  { intros u H. apply elem_of_app. apply elem_of_app in H as [H|H];
      [left|right]; eapply subseteq_take; exact H. }
  split; [rewrite length_app, !length_map, !length_take; lia|].
  split; [discriminate|]. split.
  - intros u Hu. destruct (Hel u (Hsub u Hu)) as (Hin & Hseen & Hf).
    split; [exact Hin|]. split; [|split; [|exact Hf]].
    + intros ->. apply Hseen, elem_of_union. left. now apply elem_of_singleton.
    + intros Hv. apply Hseen, elem_of_union. now right.
  - intros Hl. specialize (Hnd Hl).
    apply NoDup_app in Hnd as (H1 & H2 & H3). apply NoDup_app.
    split; [eapply sublist_NoDup; [exact H1 | apply sublist_take]|].
    split; [|eapply sublist_NoDup; [exact H3 | apply sublist_take]].
    intros x Hx Hy. apply (H2 x); eapply subseteq_take; eassumption.
Qed.

End CrawlSteps.

Section CrawlInvariants.
Context `{E : Externals}.

Lemma crawl_iteration_nil max_depth st :
  to_visit st = [] -> crawl_iteration max_depth st = st.
Proof. intros H. unfold crawl_iteration. now rewrite H. Qed.

Lemma crawl_after_ind (P : CrawlState -> Prop) max_depth st0 :
  P st0 -> (forall st, P st -> P (crawl_iteration max_depth st)) ->
  forall n, P (crawl_after n max_depth st0).
Proof. intros H0 Hstep n. induction n; simpl; auto. Qed.

Lemma crawl_after_shift n max_depth st :
  crawl_after n max_depth (crawl_iteration max_depth st)
  = crawl_iteration max_depth (crawl_after n max_depth st).
Proof. induction n as [|n IH]; simpl; [reflexivity | now rewrite IH]. Qed.

(** Either kind of pass, by the three guards of the loop body. *)
Lemma crawl_guards max_depth st url depth :
  (url ∈ visited st \/ (max_depth < depth)%Z
   \/ (MAX_PAGES_PER_PRODUCT <= count_of st (get_product_area url))%Z)
  \/ ((url ∉ visited st) /\ (depth <= max_depth)%Z
      /\ (count_of st (get_product_area url) < MAX_PAGES_PER_PRODUCT)%Z).
Proof.
  destruct (decide (url ∈ visited st)); [tauto|].
  destruct (Z.lt_ge_cases max_depth depth); [tauto|].
  destruct (Z.le_gt_cases MAX_PAGES_PER_PRODUCT (count_of st (get_product_area url)));
    [tauto|].
  right. repeat split; assumption || lia.
Qed.

(** *** Budgets *)

Lemma budget_inv_step max_depth st :
  budget_inv st -> budget_inv (crawl_iteration max_depth st).
Proof.
  intros Hinv. destruct (to_visit st) as [|[[url depth] hint] rest] eqn:Hq;
    [now rewrite crawl_iteration_nil|].
  destruct (crawl_guards max_depth st url depth) as [Hskip|(Hv & Hd & Hn)].
  - destruct (crawl_iteration_skip max_depth st url depth hint rest Hq Hskip)
      as (_ & _ & _ & Hlog & _ & _ & Hc).
    intros a. rewrite Hc, Hlog. apply Hinv.
  - destruct (crawl_iteration_visit max_depth st url depth hint rest Hq Hv Hd Hn)
      as (_ & _ & _ & Hc & Hlog & _).
    intros a. rewrite Hc, Hlog, attempted_app. simpl attempted.
    assert (Htail : attempted
              (if page_success (fetch_page url (crawl_globals st) (crawl_world st)).1.1
                  && negb (depth <? max_depth)%Z
               then [LogFailedToFetch url
                       (page_content (fetch_page url (crawl_globals st) (crawl_world st)).1.1)]
               else []) = []) by (destruct (_ && _); reflexivity).
    rewrite Htail, filter_app, length_app.
    destruct (Hinv a) as [Hcount Hle].
    destruct (decide (a = get_product_area url)) as [->|Hne].
    + rewrite filter_cons_True by reflexivity. simpl length. split; lia.
    + rewrite filter_cons_False by congruence. simpl length.
      split; [lia | exact Hle].
Qed.

Lemma budget_inv_init start_urls g w : budget_inv (crawl_init start_urls g w).
Proof.
  intros a. unfold count_of. simpl. rewrite lookup_empty. simpl.
  unfold MAX_PAGES_PER_PRODUCT. split; [reflexivity | lia].
Qed.

(** *** Attempts *)

Lemma attempt_inv_step max_depth st :
  attempt_inv st -> attempt_inv (crawl_iteration max_depth st).
Proof.
  intros [Hnd Hiff]. destruct (to_visit st) as [|[[url depth] hint] rest] eqn:Hq;
    [now rewrite crawl_iteration_nil|].
  destruct (crawl_guards max_depth st url depth) as [Hskip|(Hv & Hd & Hn)].
  - destruct (crawl_iteration_skip max_depth st url depth hint rest Hq Hskip)
      as (Hvis & _ & _ & Hlog & _).
    unfold attempt_inv. rewrite Hvis, Hlog. split; assumption.
  - destruct (crawl_iteration_visit max_depth st url depth hint rest Hq Hv Hd Hn)
      as (Hvis & _ & _ & _ & Hlog & _).
    unfold attempt_inv. rewrite Hvis, Hlog, attempted_app. simpl attempted.
    assert (Htail : attempted
              (if page_success (fetch_page url (crawl_globals st) (crawl_world st)).1.1
                  && negb (depth <? max_depth)%Z
               then [LogFailedToFetch url
                       (page_content (fetch_page url (crawl_globals st) (crawl_world st)).1.1)]
               else []) = []) by (destruct (_ && _); reflexivity).
    rewrite Htail. split.
    + apply NoDup_app. split; [exact Hnd|]. split; [|apply NoDup_singleton].
      intros x Hx Hin. apply list_elem_of_singleton in Hin as ->.
      apply Hv, Hiff, Hx.
    + intros u. rewrite elem_of_app, list_elem_of_singleton, elem_of_union,
        elem_of_singleton, Hiff. tauto.
Qed.

Lemma attempt_inv_init start_urls g w : attempt_inv (crawl_init start_urls g w).
Proof.
  split; simpl; [constructor|]. intros u. split; intros H; inversion H.
Qed.

(** *** Termination *)

Lemma budget_sum_ext (c c' : string -> Z) (l : list string) :
  (forall a, c' a = c a) -> budget_sum c' l = budget_sum c l.
Proof. intros H. induction l as [|a l IH]; simpl; [reflexivity|]. now rewrite H, IH. Qed.

Lemma budget_sum_charge (c c' : string -> Z) (area : string) (l : list string) :
  NoDup l -> area ∈ l -> (c area < MAX_PAGES_PER_PRODUCT)%Z ->
  (forall a, c' a = if decide (a = area) then (c area + 1)%Z else c a) ->
  S (budget_sum c' l) = budget_sum c l.
Proof.
  intros Hnd Hin Hlt Hc'. induction l as [|a l IH]; [inversion Hin|].
  apply NoDup_cons in Hnd as [Ha Hnd]. simpl. rewrite (Hc' a).
  destruct (decide (a = area)) as [->|Hne].
  - assert (Hrest : budget_sum c' l = budget_sum c l).
    { clear IH Hin. induction l as [|b l IHl]; simpl; [reflexivity|].
      apply not_elem_of_cons in Ha as [Hb Ha].
      apply NoDup_cons in Hnd as [_ Hnd].
      rewrite (Hc' b). destruct (decide (b = area)); [congruence|].
      now rewrite IHl. }
    rewrite Hrest. lia.
  - apply elem_of_cons in Hin as [?|Hin]; [congruence|].
    specialize (IH Hnd Hin). lia.
Qed.

(** Every pass through the loop body with a non-empty frontier lowers the
    measure. *)
Lemma crawl_measure_decreases max_depth st :
  to_visit st <> [] ->
  crawl_measure (crawl_iteration max_depth st) < crawl_measure st.
Proof.
  intros Hne. destruct (to_visit st) as [|[[url depth] hint] rest] eqn:Hq;
    [congruence|]. clear Hne.
  unfold crawl_measure, remaining_budget. rewrite Hq.
  destruct (crawl_guards max_depth st url depth) as [Hskip|(Hv & Hd & Hn)].
  - destruct (crawl_iteration_skip max_depth st url depth hint rest Hq Hskip)
      as (_ & Hto & _ & _ & _ & _ & Hc).
    rewrite Hto, (budget_sum_ext _ _ _ Hc). simpl. lia.
  - destruct (crawl_iteration_visit max_depth st url depth hint rest Hq Hv Hd Hn)
      as (_ & Hto & _ & Hc & _).
    rewrite Hto, length_app.
    pose proof (proj1 (enqueued_spec max_depth st url depth rest
      (fetch_page url (crawl_globals st) (crawl_world st)).1.1)) as Hlen.
    pose proof (budget_sum_charge (count_of st) _ (get_product_area url) all_areas
                  all_areas_NoDup (get_product_area_in url) Hn Hc) as Hsum.
    simpl length. rewrite <- Hsum. unfold FrontierItem in *. lia.
Qed.

Lemma crawl_loop_terminates max_depth fuel st :
  crawl_measure st <= fuel ->
  exists k, k <= fuel
            /\ crawl_loop fuel max_depth st = Some (crawl_after k max_depth st)
            /\ to_visit (crawl_after k max_depth st) = [].
Proof.
  revert st. induction fuel as [|fuel IH]; intros st Hm.
  - exists 0. simpl. destruct (to_visit st) eqn:Hq.
    + repeat split; reflexivity || lia.
    + unfold crawl_measure in Hm. rewrite Hq in Hm. simpl in Hm. lia.
  - simpl. destruct (to_visit st) as [|item rest] eqn:Hq.
    + exists 0. simpl. repeat split; try lia; assumption.
    + pose proof (crawl_measure_decreases max_depth st) as Hdec.
      rewrite Hq in Hdec. specialize (Hdec ltac:(discriminate)).
      destruct (IH (crawl_iteration max_depth st)) as (k & Hk & Hrun & Hend); [lia|].
      exists (S k). rewrite Hrun. simpl. rewrite <- crawl_after_shift.
      repeat split; try lia; assumption.
Qed.

End CrawlInvariants.

(** *** Frontier *)

Section FrontierFacts.
Context `{E : Externals}.

Lemma dict_get_Forall {V} (Q : V -> Prop) (d : Dict.t V) k v :
  Forall (fun entry => Q entry.2) d -> Dict.get k d = Some v -> Q v.
Proof.
  induction d as [|[k' v'] d IH]; simpl; [discriminate|].
  intros Hall Hget. apply Forall_cons in Hall as [Hv Hall].
  destruct (String.eqb k' k); [now inversion Hget; subst | auto].
Qed.

Lemma dict_set_Forall {V} (Q : V -> Prop) (d : Dict.t V) k v :
  Forall (fun entry => Q entry.2) d -> Q v ->
  Forall (fun entry => Q entry.2) (Dict.set k v d).
Proof.
  intros Hall Hv. induction d as [|[k' v'] d IH]; simpl.
  - repeat constructor. exact Hv.
  - apply Forall_cons in Hall as [Hv' Hall].
    destruct (String.eqb k' k); constructor; auto.
Qed.

Lemma dict_del_Forall {V} (Q : string * V -> Prop) (d : Dict.t V) k :
  Forall Q d -> Forall Q (Dict.del k d).
Proof.
  intros Hall. induction d as [|[k' v'] d IH]; simpl; [constructor|].
  apply Forall_cons in Hall as [Hv' Hall].
  destruct (String.eqb k' k); [assumption | constructor; auto].
Qed.

Lemma add_to_cache_links_ok capacity url p g g' :
  cache_links_ok g -> NoDup (page_links p) ->
  add_to_cache capacity url p g = Some g' -> cache_links_ok g'.
Proof.
  unfold cache_links_ok, add_to_cache. intros Hg Hp Hadd.
  destruct (capacity <=? length (page_cache g))%nat.
  - destruct (page_cache g) as [|[k v] rest] eqn:Hc; simpl in Hadd; [discriminate|].
    inversion Hadd; subst g'; clear Hadd. simpl.
    apply (dict_set_Forall (fun v => NoDup (page_links v))); [|exact Hp].
    rewrite String.eqb_refl. now apply Forall_cons in Hg as [_ ?].
  - inversion Hadd; subst g'; clear Hadd. simpl.
    now apply (dict_set_Forall (fun v => NoDup (page_links v))).
Qed.

(** Whatever [fetch_page] returns lists each link once, and the cache
    keeps holding such pages only. *)
Lemma fetch_page_links_ok url g w :
  cache_links_ok g ->
  NoDup (page_links (fetch_page url g w).1.1)
  /\ cache_links_ok (fetch_page url g w).1.2.
Proof.
  intros Hg. unfold fetch_page.
  destruct (Dict.get url (page_cache g)) as [cached|] eqn:Hget.
  - simpl. split; [|exact Hg].
    exact (dict_get_Forall (fun v => NoDup (page_links v)) _ _ _ Hg Hget).
  - destruct (http_get url w)
      as [[msg|msg|title content hrefs nav|msg hrefs nav] w'].
    + simpl. split; [constructor | exact Hg].
    + simpl. split; [constructor | exact Hg].
    + destruct (main_links url hrefs [] (discovered_urls g)) as [links1 disc1].
      destruct (nav_links url nav links1 disc1) as [links disc].
      set (result := mkPage url _ content (set_order links) true).
      set (g1 := mkGlobals (page_cache g) (url_to_cache_key g) disc).
      assert (Hg1 : cache_links_ok g1) by exact Hg.
      destruct (add_to_cache CACHE_SIZE url result g1) as [g2|] eqn:Hadd; simpl.
      * split; [apply set_order_NoDup|].
        apply (add_to_cache_links_ok CACHE_SIZE url result g1 g2 Hg1);
          [apply set_order_NoDup | exact Hadd].
      * split; [constructor | exact Hg1].
    + destruct (main_links url hrefs [] (discovered_urls g)) as [links1 disc1].
      destruct (nav_links url nav links1 disc1) as [links disc].
      simpl. split; [constructor | exact Hg].
Qed.

Lemma suffix_NoDup_urls (seeds init : list FrontierItem) :
  seeds `suffix_of` init -> NoDup (map item_url init) -> NoDup (map item_url seeds).
Proof.
  intros [pre ->]. rewrite map_app. intros H. now apply NoDup_app in H as (_ & _ & ?).
Qed.

Lemma frontier_inv_step max_depth init st :
  frontier_inv init st -> frontier_inv init (crawl_iteration max_depth st).
Proof.
  intros (Hcache & seeds & links & Hto & Hsuf & Hnd & Hlinks & Hseeds).
  destruct (to_visit st) as [|[[url depth] hint] rest] eqn:Hq.
  { rewrite crawl_iteration_nil by exact Hq.
    split; [exact Hcache|]. exists seeds, links. rewrite Hq. auto. }
  (* the frontier after the head is popped *)
  assert (Hpop : exists seeds' links',
            rest = seeds' ++ links'
            /\ seeds' `suffix_of` init
            /\ NoDup (map item_url links')
            /\ (forall u, u ∈ map item_url links' ->
                  (u ∉ visited st) /\ (u ∉ map item_url seeds') /\ u <> url)
            /\ (NoDup (map item_url init) ->
                forall u, u ∈ map item_url seeds' -> (u ∉ visited st) /\ u <> url)).
  { destruct seeds as [|seed seeds'].
    - simpl in Hto. destruct links as [|item links']; [discriminate|].
      inversion Hto; subst item rest; clear Hto.
      simpl in Hnd. apply NoDup_cons in Hnd as [Hhead Hnd].
      exists [], links'. split; [reflexivity|]. split; [exact Hsuf|].
      split; [exact Hnd|]. split.
      + intros u Hu. destruct (Hlinks u) as [Hv _]; [simpl; now right|].
        split; [exact Hv|]. split; [intros H; inversion H|].
        intros ->. exact (Hhead Hu).
      + intros _ u Hu. inversion Hu.
    - simpl in Hto. inversion Hto; subst seed rest; clear Hto.
      exists seeds', links. split; [reflexivity|].
      split; [now apply suffix_cons_l in Hsuf|].
      split; [exact Hnd|]. split.
      + intros u Hu. destruct (Hlinks u Hu) as [Hv Hs].
        simpl in Hs. apply not_elem_of_cons in Hs as [Hne Hs]. auto.
      + intros Hinit u Hu. split.
        * apply Hseeds; [exact Hinit | simpl; now right].
        * pose proof (suffix_NoDup_urls _ _ Hsuf Hinit) as Hn.
          simpl in Hn. apply NoDup_cons in Hn as [Hhead _].
          intros ->. exact (Hhead Hu). }
  destruct Hpop as (seeds' & links' & Hrest & Hsuf' & Hnd' & Hlinks' & Hseeds').
  destruct (crawl_guards max_depth st url depth) as [Hskip|(Hv & Hd & Hn)].
  - destruct (crawl_iteration_skip max_depth st url depth hint rest Hq Hskip)
      as (Hvis & Hto' & _ & _ & Hg & _).
    split; [now rewrite Hg|]. exists seeds', links'.
    rewrite Hvis, Hto'. split; [exact Hrest|]. split; [exact Hsuf'|].
    split; [exact Hnd'|]. split.
    + intros u Hu. destruct (Hlinks' u Hu) as (? & ? & _). auto.
    + intros Hinit u Hu. now destruct (Hseeds' Hinit u Hu).
  - destruct (crawl_iteration_visit max_depth st url depth hint rest Hq Hv Hd Hn)
      as (Hvis & Hto' & _ & _ & _ & Hg & _).
    destruct (fetch_page_links_ok url (crawl_globals st) (crawl_world st) Hcache)
      as [Hpl Hcache'].
    destruct (enqueued_spec max_depth st url depth rest
                (fetch_page url (crawl_globals st) (crawl_world st)).1.1)
      as (_ & _ & Hnew & Hnewnd).
    specialize (Hnewnd Hpl).
    set (new := enqueued max_depth st url depth rest
                  (fetch_page url (crawl_globals st) (crawl_world st)).1.1) in *.
    split; [now rewrite Hg|]. exists seeds', (links' ++ new).
    rewrite Hvis, Hto', Hrest, <- app_assoc. split; [reflexivity|].
    split; [exact Hsuf'|].
    assert (Hfresh : forall u, u ∈ map item_url new ->
              (u ∉ visited st) /\ u <> url
              /\ (u ∉ map item_url seeds') /\ (u ∉ map item_url links')).
    { intros u Hu. destruct (Hnew u Hu) as (_ & Hne & Hnv & Hnr).
      rewrite Hrest, map_app in Hnr.
      repeat split; try assumption; intros H; apply Hnr, elem_of_app; tauto. }
    split; [|split].
    + rewrite map_app. apply NoDup_app. split; [exact Hnd'|]. split; [|exact Hnewnd].
      intros x Hx Hy. now destruct (Hfresh x Hy) as (_ & _ & _ & ?).
    + intros u Hu. rewrite map_app in Hu. rewrite elem_of_union, elem_of_singleton.
      apply elem_of_app in Hu as [Hu|Hu].
      * destruct (Hlinks' u Hu) as (? & ? & ?). split; [tauto | assumption].
      * destruct (Hfresh u Hu) as (? & ? & ? & ?). split; [tauto | assumption].
    + intros Hinit u Hu. rewrite elem_of_union, elem_of_singleton.
      destruct (Hseeds' Hinit u Hu). tauto.
Qed.

Lemma frontier_inv_init start_urls g w :
  cache_links_ok g ->
  frontier_inv (to_visit (crawl_init start_urls g w)) (crawl_init start_urls g w).
Proof.
  intros Hg. split; [exact Hg|].
  exists (to_visit (crawl_init start_urls g w)), [].
  rewrite app_nil_r. split; [reflexivity|]. split; [reflexivity|].
  split; [constructor|]. split.
  - intros u Hu. inversion Hu.
  - intros _ u _ Hv. simpl in Hv. inversion Hv.
Qed.

Lemma crawl_init_urls start_urls g w :
  map item_url (to_visit (crawl_init start_urls g w)) = start_urls.
Proof. simpl. rewrite map_map. unfold item_url. simpl. apply map_id. Qed.

End FrontierFacts.

(** *** The crawler claims *)

Section CrawlClaims.
Context `{E : Externals}.
Variables (start_urls : option (list string)) (max_depth : Z).
Variables (g : Globals) (w : World).

Local Abbreviation st0 := (crawl_init (default_start_urls start_urls) g w).

(** C4. After any number of passes through the loop of [crawl_docs], for
    every seed list, depth limit and behaviour of the fetcher, the entry of
    every product area in [product_page_counts] is the number of URLs whose
    fetch was attempted for that area and is at most
    [MAX_PAGES_PER_PRODUCT]. *)
Theorem crawl_budget_never_exceeded (n : nat) (area : string) :
  let st := crawl_after n max_depth st0 in
  (forall c, product_page_counts st !! area = Some c ->
             (c <= MAX_PAGES_PER_PRODUCT)%Z)
  /\ count_of st area
     = Z.of_nat (length (filter (fun u => get_product_area u = area)
                                (attempted (crawl_log st))))
  /\ (count_of st area <= MAX_PAGES_PER_PRODUCT)%Z.
Proof.
  intros st.
  assert (Hinv : budget_inv st).
  { apply crawl_after_ind; [apply budget_inv_init | apply budget_inv_step]. }
  destruct (Hinv area) as [Hcount Hle]. split; [|split; assumption].
  intros c Hc. unfold count_of in Hle. now rewrite Hc in Hle.
Qed.


(** C8. A pass that gets through the three guards marks the URL visited,
    charges the budget of its product area and writes the [Crawling]
    record before the result of the fetch is looked at: when the fetch
    fails, the URL is visited all the same, its area has one unit less,
    and nothing else is recorded. No URL is fetched twice in a crawl: the
    URLs of the [Crawling] records are exactly the visited ones, each
    once, and a pass over a visited head changes nothing but the
    frontier. *)
Theorem crawl_failed_fetch_consumes_budget (n : nat) :
  let st := crawl_after n max_depth st0 in
  NoDup (attempted (crawl_log st))
  /\ (forall u, u ∈ attempted (crawl_log st) <-> u ∈ visited st)
  /\ (forall url depth hint rest,
        to_visit st = (url, depth, hint) :: rest ->
        let st' := crawl_iteration max_depth st in
        (url ∈ visited st ->
           crawl_log st' = crawl_log st /\ crawl_globals st' = crawl_globals st
           /\ crawl_world st' = crawl_world st /\ visited st' = visited st
           /\ to_visit st' = rest)
        /\ ((url ∉ visited st) -> (depth <= max_depth)%Z ->
            (count_of st (get_product_area url) < MAX_PAGES_PER_PRODUCT)%Z ->
            page_success (fetch_page url (crawl_globals st) (crawl_world st)).1.1
            = false ->
            visited st' = {[url]} ∪ visited st
            /\ count_of st' (get_product_area url)
               = (count_of st (get_product_area url) + 1)%Z
            /\ attempted (crawl_log st') = attempted (crawl_log st) ++ [url]
            /\ all_pages st' = all_pages st
            /\ to_visit st' = rest)).
Proof.
  intros st.
  assert (Hinv : attempt_inv st).
  { apply crawl_after_ind; [apply attempt_inv_init | apply attempt_inv_step]. }
  destruct Hinv as [Hnd Hiff]. split; [exact Hnd|]. split; [exact Hiff|].
  intros url depth hint rest Hq st'. split.
  - intros Hv.
    destruct (crawl_iteration_skip max_depth st url depth hint rest Hq (or_introl Hv))
      as (Hvis & Hto & _ & Hlog & Hg & Hw & _).
    repeat split; assumption.
  - intros Hv Hd Hn Hfail.
    destruct (crawl_iteration_visit max_depth st url depth hint rest Hq Hv Hd Hn)
      as (Hvis & Hto & Hall & Hc & Hlog & _).
    fold st' in Hvis, Hto, Hall, Hc, Hlog.
    rewrite Hfail in Hall, Hlog. simpl in Hlog.
    destruct (enqueued_spec max_depth st url depth rest
                (fetch_page url (crawl_globals st) (crawl_world st)).1.1)
      as (_ & Hnil & _).
    rewrite (Hnil Hfail), app_nil_r in Hto.
    split; [exact Hvis|]. split.
    + rewrite Hc. now destruct (decide _).
    + split; [|split; assumption].
      rewrite Hlog, attempted_app. reflexivity.
Qed.

(** C10, for the enqueued links. Throughout a crawl whose cache holds pages that list
    each link once, the frontier is the remaining seeds followed by the
    enqueued links; no enqueued link occurs twice, none is in the visited
    set and none is also a remaining seed, and every pass appends only
    links that are neither visited nor in the frontier. With pairwise
    distinct seeds the whole frontier has no duplicate URL and no visited
    URL. *)
Theorem crawl_frontier_deduplicated (n : nat) :
  cache_links_ok g ->
  let st := crawl_after n max_depth st0 in
  (exists seeds links,
     to_visit st = seeds ++ links
     /\ seeds `suffix_of` to_visit st0
     /\ NoDup (map item_url links)
     /\ (forall u, u ∈ map item_url links ->
           (u ∉ visited st) /\ (u ∉ map item_url seeds)))
  /\ (forall url depth hint rest,
        to_visit st = (url, depth, hint) :: rest ->
        exists new,
          to_visit (crawl_iteration max_depth st) = rest ++ new
          /\ (forall u, u ∈ map item_url new ->
                (u ∉ visited (crawl_iteration max_depth st))
                /\ (u ∉ map item_url rest)))
  /\ (NoDup (default_start_urls start_urls) ->
      NoDup (map item_url (to_visit st))
      /\ (forall u, u ∈ map item_url (to_visit st) -> u ∉ visited st)).
Proof.
  intros Hg st.
  assert (Hinv : frontier_inv (to_visit st0) st).
  { apply crawl_after_ind; [now apply frontier_inv_init | apply frontier_inv_step]. }
  destruct Hinv as (_ & seeds & links & Hto & Hsuf & Hnd & Hlinks & Hseeds).
  split; [exists seeds, links; auto|]. split.
  - intros url depth hint rest Hq.
    destruct (crawl_guards max_depth st url depth) as [Hskip|(Hv & Hd & Hn)].
    + destruct (crawl_iteration_skip max_depth st url depth hint rest Hq Hskip)
        as (_ & Hto' & _).
      exists []. rewrite app_nil_r. split; [exact Hto'|].
      intros u Hu. inversion Hu.
    + destruct (crawl_iteration_visit max_depth st url depth hint rest Hq Hv Hd Hn)
        as (Hvis & Hto' & _).
      eexists. split; [exact Hto'|]. intros u Hu.
      destruct (enqueued_spec max_depth st url depth rest
                  (fetch_page url (crawl_globals st) (crawl_world st)).1.1)
        as (_ & _ & Hnew & _).
      destruct (Hnew u Hu) as (_ & Hne & Hnv & Hnr). split; [|exact Hnr].
      rewrite Hvis, elem_of_union, elem_of_singleton. tauto.
  - intros Hstart.
    assert (Hinit : NoDup (map item_url (to_visit st0)))
      by (now rewrite crawl_init_urls).
    specialize (Hseeds Hinit). rewrite Hto, map_app. split.
    + apply NoDup_app. split; [exact (suffix_NoDup_urls _ _ Hsuf Hinit)|].
      split; [|exact Hnd]. intros x Hx Hy. now destruct (Hlinks x Hy).
    + intros u Hu. apply elem_of_app in Hu as [Hu|Hu];
        [now apply Hseeds | now destruct (Hlinks u Hu)].
Qed.

End CrawlClaims.

(** The three-page site, crawled from A with depth limit 1: A, B and C
    are fetched, and the frontier after the first pass has no duplicate
    although A names B twice. *)
Example crawl_abc_site :
  option_map (fun st => Dict.keys (all_pages st))
             (crawl_docs (E:=abc_site) 10 (Some [url_A]) 1 empty_globals tt)
  = Some [url_A; url_B; url_C].
Proof. vm_compute. reflexivity. Qed.

Lemma crawl_frontier_deduplicated_witness :
  NoDup (map item_url
           (to_visit (crawl_after (E:=abc_site) 1 1
                        (crawl_init (E:=abc_site) [url_A] empty_globals tt)))).
Proof.
  refine (proj1 (proj2 (proj2
    (crawl_frontier_deduplicated (E:=abc_site) (Some [url_A]) 1 empty_globals tt 1 _)) _)).
  - constructor.
  - apply (bool_decide_unpack _). vm_compute. reflexivity.
Defined.

(** A seed list that names a URL twice: after the first pass the URL is
    visited and its second copy is still in the frontier. *)
Lemma duplicate_seed_stays_in_frontier :
  let st := crawl_after (E:=offline) 1 MAX_CRAWL_DEPTH
              (crawl_init (E:=offline) [url_A; url_A] empty_globals tt) in
  map item_url (to_visit st) = [url_A] /\ url_A ∈ visited st.
Proof.
  split; [vm_compute; reflexivity|].
  apply (bool_decide_unpack _). vm_compute. reflexivity.
Qed.

(** ** Search orchestrator *)

Section SearchFacts.
Context `{E : Externals}.

Lemma insert_desc_perm (r : Result) (l : list Result) :
  insert_desc r l ≡ₚ r :: l.
Proof.
  induction l as [|x l IH]; simpl; [reflexivity|].
  destruct (res_relevance r <? res_relevance x)%Z; [|reflexivity].
  rewrite IH. apply Permutation_swap.
Qed.

Lemma sort_desc_perm (l : list Result) : sort_desc l ≡ₚ l.
Proof.
  induction l as [|x l IH]; simpl; [reflexivity|].
  now rewrite insert_desc_perm, IH.
Qed.

Lemma insert_desc_sorted (r : Result) (l : list Result) :
  StronglySorted (fun a b => (res_relevance b <= res_relevance a)%Z) l ->
  StronglySorted (fun a b => (res_relevance b <= res_relevance a)%Z)
                 (insert_desc r l).
Proof.
  induction l as [|x l IH]; simpl; intros Hs; [repeat constructor|].
  apply StronglySorted_inv in Hs as [Hs Hx].
  destruct (Z.ltb_spec (res_relevance r) (res_relevance x)).
  - constructor; [auto|].
    rewrite insert_desc_perm. constructor; [lia | exact Hx].
  - constructor; [constructor; assumption|].
    constructor; [lia|]. eapply Forall_impl; [exact Hx|]. simpl. intros; lia.
Qed.

Lemma sort_desc_sorted (l : list Result) :
  StronglySorted (fun a b => (res_relevance b <= res_relevance a)%Z) (sort_desc l).
Proof.
  induction l as [|x l IH]; simpl; [constructor | now apply insert_desc_sorted].
Qed.

Lemma contains_empty (s : string) : Str.contains EmptyString s = true.
Proof. destruct s; reflexivity. Qed.

(** For a Memcached query the pinned document scores at least 1000. *)
Lemma pinned_score (query : string) :
  is_memcached_related_query query = true ->
  (1000 <= calculate_relevance query get_memcached_doc_data)%Z.
Proof.
  intros Hrel. unfold calculate_relevance. rewrite Hrel.
  set (p := get_memcached_doc_data).
  set (words := Str.split (Str.lower query)).
  assert (0 <= sum_over (fun word => if Str.contains word (Str.lower (page_title p)) then 1 else 0) words)%Z
    by (apply sum_over_nonneg; intros x; destruct (Str.contains _ _); lia).
  assert (0 <= sum_over (fun word => Z.of_nat (Str.count (Str.lower (page_content p)) word)) words)%Z
    by (apply sum_over_nonneg; intros; lia).
  assert (0 <= sum_over (fun keyword => Z.of_nat (Str.count (Str.lower (page_content p)) keyword) * 50) memcache_keywords)%Z
    by (apply sum_over_nonneg; intros; lia).
  replace (String.eqb (page_url p) MEMCACHED_DOC_URL) with true
    by (symmetry; apply String.eqb_refl).
  cbn [orb]. destruct (Str.contains (Str.lower query) _); lia.
Qed.

Lemma add_to_cache_Forall (Q : Page -> Prop) capacity url p g g' :
  Forall (fun entry => Q entry.2) (page_cache g) -> Q p ->
  add_to_cache capacity url p g = Some g' ->
  Forall (fun entry => Q entry.2) (page_cache g').
Proof.
  unfold add_to_cache. intros Hg Hp Hadd.
  destruct (capacity <=? length (page_cache g))%nat.
  - destruct (page_cache g) as [|[k v] rest] eqn:Hc; simpl in Hadd; [discriminate|].
    inversion Hadd; subst g'; clear Hadd. simpl.
    apply (dict_set_Forall Q); [|exact Hp].
    rewrite String.eqb_refl. now apply Forall_cons in Hg as [_ ?].
  - inversion Hadd; subst g'; clear Hadd. simpl.
    now apply (dict_set_Forall Q).
Qed.

Section NoMatch.
Variable query : string.
Hypothesis Hnet : network_scoreless query.

Lemma fetch_page_scoreless url g w :
  cache_scoreless query g ->
  (page_success (fetch_page url g w).1.1 = true ->
   (calculate_relevance query (fetch_page url g w).1.1 <= 0)%Z)
  /\ cache_scoreless query (fetch_page url g w).1.2.
Proof.
  intros Hg. unfold fetch_page.
  destruct (Dict.get url (page_cache g)) as [cached|] eqn:Hget.
  - simpl. split; [intros _|exact Hg].
    exact (dict_get_Forall (fun v => (calculate_relevance query v <= 0)%Z)
                           _ _ _ Hg Hget).
  - destruct (http_get url w)
      as [[msg|msg|title content hrefs nav|msg hrefs nav] w'] eqn:Hhttp;
      [| | |destruct (main_links url hrefs [] (discovered_urls g)) as [links1 disc1];
            destruct (nav_links url nav links1 disc1) as [links disc];
            simpl; split; [discriminate | exact Hg]].
    + simpl. split; [discriminate | exact Hg].
    + simpl. split; [discriminate | exact Hg].
    + destruct (main_links url hrefs [] (discovered_urls g)) as [links1 disc1].
      destruct (nav_links url nav links1 disc1) as [links disc].
      pose proof (Hnet url w title content hrefs nav w' Hhttp (set_order links))
        as Hscore.
      set (result := mkPage url (clean_title title) content (set_order links) true) in *.
      set (g1 := mkGlobals (page_cache g) (url_to_cache_key g) disc).
      destruct (add_to_cache CACHE_SIZE url result g1) as [g2|] eqn:Hadd; simpl.
      * split; [intros _; exact Hscore|].
        exact (add_to_cache_Forall
                 (fun v => (calculate_relevance query v <= 0)%Z)
                 CACHE_SIZE url result g1 g2 Hg Hscore Hadd).
      * split; [discriminate | exact Hg].
Qed.

Lemma score_linked_scoreless linked_url results g w :
  cache_scoreless query g ->
  exists g' w', score_linked query linked_url results g w = (results, g', w')
                /\ cache_scoreless query g'.
Proof.
  intros Hg. unfold score_linked.
  destruct (fetch_page_scoreless linked_url g w Hg) as [Hscore Hg'].
  destruct (fetch_page linked_url g w) as [[page g'] w']. simpl in *.
  exists g', w'. split; [|exact Hg'].
  destruct (page_success page); [|reflexivity].
  destruct (Z.ltb_spec 0 (calculate_relevance query page)); [|reflexivity].
  specialize (Hscore eq_refl). lia.
Qed.

Lemma explore_linked_scoreless doc_urls links results g w :
  cache_scoreless query g ->
  exists g' w', explore_linked query doc_urls links results g w = (results, g', w')
                /\ cache_scoreless query g'.
Proof.
  revert g w. induction links as [|linked_url links IH]; intros g w Hg; simpl.
  - exists g, w. auto.
  - destruct (negb (in_list linked_url doc_urls)); [|now apply IH].
    destruct (score_linked_scoreless linked_url results g w Hg)
      as (g1 & w1 & -> & Hg1).
    now apply IH.
Qed.

Lemma explore_overview_scoreless links results g w :
  cache_scoreless query g ->
  exists g' w', explore_overview query links results g w = (results, g', w')
                /\ cache_scoreless query g'.
Proof.
  revert g w. induction links as [|linked_url links IH]; intros g w Hg; simpl.
  - exists g, w. auto.
  - destruct (negb (in_list linked_url (map res_url results))); [|now apply IH].
    destruct (score_linked_scoreless linked_url results g w Hg)
      as (g1 & w1 & -> & Hg1).
    now apply IH.
Qed.

Lemma search_pass_scoreless doc_urls urls results g w :
  cache_scoreless query g ->
  exists g' w', search_pass query doc_urls urls results g w = (results, g', w')
                /\ cache_scoreless query g'.
Proof.
  revert g w. induction urls as [|url urls IH]; intros g w Hg; simpl.
  - exists g, w. auto.
  - destruct (fetch_page_scoreless url g w Hg) as [Hscore Hg1].
    destruct (fetch_page url g w) as [[page g1] w1]. simpl in *.
    destruct (page_success page); [|now apply IH].
    specialize (Hscore eq_refl).
    destruct (Z.ltb_spec 0 (calculate_relevance query page)); [lia|].
    cbn [andb].
    match goal with
    | |- context [if ?c then _ else _] => destruct c; [|now apply IH]
    end.
    destruct (explore_overview_scoreless (take 30 (page_links page)) results g1 w1 Hg1)
      as (g2 & w2 & -> & Hg2).
    now apply IH.
Qed.

Lemma collect_results_scoreless g w :
  cache_scoreless query g -> (collect_results query g w).1.1 = [].
Proof.
  intros Hg. unfold collect_results.
  destruct (site_search (search_url query) w) as [found w1].
  match goal with
  | |- (search_pass query ?d ?u [] g w1).1.1 = [] =>
      destruct (search_pass_scoreless d u [] g w1 Hg) as (g' & w' & -> & _)
  end.
  reflexivity.
Qed.

End NoMatch.

End SearchFacts.

(** *** The search claims *)

Section SearchClaims.
Context `{E : Externals}.

(** C1, by presence of the pinned document. For a query that [is_memcached_related_query]
    recognises: when none of the collected results carries
    [MEMCACHED_DOC_URL], the list [direct_search_docs] returns starts with
    the pinned document, whose relevance is at least 1000, whatever the
    scores of the other results; when a collected result carries that URL
    already, nothing is inserted and the list is the first ten collected
    results in descending order of relevance. *)
Theorem pinned_result_first_when_absent (query : string) (g : Globals)
    (w : World) :
  is_memcached_related_query query = true ->
  let collected := (collect_results query g w).1.1 in
  let results := (direct_search_docs query g w).1.1 in
  (Forall (fun r => res_url r <> MEMCACHED_DOC_URL) collected ->
     results = memcached_result query :: take 9 (sort_desc collected)
     /\ res_url (memcached_result query) = MEMCACHED_DOC_URL
     /\ (1000 <= res_relevance (memcached_result query))%Z)
  /\ (Exists (fun r => res_url r = MEMCACHED_DOC_URL) collected ->
        results = take 10 (sort_desc collected)
        /\ StronglySorted (fun a b => (res_relevance b <= res_relevance a)%Z)
                          (sort_desc collected)).
Proof.
  intros Hrel collected results. subst collected results.
  unfold direct_search_docs, smart_memcached_injection. rewrite Hrel.
  destruct (collect_results query g w) as [[collected g'] w']. simpl.
  split.
  - intros Hall.
    assert (Hex : existsb (fun result => String.eqb (res_url result) MEMCACHED_DOC_URL)
                          (sort_desc collected) = false).
    { apply existsb_false_Forall. rewrite sort_desc_perm.
      eapply Forall_impl; [exact Hall|]. simpl. intros r Hr.
      now apply String.eqb_neq. }
    rewrite Hex. simpl. split; [reflexivity|]. split; [reflexivity|].
    now apply pinned_score.
  - intros Hsome. split; [|apply sort_desc_sorted].
    assert (Hex : existsb (fun result => String.eqb (res_url result) MEMCACHED_DOC_URL)
                          (sort_desc collected) = true).
    { apply existsb_exists. rewrite <- sort_desc_perm in Hsome.
      apply Exists_exists in Hsome as (r & Hin & Hr).
      exists r. split; [now apply list_elem_of_In | now apply String.eqb_eq]. }
    rewrite Hex. simpl.
    destruct (sort_desc collected); [discriminate | reflexivity].
Qed.

(** The results collected are those of the fetched pages that score, in
    the order of the fetches. *)
Lemma score_linked_scored query linked_url results g w :
  (score_linked query linked_url results g w).1.1
  = results ++ omap (scored query) [(linked_url, (fetch_page linked_url g w).1.1)].
Proof.
  unfold score_linked, scored. cbn [omap list_omap].
  destruct (fetch_page linked_url g w) as [[page g'] w']. cbn [fst snd].
  destruct (page_success page); cbn [andb].
  - destruct (0 <? calculate_relevance query page)%Z; simpl;
      [reflexivity | now rewrite app_nil_r].
  - simpl. now rewrite app_nil_r.
Qed.

Lemma omap_cons_app {A B} (f : A -> option B) (x : A) (l : list A) :
  omap f (x :: l) = omap f [x] ++ omap f l.
Proof. exact (omap_app f [x] l). Qed.

Lemma explore_linked_scored query doc_urls links results g w :
  (explore_linked query doc_urls links results g w).1.1
  = results ++ omap (scored query)
                    (explore_linked_fetched query doc_urls links results g w).
Proof.
  revert results g w. induction links as [|linked_url links IH];
    intros results g w; simpl; [now rewrite app_nil_r|].
  destruct (negb (in_list linked_url doc_urls)); [|apply IH].
  pose proof (score_linked_scored query linked_url results g w) as Hone.
  destruct (score_linked query linked_url results g w) as [[results' g'] w'].
  cbn [fst] in Hone. rewrite IH, omap_cons_app, app_assoc, <- Hone. reflexivity.
Qed.

Lemma explore_overview_scored query links results g w :
  (explore_overview query links results g w).1.1
  = results ++ omap (scored query)
                    (explore_overview_fetched query links results g w).
Proof.
  revert results g w. induction links as [|linked_url links IH];
    intros results g w; simpl; [now rewrite app_nil_r|].
  destruct (negb (in_list linked_url (map res_url results))); [|apply IH].
  pose proof (score_linked_scored query linked_url results g w) as Hone.
  destruct (score_linked query linked_url results g w) as [[results' g'] w'].
  cbn [fst] in Hone. rewrite IH, omap_cons_app, app_assoc, <- Hone. reflexivity.
Qed.

Lemma search_pass_scored query doc_urls urls results g w :
  (search_pass query doc_urls urls results g w).1.1
  = results ++ omap (scored query)
                    (search_pass_fetched query doc_urls urls results g w).
Proof.
  revert results g w. induction urls as [|url urls IH];
    intros results g w; simpl; [now rewrite app_nil_r|].
  destruct (fetch_page url g w) as [[page g1] w1].
  cbn [omap list_omap]. unfold scored at 1. cbn [fst snd].
  destruct (page_success page) eqn:Hs; cbn [andb]; [|apply IH].
  destruct (0 <? calculate_relevance query page)%Z eqn:Hpos.
  - match goal with
    | |- context [if ?c then _ else _] => destruct c
    end.
    + pose proof (explore_linked_scored query doc_urls (take 20 (page_links page))
                    (results ++ [make_result query url page
                                   (calculate_relevance query page)]) g1 w1)
        as Hex.
      destruct (explore_linked query doc_urls (take 20 (page_links page)) _ g1 w1)
        as [[results2 g2] w2].
      cbn [fst] in Hex. rewrite IH, Hex, omap_app, <- !app_assoc. reflexivity.
    + rewrite IH, <- app_assoc. reflexivity.
  - match goal with
    | |- context [if ?c then _ else _] => destruct c; [|apply IH]
    end.
    pose proof (explore_overview_scored query (take 30 (page_links page))
                  results g1 w1) as Hex.
    destruct (explore_overview query (take 30 (page_links page)) results g1 w1)
      as [[results2 g2] w2].
    cbn [fst] in Hex. rewrite IH, Hex, omap_app, <- !app_assoc. reflexivity.
Qed.

Lemma collect_results_scored query g w :
  (collect_results query g w).1.1 = omap (scored query) (fetched_pages query g w).
Proof.
  unfold collect_results, fetched_pages.
  destruct (site_search (search_url query) w) as [found w1].
  apply search_pass_scored.
Qed.

Lemma omap_scored_nil query (l : list (string * Page)) :
  Forall (fun fetched =>
            page_success fetched.2 = true ->
            (calculate_relevance query fetched.2 <= 0)%Z) l ->
  omap (scored query) l = [].
Proof.
  induction l as [|f l IH]; intros Hall; [reflexivity|].
  apply Forall_cons in Hall as [Hf Hl]. rewrite omap_cons_app, (IH Hl), app_nil_r.
  cbn [omap list_omap]. unfold scored.
  destruct (page_success f.2); cbn [andb]; [|reflexivity].
  destruct (Z.ltb_spec 0 (calculate_relevance query f.2));
    [specialize (Hf eq_refl); lia | reflexivity].
Qed.

(** C3, for the pages the search fetches. For a query that is not a
    Memcached query, [direct_search_docs] returns the placeholder alone,
    with relevance 0 and the manual-search URL, exactly when none of the
    pages it fetches with success, cached or from the network, scores
    above zero; pages of the cache that the search does not ask for do not
    count. The list returned is never empty. The empty query scores at
    least 12 on every page, since the empty string is part of every title
    and content, so it gets the placeholder only when no fetch succeeds. *)
Theorem no_match_gives_placeholder (query : string) (g : Globals) (w : World) :
  is_memcached_related_query query = false ->
  ((direct_search_docs query g w).1.1 = [no_results query]
   <-> Forall (fun fetched =>
                 page_success fetched.2 = true ->
                 (calculate_relevance query fetched.2 <= 0)%Z)
              (fetched_pages query g w))
  /\ (direct_search_docs query g w).1.1 <> []
  /\ res_relevance (no_results query) = 0%Z
  /\ res_url (no_results query) = search_url query
  /\ (forall p, (12 <= calculate_relevance EmptyString p)%Z).
Proof.
  intros Hrel.
  assert (Hshape : (direct_search_docs query g w).1.1
                   = match sort_desc (omap (scored query) (fetched_pages query g w)) with
                     | [] => [no_results query]
                     | r :: l => take 10 (r :: l)
                     end).
  { unfold direct_search_docs, smart_memcached_injection. rewrite Hrel.
    pose proof (collect_results_scored query g w) as Hc.
    destruct (collect_results query g w) as [[collected g'] w'].
    simpl in Hc. subst collected.
    now destruct (sort_desc _). }
  split; [|split; [|split; [reflexivity|split; [reflexivity|]]]].
  - rewrite Hshape. split.
    + intros Hres. apply Forall_forall. intros fetched Hin Hs.
      destruct (Z.ltb_spec 0 (calculate_relevance query fetched.2)) as [Hpos|]; [|lia].
      exfalso.
      assert (Hr : make_result query fetched.1 fetched.2
                     (calculate_relevance query fetched.2)
                   ∈ sort_desc (omap (scored query) (fetched_pages query g w))).
      { rewrite sort_desc_perm. apply list_elem_of_omap. exists fetched.
        split; [exact Hin|]. unfold scored. rewrite Hs.
        now rewrite (proj2 (Z.ltb_lt _ _) Hpos). }
      assert (Hall : Forall (fun r => (0 < res_relevance r)%Z)
                (sort_desc (omap (scored query) (fetched_pages query g w)))).
      { rewrite sort_desc_perm. apply Forall_forall. intros r Hin'.
        apply list_elem_of_omap in Hin' as (f & _ & Hf). unfold scored in Hf.
        destruct (page_success f.2); [|discriminate]. cbn [andb] in Hf.
        destruct (Z.ltb_spec 0 (calculate_relevance query f.2)); [|discriminate].
        inversion Hf; subst r. exact H. }
      destruct (sort_desc _) as [|r l]; [inversion Hr|].
      simpl in Hres. inversion Hres as [[Hhead Htail]].
      apply Forall_cons in Hall as [Hpos' _]. rewrite Hhead in Hpos'.
      simpl in Hpos'. lia.
    + intros Hall.
      now rewrite (omap_scored_nil query _ Hall).
  - rewrite Hshape. destruct (sort_desc _); discriminate.
  - intros p. unfold calculate_relevance.
    change (is_memcached_related_query EmptyString) with false.
    change (Str.split (Str.lower EmptyString)) with (@nil string).
    change (Str.lower EmptyString) with EmptyString.
    rewrite contains_empty. unfold Str.count. simpl sum_over. lia.
Qed.

End SearchClaims.

(** The cache holds the pinned document and a page that scores 5; the
    network is down. The pinned document comes first with a relevance
    above 1000. *)
Lemma pinned_result_first_when_absent_witness :
  map (fun r => (res_url r, res_relevance r))
      (direct_search_docs (E:=offline) "enable memcached settings.php"
                          two_page_cache tt).1.1
  = [(MEMCACHED_DOC_URL, 2620%Z); (dam_overview_url, 5%Z)].
Proof.
  destruct (pinned_result_first_when_absent (E:=offline)
              "enable memcached settings.php" two_page_cache tt)
    as [Habsent _].
  - vm_compute. reflexivity.
  - destruct Habsent as (Hres & _).
    + vm_compute. constructor; [discriminate | constructor].
    + rewrite Hres. vm_compute. reflexivity.
Defined.

(** The pinned document is collected as a link of the Cloud Platform
    overview, which scores higher: the overview is returned first. *)
Lemma pinned_result_outranked :
  is_memcached_related_query "enable memcached" = true
  /\ map (fun r => (res_url r, res_relevance r))
         (direct_search_docs (E:=memcached_site) "enable memcached"
                             (preloaded (E:=memcached_site)) tt).1.1
     = [(cloud_overview_url, 4005%Z); (MEMCACHED_DOC_URL, 2618%Z)].
Proof. split; vm_compute; reflexivity. Qed.

(** The pinned document is in the cache and scores 23 for this query,
    but the search does not ask for it; of the pages it does ask for, the
    DAM overview is served and does not mention a zebra. *)
Lemma no_match_gives_placeholder_witness :
  (direct_search_docs (E:=dam_site) "the zebra" (preloaded (E:=dam_site)) tt).1.1
  = [no_results (E:=dam_site) "the zebra"]
  /\ calculate_relevance "the zebra" get_memcached_doc_data = 23%Z.
Proof.
  split; [|vm_compute; reflexivity].
  refine (proj2 (proj1 (no_match_gives_placeholder (E:=dam_site) "the zebra"
                          (preloaded (E:=dam_site)) tt _)) _).
  - vm_compute. reflexivity.
  - apply (bool_decide_unpack _). vm_compute. reflexivity.
Defined.

(** The empty query on the DAM site: the overview is fetched and scores,
    so the answer is that page and not the placeholder. And a Memcached
    query while the network is down: no page is fetched at all, and the
    answer is the pinned document, not the placeholder. *)
Lemma empty_query_matches_every_page :
  map (fun r => (res_url r, res_relevance r))
      (direct_search_docs (E:=dam_site) EmptyString empty_globals tt).1.1
  = [(dam_overview_url, 62%Z)]
  /\ (direct_search_docs (E:=dam_site) EmptyString empty_globals tt).1.1
     <> [no_results (E:=dam_site) EmptyString]
  /\ map page_success
         (map snd (fetched_pages (E:=offline) "enable memcached" empty_globals tt))
     = repeat false 20
  /\ map res_url
         (direct_search_docs (E:=offline) "enable memcached" empty_globals tt).1.1
     = [MEMCACHED_DOC_URL].
Proof.
  split; [vm_compute; reflexivity|]. split; [|split; vm_compute; reflexivity].
  intros H. apply (f_equal (map res_relevance)) in H.
  vm_compute in H. discriminate.
Qed.

(** * Further properties *)

(** ** Dictionaries, continued *)

Section DictMore.
Context {V : Type}.
Implicit Types (d : Dict.t V) (k : string) (v : V).

Lemma dict_keys_set k v d :
  Dict.keys (Dict.set k v d)
  = if Dict.mem k d then Dict.keys d else Dict.keys d ++ [k].
Proof.
  unfold Dict.mem, Dict.keys. induction d as [|[k' v'] d IH]; simpl; [reflexivity|].
  destruct (String.eqb k' k) eqn:Hk; simpl; [reflexivity|].
  rewrite IH. now destruct (existsb _ d).
Qed.

Lemma dict_mem_false k d : Dict.mem k d = false <-> k ∉ Dict.keys d.
Proof.
  rewrite <- dict_mem_keys. destruct (Dict.mem k d); split; congruence.
Qed.

Lemma dict_set_NoDup k v d :
  NoDup (Dict.keys d) -> NoDup (Dict.keys (Dict.set k v d)).
Proof.
  intros Hnd. rewrite dict_keys_set. destruct (Dict.mem k d) eqn:Hm; [exact Hnd|].
  apply dict_mem_false in Hm. apply NoDup_app. split; [exact Hnd|].
  split; [|apply NoDup_singleton].
  intros x Hx Hin. apply list_elem_of_singleton in Hin as ->. contradiction.
Qed.

Lemma dict_set_length k v d :
  length (Dict.set k v d) = if Dict.mem k d then length d else S (length d).
Proof.
  rewrite <- (length_map fst (Dict.set k v d)). fold (Dict.keys (Dict.set k v d)).
  rewrite dict_keys_set. destruct (Dict.mem k d).
  - unfold Dict.keys. now rewrite length_map.
  - unfold Dict.keys. rewrite length_app, length_map. simpl. lia.
Qed.

Lemma dict_del_keys_sub k d x : x ∈ Dict.keys (Dict.del k d) -> x ∈ Dict.keys d.
Proof.
  unfold Dict.keys. induction d as [|[k' v'] d IH]; simpl; [auto|].
  destruct (String.eqb k' k); simpl.
  - intros H. now right.
  - intros H. apply elem_of_cons in H as [->|H]; [left | right; auto].
Qed.

Lemma dict_del_NoDup k d :
  NoDup (Dict.keys d) -> NoDup (Dict.keys (Dict.del k d)).
Proof.
  unfold Dict.keys. induction d as [|[k' v'] d IH]; simpl; [auto|].
  intros Hnd. apply NoDup_cons in Hnd as [Hk Hnd].
  destruct (String.eqb k' k); simpl; [exact Hnd|].
  apply NoDup_cons. split; [|auto].
  intros Hin. apply Hk. now apply (dict_del_keys_sub k d).
Qed.

Lemma dict_get_del_ne k k0 d :
  k0 <> k -> Dict.get k0 (Dict.del k d) = Dict.get k0 d.
Proof.
  intros Hne. induction d as [|[k' v'] d IH]; simpl; [reflexivity|].
  destruct (String.eqb_spec k' k) as [->|Hk]; simpl.
  - destruct (String.eqb_spec k k0); congruence.
  - now rewrite IH.
Qed.

Lemma dict_get_None k d : Dict.get k d = None <-> k ∉ Dict.keys d.
Proof.
  unfold Dict.keys. induction d as [|[k' v'] d IH]; simpl.
  - split; [intros _ H; inversion H | reflexivity].
  - rewrite not_elem_of_cons. destruct (String.eqb_spec k' k) as [->|Hk].
    + split; [discriminate | intros [? _]; congruence].
    + rewrite IH. intuition congruence.
Qed.

Lemma dict_get_mem k d : Dict.mem k d = true <-> is_Some (Dict.get k d).
Proof.
  rewrite dict_mem_keys. destruct (Dict.get k d) eqn:Hg.
  - split; [eauto|]. intros _.
    destruct (decide (k ∈ Dict.keys d)) as [?|Hn]; [assumption|].
    apply dict_get_None in Hn. congruence.
  - apply dict_get_None in Hg. split; [contradiction | intros [? ?]; discriminate].
Qed.

Lemma dict_get_elem k v d : Dict.get k d = Some v -> (k, v) ∈ d.
Proof.
  induction d as [|[k' v'] d IH]; simpl; [discriminate|].
  destruct (String.eqb_spec k' k) as [->|Hk].
  - intros H. inversion H. left.
  - intros H. right. auto.
Qed.

Lemma dict_del_length k d : length (Dict.del k d) <= length d.
Proof.
  induction d as [|[k' v'] d IH]; simpl; [lia|].
  destruct (String.eqb k' k); simpl; lia.
Qed.

Lemma dict_set_Forall_entry (Q : string * V -> Prop) k v d :
  Forall Q d -> Q (k, v) -> Forall Q (Dict.set k v d).
Proof.
  intros Hall Hv. induction d as [|[k' v'] d IH]; simpl.
  - repeat constructor. exact Hv.
  - apply Forall_cons in Hall as [Hv' Hall].
    destruct (String.eqb_spec k' k) as [->|Hk]; constructor; auto.
Qed.

End DictMore.

Lemma dict_keys_del_congr {V1 V2} (d1 : Dict.t V1) (d2 : Dict.t V2) k :
  Dict.keys d1 = Dict.keys d2 ->
  Dict.keys (Dict.del k d1) = Dict.keys (Dict.del k d2).
Proof.
  unfold Dict.keys. revert d2.
  induction d1 as [|[k1 v1] d1 IH]; intros [|[k2 v2] d2]; simpl;
    try discriminate; [reflexivity|].
  intros H. inversion H; subst.
  destruct (String.eqb k2 k); simpl; [assumption | f_equal; auto].
Qed.

Lemma dict_mem_congr {V1 V2} (d1 : Dict.t V1) (d2 : Dict.t V2) k :
  Dict.keys d1 = Dict.keys d2 -> Dict.mem k d1 = Dict.mem k d2.
Proof.
  intros H. destruct (Dict.mem k d2) eqn:H2.
  - apply dict_mem_keys. rewrite H. now apply dict_mem_keys.
  - apply dict_mem_false. rewrite H. now apply dict_mem_false.
Qed.

Lemma dict_keys_set_congr {V1 V2} (d1 : Dict.t V1) (d2 : Dict.t V2) k v1 v2 :
  Dict.keys d1 = Dict.keys d2 ->
  Dict.keys (Dict.set k v1 d1) = Dict.keys (Dict.set k v2 d2).
Proof.
  intros H. rewrite !dict_keys_set, (dict_mem_congr d1 d2 k H), H. reflexivity.
Qed.

(** ** Page cache, continued *)

Section CacheMore.
Context `{E : Externals}.

Lemma add_to_cache_shape capacity url p g g' :
  add_to_cache capacity url p g = Some g' ->
  exists pc uk,
    g' = mkGlobals (Dict.set url p pc) (Dict.set url (md5_hex8 url) uk)
                   (discovered_urls g)
    /\ ((length (page_cache g) < capacity /\ pc = page_cache g
         /\ uk = url_to_cache_key g /\ evicted_key capacity g = None)
        \/ (exists oldest, capacity <= length (page_cache g)
              /\ evicted_key capacity g = Some oldest
              /\ Dict.first_key (page_cache g) = Some oldest
              /\ pc = Dict.del oldest (page_cache g)
              /\ uk = (if Dict.mem oldest (url_to_cache_key g)
                       then Dict.del oldest (url_to_cache_key g)
                       else url_to_cache_key g))).
Proof.
  unfold add_to_cache, evicted_key.
  destruct (Nat.leb_spec capacity (length (page_cache g))) as [Hle|Hlt].
  - destruct (Dict.first_key (page_cache g)) as [oldest|] eqn:Hf; [|discriminate].
    intros H. inversion H; subst g'; clear H. simpl.
    eexists _, _. split; [reflexivity|]. right. exists oldest. auto 10.
  - intros H. inversion H; subst g'; clear H.
    eexists _, _. split; [reflexivity|]. left. auto.
Qed.

Lemma first_key_del_gone {V} (d : Dict.t V) oldest :
  NoDup (Dict.keys d) -> Dict.first_key d = Some oldest ->
  Dict.get oldest (Dict.del oldest d) = None.
Proof.
  destruct d as [|[k v] d]; simpl; [discriminate|].
  intros Hnd H. inversion H; subst k. rewrite String.eqb_refl.
  apply NoDup_cons in Hnd as [Hk _]. now apply dict_get_None.
Qed.

End CacheMore.

Section CacheExtras.
Context `{E : Externals}.

(** X1. What is written can be read back: after [add_to_cache] the cache
    maps the URL to the page just stored, is still a dictionary, and every
    other key reads as before, except the evicted oldest key, which is
    gone. *)
Theorem add_to_cache_lookup (capacity : nat) (url : string) (p : Page)
    (g g' : Globals) :
  NoDup (Dict.keys (page_cache g)) ->
  add_to_cache capacity url p g = Some g' ->
  Dict.get url (page_cache g') = Some p
  /\ NoDup (Dict.keys (page_cache g'))
  /\ (forall k, k <> url ->
        Dict.get k (page_cache g')
        = if decide (evicted_key capacity g = Some k) then None
          else Dict.get k (page_cache g)).
Proof.
  intros Hnd Hadd.
  destruct (add_to_cache_shape capacity url p g g' Hadd) as (pc & uk & -> & Hcase).
  simpl. split; [apply dict_get_set_eq|].
  destruct Hcase as [(_ & -> & _ & Hev)|(oldest & _ & Hev & Hf & -> & _)].
  - split; [now apply dict_set_NoDup|]. intros k Hk.
    rewrite Hev. destruct (decide _); [discriminate|].
    now apply dict_get_set_ne.
  - split; [now apply dict_set_NoDup, dict_del_NoDup|]. intros k Hk.
    rewrite Hev, dict_get_set_ne by exact Hk.
    destruct (decide (Some oldest = Some k)) as [Heq|Hne].
    + inversion Heq; subst k. now apply first_key_del_gone.
    + apply dict_get_del_ne. congruence.
Qed.

(** X2. [add_to_cache] never lets the cache grow beyond the larger of its
    old size and the capacity, keeps the keys of [url_to_cache_key] equal
    to the keys of [page_cache], in the same order, when they were so
    before, and leaves [discovered_urls] alone. *)
Theorem add_to_cache_bookkeeping (capacity : nat) (url : string) (p : Page)
    (g g' : Globals) :
  add_to_cache capacity url p g = Some g' ->
  length (page_cache g') <= Nat.max (length (page_cache g)) capacity
  /\ (Dict.keys (url_to_cache_key g) = Dict.keys (page_cache g) ->
      Dict.keys (url_to_cache_key g') = Dict.keys (page_cache g'))
  /\ discovered_urls g' = discovered_urls g.
Proof.
  intros Hadd.
  destruct (add_to_cache_shape capacity url p g g' Hadd) as (pc & uk & -> & Hcase).
  simpl. split; [|split; [|reflexivity]].
  - rewrite dict_set_length.
    destruct Hcase as [(Hlt & -> & _)|(oldest & Hle & _ & Hf & -> & _)].
    + destruct (Dict.mem url (page_cache g)); lia.
    + destruct (page_cache g) as [|[k v] rest] eqn:Hc; [discriminate|].
      simpl in Hf. inversion Hf; subst k. rewrite dict_del_head.
      simpl. destruct (Dict.mem url rest); lia.
  - intros Hsync.
    destruct Hcase as [(_ & -> & -> & _)|(oldest & _ & _ & Hf & -> & ->)].
    + now apply dict_keys_set_congr.
    + apply dict_keys_set_congr.
      assert (Hm : Dict.mem oldest (url_to_cache_key g) = true).
      { rewrite (dict_mem_congr _ (page_cache g) oldest Hsync).
        destruct (page_cache g) as [|[k v] rest]; [discriminate|].
        simpl in Hf. inversion Hf; subst k.
        unfold Dict.mem. simpl. now rewrite String.eqb_refl. }
      rewrite Hm. now apply dict_keys_del_congr.
Qed.

End CacheExtras.

(** A full cache of two pages takes one more: the page is there, the
    oldest page is not, the second oldest is. *)
Lemma add_to_cache_lookup_witness :
  exists g',
    add_to_cache (E:=offline) 2 url_A (blank_page url_A)
                 (mkGlobals (numbered_entries 2) [] ∅)
    = Some g'
    /\ Dict.get url_A (page_cache g') = Some (blank_page url_A)
    /\ Dict.get (numbered_url 0) (page_cache g') = None
    /\ Dict.get (numbered_url 1) (page_cache g')
       = Some (blank_page (numbered_url 1)).
Proof.
  set (g := mkGlobals (numbered_entries 2) [] ∅).
  destruct (add_to_cache (E:=offline) 2 url_A (blank_page url_A) g)
    as [g'|] eqn:Hadd; [|vm_compute in Hadd; discriminate].
  exists g'. split; [reflexivity|].
  destruct (add_to_cache_lookup (E:=offline) 2 url_A (blank_page url_A) g g')
    as (Hget & _ & Hother).
  - apply (bool_decide_unpack _). vm_compute. reflexivity.
  - exact Hadd.
  - split; [exact Hget|]. split.
    + rewrite Hother by (vm_compute; discriminate).
      destruct (decide _) as [_|Hn]; [reflexivity|].
      exfalso. apply Hn. vm_compute. reflexivity.
    + rewrite Hother by (vm_compute; discriminate).
      destruct (decide _) as [Hy|_]; [vm_compute in Hy; discriminate|].
      vm_compute. reflexivity.
Defined.

Lemma add_to_cache_bookkeeping_witness :
  exists g',
    add_to_cache (E:=offline) 2 url_A (blank_page url_A)
                 (mkGlobals (numbered_entries 2) [] ∅)
    = Some g'
    /\ length (page_cache g') <= 2.
Proof.
  set (g := mkGlobals (numbered_entries 2) [] ∅).
  destruct (add_to_cache (E:=offline) 2 url_A (blank_page url_A) g)
    as [g'|] eqn:Hadd; [|vm_compute in Hadd; discriminate].
  exists g'. split; [reflexivity|].
  destruct (add_to_cache_bookkeeping (E:=offline) 2 url_A
              (blank_page url_A) g g' Hadd) as (Hlen & _).
  replace (length (page_cache g)) with 2 in Hlen by (vm_compute; reflexivity).
  lia.
Defined.

(** ** Fetcher *)

Section FetchFacts.
Context `{E : Externals}.

Lemma main_links_spec url hrefs links disc :
  (Forall (link_ok url) links ->
   Forall (link_ok url) (main_links url hrefs links disc).1)
  /\ disc ⊆ (main_links url hrefs links disc).2
  /\ (forall l, l ∈ (main_links url hrefs links disc).1 ->
        l ∈ links \/ l ∈ (main_links url hrefs links disc).2).
Proof.
  revert links disc. induction hrefs as [|h hrefs IH]; intros links disc; simpl.
  - split; [auto|]. split; [reflexivity | auto].
  - destruct (is_docs_url h && negb (String.eqb h url)) eqn:Hc.
    + apply andb_true_iff in Hc as [Hd Hn]. apply negb_true_iff in Hn.
      apply String.eqb_neq in Hn.
      destruct (IH (links ++ [h]) ({[h]} ∪ disc)) as (H1 & H2 & H3).
      split; [|split].
      * intros Hl. apply H1. apply Forall_app. split; [exact Hl|].
        repeat constructor; assumption.
      * intros x Hx. apply H2, elem_of_union. now right.
      * intros l Hl. destruct (H3 l Hl) as [Hin|Hin]; [|now right].
        apply elem_of_app in Hin as [Hin|Hin]; [now left|].
        apply list_elem_of_singleton in Hin as ->. right.
        apply H2, elem_of_union. left. now apply elem_of_singleton.
    + apply IH.
Qed.

Lemma nav_links_spec url hrefs links disc :
  (Forall (link_ok url) links ->
   Forall (link_ok url) (nav_links url hrefs links disc).1)
  /\ disc ⊆ (nav_links url hrefs links disc).2
  /\ (forall l, l ∈ (nav_links url hrefs links disc).1 ->
        l ∈ links \/ l ∈ (nav_links url hrefs links disc).2).
Proof.
  revert links disc. induction hrefs as [|h hrefs IH]; intros links disc; simpl.
  - split; [auto|]. split; [reflexivity | auto].
  - destruct (is_docs_url h && negb (String.eqb h url) && negb (in_list h links))
      eqn:Hc.
    + apply andb_true_iff in Hc as [Hc _].
      apply andb_true_iff in Hc as [Hd Hn]. apply negb_true_iff in Hn.
      apply String.eqb_neq in Hn.
      destruct (IH (links ++ [h]) ({[h]} ∪ disc)) as (H1 & H2 & H3).
      split; [|split].
      * intros Hl. apply H1. apply Forall_app. split; [exact Hl|].
        repeat constructor; assumption.
      * intros x Hx. apply H2, elem_of_union. now right.
      * intros l Hl. destruct (H3 l Hl) as [Hin|Hin]; [|now right].
        apply elem_of_app in Hin as [Hin|Hin]; [now left|].
        apply list_elem_of_singleton in Hin as ->. right.
        apply H2, elem_of_union. left. now apply elem_of_singleton.
    + apply IH.
Qed.

(** The three ways [fetch_page] returns: a cache hit; a failure record,
    which leaves the two dictionaries as they were and can only have
    added to [discovered_urls]; or a new page that is cached. With
    [CACHE_SIZE] positive the insertion cannot raise. *)
Lemma fetch_page_cases url g w :
  (exists cached, Dict.get url (page_cache g) = Some cached
                  /\ fetch_page url g w = (cached, g, w))
  \/ (Dict.get url (page_cache g) = None
      /\ exists p g' w', fetch_page url g w = (p, g', w')
           /\ page_cache g' = page_cache g
           /\ url_to_cache_key g' = url_to_cache_key g
           /\ discovered_urls g ⊆ discovered_urls g'
           /\ ((forall msg hrefs nav, (http_get url w).1 <> LinkError msg hrefs nav)
               -> g' = g)
           /\ page_success p = false /\ page_links p = [] /\ page_url p = url
           /\ (page_title p = "Network Error" \/ page_title p = "Parse Error"))
  \/ (Dict.get url (page_cache g) = None
      /\ exists title content hrefs nav links disc g2 w',
           http_get url w = (Parsed title content hrefs nav, w')
           /\ Forall (link_ok url) links
           /\ discovered_urls g ⊆ disc
           /\ (forall l, l ∈ links -> l ∈ disc)
           /\ add_to_cache CACHE_SIZE url
                (mkPage url (clean_title title) content (set_order links) true)
                (mkGlobals (page_cache g) (url_to_cache_key g) disc)
              = Some g2
           /\ fetch_page url g w
              = (mkPage url (clean_title title) content (set_order links) true,
                 g2, w')).
Proof.
  unfold fetch_page.
  destruct (Dict.get url (page_cache g)) as [cached|] eqn:Hget; [left; eauto|].
  right.
  destruct (http_get url w)
    as [[msg|msg|title content hrefs nav|msg hrefs nav] w'] eqn:Hh.
  - left. split; [reflexivity|]. eexists _, _, _. split; [reflexivity|].
    simpl. auto 12.
  - left. split; [reflexivity|]. eexists _, _, _. split; [reflexivity|].
    simpl. auto 12.
  - right. split; [reflexivity|].
    destruct (main_links_spec url hrefs [] (discovered_urls g)) as (M1 & M2 & M3).
    destruct (main_links url hrefs [] (discovered_urls g)) as [links1 disc1].
    destruct (nav_links_spec url nav links1 disc1) as (N1 & N2 & N3).
    destruct (nav_links url nav links1 disc1) as [links disc]. simpl in *.
    set (result := mkPage url (clean_title title) content (set_order links) true).
    set (g1 := mkGlobals (page_cache g) (url_to_cache_key g) disc).
    destruct (add_to_cache_succeeds CACHE_SIZE url result g1) as [g2 Hadd].
    { left. unfold CACHE_SIZE. lia. }
    rewrite Hadd. exists title, content, hrefs, nav, links, disc, g2, w'.
    split; [reflexivity|]. split; [apply N1, M1; constructor|].
    split; [intros x Hx; apply N2, M2, Hx|].
    split; [|split; [exact Hadd | reflexivity]].
    intros l Hl. destruct (N3 l Hl) as [Hin|Hin]; [|exact Hin].
    destruct (M3 l Hin) as [Hnil|Hd]; [inversion Hnil | apply N2, Hd].
  - left. split; [reflexivity|].
    destruct (main_links_spec url hrefs [] (discovered_urls g)) as (_ & M2 & _).
    destruct (main_links url hrefs [] (discovered_urls g)) as [links1 disc1].
    destruct (nav_links_spec url nav links1 disc1) as (_ & N2 & _).
    destruct (nav_links url nav links1 disc1) as [links disc]. simpl in *.
    eexists _, _, _. split; [reflexivity|]. simpl.
    split; [reflexivity|]. split; [reflexivity|].
    split; [intros x Hx; apply N2, M2, Hx|].
    split; [intros Hno; exfalso; exact (Hno msg hrefs nav eq_refl)|]. auto.
Qed.

Lemma entry_ok_cached g url p :
  Forall entry_ok (page_cache g) -> Dict.get url (page_cache g) = Some p ->
  entry_ok (url, p).
Proof.
  intros Hall Hget. apply dict_get_elem in Hget.
  exact (proj1 (Forall_forall _ _) Hall _ Hget).
Qed.

Lemma add_to_cache_wf url p g g' :
  cache_wf g -> entry_ok (url, p) ->
  add_to_cache CACHE_SIZE url p g = Some g' -> cache_wf g'.
Proof.
  intros (Hnd & Hall & Hlen) Hp Hadd.
  destruct (add_to_cache_shape CACHE_SIZE url p g g' Hadd) as (pc & uk & -> & Hcase).
  unfold cache_wf. simpl.
  destruct Hcase as [(Hlt & -> & _)|(oldest & Hle & _ & Hf & -> & _)].
  - split; [now apply dict_set_NoDup|].
    split; [now apply dict_set_Forall_entry|].
    rewrite dict_set_length. destruct (Dict.mem url (page_cache g)); lia.
  - split; [now apply dict_set_NoDup, dict_del_NoDup|].
    split; [apply dict_set_Forall_entry; [now apply dict_del_Forall | exact Hp]|].
    rewrite dict_set_length.
    destruct (page_cache g) as [|[k v] rest] eqn:Hc; [discriminate|].
    simpl in Hf. inversion Hf; subst k. rewrite dict_del_head.
    simpl in Hlen. destruct (Dict.mem url rest); lia.
Qed.

(** [fetch_page] keeps the cache well formed and returns a page for the
    URL asked; a successful page has its links in scope, without itself
    and without repetition. *)
Lemma fetch_page_wf_aux url g w :
  cache_wf g ->
  cache_wf (fetch_page url g w).1.2
  /\ page_url (fetch_page url g w).1.1 = url
  /\ (page_success (fetch_page url g w).1.1 = true ->
      entry_ok (url, (fetch_page url g w).1.1)).
Proof.
  intros Hwf.
  destruct (fetch_page_cases url g w)
    as [(cached & Hget & ->)
       |[(_ & p & g' & w' & -> & Hpc & _ & _ & _ & Hs & _ & Hu & _)
       |(_ & title & content & hrefs & nav & links & disc & g2 & w'
           & _ & Hl & _ & _ & Hadd & ->)]]; simpl.
  - pose proof (entry_ok_cached g url cached (proj1 (proj2 Hwf)) Hget) as Hok.
    split; [exact Hwf|]. split; [apply Hok | intros _; exact Hok].
  - split; [unfold cache_wf; rewrite Hpc; exact Hwf|].
    split; [exact Hu | congruence].
  - assert (Hok : entry_ok (url, mkPage url (clean_title title) content
                                   (set_order links) true)).
    { unfold entry_ok. simpl. split; [reflexivity|]. split; [reflexivity|].
      split; [apply set_order_NoDup|].
      apply Forall_forall. intros l Hin.
      apply (proj1 (set_order_elem links l)) in Hin.
      exact (proj1 (Forall_forall _ _) Hl l Hin). }
    split; [|split; [reflexivity | intros _; exact Hok]].
    eapply add_to_cache_wf; [|exact Hok|exact Hadd]. exact Hwf.
Qed.

End FetchFacts.

Section FetchExtras.
Context `{E : Externals}.

(** X3. A page fetched with success is cached: asking for the same URL
    again, straight away, returns the same record and changes neither the
    module state nor the network. *)
Theorem fetch_page_repeat (url : string) (g : Globals) (w w2 : World) :
  page_success (fetch_page url g w).1.1 = true ->
  fetch_page url (fetch_page url g w).1.2 w2
  = ((fetch_page url g w).1.1, (fetch_page url g w).1.2, w2).
Proof.
  destruct (fetch_page_cases url g w)
    as [(cached & Hget & ->)
       |[(_ & p & g' & w' & -> & _ & _ & _ & _ & Hs & _)
       |(_ & title & content & hrefs & nav & links & disc & g2 & w'
           & _ & _ & _ & _ & Hadd & ->)]]; simpl; intros Hok.
  - unfold fetch_page. now rewrite Hget.
  - congruence.
  - destruct (add_to_cache_shape _ _ _ _ _ Hadd) as (pc & uk & -> & _).
    unfold fetch_page. simpl. now rewrite dict_get_set_eq.
Qed.

(** X4. A fetch that fails is not cached: [page_cache] and
    [url_to_cache_key] are as before, so the next call asks the network
    again, and [discovered_urls] has at most grown; unless the failure is
    an exception raised inside the link loops, after some links were
    recorded, the module state is unchanged altogether. On a cache miss
    the failure record carries the URL, no link, and one of the two error
    titles. *)
Theorem fetch_page_failure (url : string) (g : Globals) (w : World) :
  page_success (fetch_page url g w).1.1 = false ->
  page_cache (fetch_page url g w).1.2 = page_cache g
  /\ url_to_cache_key (fetch_page url g w).1.2 = url_to_cache_key g
  /\ discovered_urls g ⊆ discovered_urls (fetch_page url g w).1.2
  /\ ((forall msg hrefs nav, (http_get url w).1 <> LinkError msg hrefs nav) ->
      (fetch_page url g w).1.2 = g)
  /\ (Dict.get url (page_cache g) = None ->
      page_url (fetch_page url g w).1.1 = url
      /\ page_links (fetch_page url g w).1.1 = []
      /\ (page_title (fetch_page url g w).1.1 = "Network Error"
          \/ page_title (fetch_page url g w).1.1 = "Parse Error")).
Proof.
  destruct (fetch_page_cases url g w)
    as [(cached & Hget & ->)
       |[(_ & p & g' & w' & -> & Hpc & Huk & Hd & Hsame & Hs & Hl & Hu & Ht)
       |(_ & title & content & hrefs & nav & links & disc & g2 & w'
           & _ & _ & _ & _ & Hadd & ->)]]; simpl; intros Hfail.
  - split; [reflexivity|]. split; [reflexivity|]. split; [reflexivity|].
    split; [reflexivity | congruence].
  - split; [exact Hpc|]. split; [exact Huk|]. split; [exact Hd|].
    split; [exact Hsame | auto].
  - discriminate.
Qed.

(** X5. [fetch_page] keeps a well-formed cache well formed (a dictionary
    of at most [CACHE_SIZE] successful pages, each under its own URL),
    always returns a record for the URL asked, and a successful record
    names each link once, every link in scope ([is_docs_url]) and none
    equal to the page's own URL. *)
Theorem fetch_page_well_formed (url : string) (g : Globals) (w : World) :
  cache_wf g ->
  cache_wf (fetch_page url g w).1.2
  /\ page_url (fetch_page url g w).1.1 = url
  /\ (page_success (fetch_page url g w).1.1 = true ->
      NoDup (page_links (fetch_page url g w).1.1)
      /\ Forall (fun link => is_docs_url link = true /\ link <> url)
                (page_links (fetch_page url g w).1.1)).
Proof.
  intros Hwf. destruct (fetch_page_wf_aux url g w Hwf) as (Hg & Hu & Hok).
  split; [exact Hg|]. split; [exact Hu|]. intros Hs.
  destruct (Hok Hs) as (_ & _ & Hnd & Hall). split; assumption.
Qed.

(** X6. [fetch_page] only adds to [discovered_urls], and every link of a
    page it has just fetched from the network is recorded there. *)
Theorem fetch_page_discovered (url : string) (g : Globals) (w : World) :
  discovered_urls g ⊆ discovered_urls (fetch_page url g w).1.2
  /\ (Dict.get url (page_cache g) = None ->
      forall link, link ∈ page_links (fetch_page url g w).1.1 ->
                   link ∈ discovered_urls (fetch_page url g w).1.2).
Proof.
  destruct (fetch_page_cases url g w)
    as [(cached & Hget & ->)
       |[(_ & p & g' & w' & -> & _ & _ & Hd & _ & Hs & Hl & _)
       |(_ & title & content & hrefs & nav & links & disc & g2 & w'
           & _ & _ & Hsub & Hin & Hadd & ->)]]; simpl.
  - split; [reflexivity | congruence].
  - split; [exact Hd|]. intros _ link Hlink. rewrite Hl in Hlink. inversion Hlink.
  - destruct (add_to_cache_shape _ _ _ _ _ Hadd) as (pc & uk & -> & _). simpl.
    split; [exact Hsub|]. intros _ link Hlink.
    apply Hin. now apply (proj1 (set_order_elem links link)).
Qed.

End FetchExtras.

Lemma cache_wf_empty : cache_wf empty_globals.
Proof.
  unfold cache_wf, empty_globals, CACHE_SIZE. simpl.
  split; [constructor|]. split; [constructor | lia].
Qed.

(** The DAM overview, fetched twice from an empty cache. *)
Lemma fetch_page_repeat_witness :
  fetch_page (E:=dam_site) dam_overview_url
             (fetch_page (E:=dam_site) dam_overview_url empty_globals tt).1.2 tt
  = ((fetch_page (E:=dam_site) dam_overview_url empty_globals tt).1.1,
     (fetch_page (E:=dam_site) dam_overview_url empty_globals tt).1.2, tt).
Proof.
  apply (fetch_page_repeat (E:=dam_site) dam_overview_url empty_globals tt tt).
  vm_compute. reflexivity.
Defined.

(** The page A links to B and then to a target that [urljoin] rejects:
    the fetch fails, nothing is cached, and B has been recorded. *)
Lemma fetch_page_failure_witness :
  page_cache (fetch_page (E:=broken_link_site) url_A empty_globals tt).1.2 = []
  /\ discovered_urls (fetch_page (E:=broken_link_site) url_A empty_globals tt).1.2
     = {[url_B]}.
Proof.
  split.
  - refine (proj1 (fetch_page_failure (E:=broken_link_site) url_A empty_globals tt _)).
    vm_compute. reflexivity.
  - vm_compute. reflexivity.
Defined.

Lemma fetch_page_well_formed_witness :
  cache_wf (fetch_page (E:=abc_site) url_A empty_globals tt).1.2
  /\ page_url (fetch_page (E:=abc_site) url_A empty_globals tt).1.1 = url_A.
Proof.
  destruct (fetch_page_well_formed (E:=abc_site) url_A empty_globals tt
              cache_wf_empty) as (Hwf & Hu & _).
  split; assumption.
Defined.

(** ** Crawler, continued *)

Section CrawlMore.
Context `{E : Externals}.

Lemma dict_keys_set_sub {V} (d : Dict.t V) k v x :
  x ∈ Dict.keys d -> x ∈ Dict.keys (Dict.set k v d).
Proof.
  intros Hx. rewrite dict_keys_set. destruct (Dict.mem k d); [exact Hx|].
  apply elem_of_app. now left.
Qed.

Lemma dict_keys_set_in {V} (d : Dict.t V) k v : k ∈ Dict.keys (Dict.set k v d).
Proof.
  rewrite dict_keys_set. destruct (Dict.mem k d) eqn:Hm.
  - now apply dict_mem_keys.
  - apply elem_of_app. right. now apply list_elem_of_singleton.
Qed.

Lemma enqueued_depth max_depth st url depth rest page :
  Forall (fun item => item_depth item = (depth + 1)%Z
                      /\ (depth < max_depth)%Z /\ page_success page = true)
         (enqueued max_depth st url depth rest page).
Proof.
  unfold enqueued. destruct (page_success page); [|constructor].
  destruct (Z.ltb_spec depth max_depth); [|constructor]. cbn [andb].
  destruct (partition_links _ _ _ _) as [same other].
  apply Forall_app. split; apply Forall_forall; intros item Hin;
    apply list_elem_of_fmap in Hin as (l & -> & _); simpl; auto.
Qed.

(** *** The result dictionary *)

Lemma result_inv_step max_depth st :
  result_inv st -> result_inv (crawl_iteration max_depth st).
Proof.
  intros (Hall & Hnd & Hlen).
  destruct (to_visit st) as [|[[url depth] hint] rest] eqn:Hq;
    [now rewrite crawl_iteration_nil|].
  destruct (crawl_guards max_depth st url depth) as [Hskip|(Hv & Hd & Hn)].
  - destruct (crawl_iteration_skip max_depth st url depth hint rest Hq Hskip)
      as (Hvis & _ & Hpages & Hlog & _).
    unfold result_inv. rewrite Hvis, Hpages, Hlog. auto.
  - destruct (crawl_iteration_visit max_depth st url depth hint rest Hq Hv Hd Hn)
      as (Hvis & _ & Hpages & _ & Hlog & _).
    unfold result_inv. rewrite Hvis, Hpages, Hlog, attempted_app. simpl attempted.
    assert (Htail : forall (b : bool) (c : string),
              attempted (if b then [LogFailedToFetch url c] else []) = [])
      by (intros [|] c; reflexivity).
    rewrite Htail, length_app. simpl length.
    assert (Hold : Forall (fun entry => page_success entry.2 = true
                                        /\ entry.1 ∈ {[url]} ∪ visited st)
                          (all_pages st)).
    { eapply Forall_impl; [exact Hall|]. simpl. intros e [? ?].
      split; [assumption|]. apply elem_of_union. now right. }
    destruct (page_success (fetch_page url (crawl_globals st) (crawl_world st)).1.1)
      eqn:Hs.
    + split; [|split].
      * apply dict_set_Forall_entry; [exact Hold|]. simpl. split; [exact Hs|].
        apply elem_of_union. left. now apply elem_of_singleton.
      * now apply dict_set_NoDup.
      * rewrite dict_set_length. destruct (Dict.mem url (all_pages st)); lia.
    + split; [exact Hold|]. split; [exact Hnd | lia].
Qed.

Lemma result_inv_init start_urls g w : result_inv (crawl_init start_urls g w).
Proof. unfold result_inv. simpl. repeat split; constructor. Qed.

(** *** Scope *)

Lemma scope_inv_step max_depth seeds st :
  scope_inv seeds st -> scope_inv seeds (crawl_iteration max_depth st).
Proof.
  intros (Hwf & Hpages & Hfront & Hvisited).
  destruct (to_visit st) as [|[[url depth] hint] rest] eqn:Hq;
    [rewrite crawl_iteration_nil by exact Hq; unfold scope_inv; rewrite Hq; auto|].
  apply Forall_cons in Hfront as [Hhead Hrest]. simpl in Hhead.
  destruct (crawl_guards max_depth st url depth) as [Hskip|(Hv & Hd & Hn)].
  - destruct (crawl_iteration_skip max_depth st url depth hint rest Hq Hskip)
      as (Hvis & Hto & Hall & _ & Hg & _).
    unfold scope_inv. rewrite Hvis, Hto, Hall, Hg. auto.
  - destruct (crawl_iteration_visit max_depth st url depth hint rest Hq Hv Hd Hn)
      as (Hvis & Hto & Hall & _ & _ & Hg & _).
    destruct (fetch_page_wf_aux url (crawl_globals st) (crawl_world st) Hwf)
      as (Hwf' & Hurl & Hok).
    unfold scope_inv. rewrite Hvis, Hto, Hall, Hg.
    split; [exact Hwf'|]. split; [|split].
    + destruct (page_success _) eqn:Hs; [|exact Hpages].
      apply dict_set_Forall_entry; [exact Hpages | now apply Hok].
    + apply Forall_app. split; [exact Hrest|].
      apply Forall_forall. intros item Hin. right.
      pose proof (proj1 (Forall_forall _ _)
                    (enqueued_depth max_depth st url depth rest _) item Hin)
        as (_ & _ & Hs).
      destruct (enqueued_spec max_depth st url depth rest
                  (fetch_page url (crawl_globals st) (crawl_world st)).1.1)
        as (_ & _ & Hnew & _).
      destruct (Hnew (item_url item)) as (Hlink & _).
      { apply list_elem_of_fmap. exists item. split; [reflexivity | exact Hin]. }
      destruct (Hok Hs) as (_ & _ & _ & Hscope).
      exact (proj1 (proj1 (Forall_forall _ _) Hscope _ Hlink)).
    + intros u Hu. apply elem_of_union in Hu as [Hu|Hu]; [|now apply Hvisited].
      apply elem_of_singleton in Hu as ->. exact Hhead.
Qed.

Lemma scope_inv_init start_urls g w :
  cache_wf g -> scope_inv start_urls (crawl_init start_urls g w).
Proof.
  intros Hwf. unfold scope_inv. simpl. split; [exact Hwf|].
  split; [constructor|]. split.
  - apply Forall_forall. intros item Hin.
    apply list_elem_of_fmap in Hin as (u & -> & Hu). now left.
  - intros u Hu. inversion Hu.
Qed.

(** *** Depths and log records *)

Lemma depth_inv_step max_depth st :
  depth_inv max_depth st -> depth_inv max_depth (crawl_iteration max_depth st).
Proof.
  intros (Hfront & Hlog).
  destruct (to_visit st) as [|[[url depth] hint] rest] eqn:Hq;
    [rewrite crawl_iteration_nil by exact Hq; unfold depth_inv; rewrite Hq; auto|].
  apply Forall_cons in Hfront as [Hhead Hrest]. unfold item_depth in Hhead.
  simpl in Hhead.
  destruct (crawl_guards max_depth st url depth) as [Hskip|(Hv & Hd & Hn)].
  - destruct (crawl_iteration_skip max_depth st url depth hint rest Hq Hskip)
      as (Hvis & Hto & Hall & Hl & _).
    unfold depth_inv. rewrite Hto, Hl. split; [exact Hrest|].
    eapply Forall_impl; [exact Hlog|]. intros [a u d n|u c]; simpl.
    + now rewrite Hvis.
    + now rewrite Hall.
  - destruct (crawl_iteration_visit max_depth st url depth hint rest Hq Hv Hd Hn)
      as (Hvis & Hto & Hall & _ & Hl & _).
    unfold depth_inv. rewrite Hto, Hl. split.
    + apply Forall_app. split; [exact Hrest|].
      eapply Forall_impl; [apply enqueued_depth|]. simpl.
      intros item (Heq & Hlt & _). rewrite Heq. lia.
    + apply Forall_app. split.
      * eapply Forall_impl; [exact Hlog|]. intros [a u d n|u c]; simpl.
        -- rewrite Hvis. intros (Ha & Hdd & Hvv).
           split; [exact Ha|]. split; [exact Hdd|].
           apply elem_of_union. now right.
        -- rewrite Hall. intros Hin. destruct (page_success _); [|exact Hin].
           now apply dict_keys_set_sub.
      * constructor.
        -- simpl. rewrite Hvis. split; [reflexivity|]. split; [lia|].
           apply elem_of_union. left. now apply elem_of_singleton.
        -- destruct (page_success _) eqn:Hs; simpl; [|constructor].
           destruct (negb (depth <? max_depth)%Z); [|constructor].
           constructor; [|constructor]. simpl. rewrite Hall.
           apply dict_keys_set_in.
Qed.

Lemma depth_inv_init max_depth start_urls g w :
  depth_inv max_depth (crawl_init start_urls g w).
Proof.
  split; [|constructor]. simpl. apply Forall_forall. intros item Hin.
  apply list_elem_of_fmap in Hin as (u & -> & _). unfold item_depth. simpl. lia.
Qed.

(** *** Depth limits of zero and below *)

Lemma suffix_head_depth (init : list FrontierItem) item rest :
  Forall (fun i => item_depth i = 0%Z) init ->
  (item :: rest) `suffix_of` init -> item_depth item = 0%Z.
Proof.
  intros Hall [pre ->]. apply Forall_app in Hall as [_ Hall].
  now apply Forall_cons in Hall as [? _].
Qed.

Lemma seeds_only_step max_depth init st :
  (max_depth <= 0)%Z -> Forall (fun i => item_depth i = 0%Z) init ->
  seeds_only_inv init st -> seeds_only_inv init (crawl_iteration max_depth st).
Proof.
  intros Hmax Hzero (Hsuf & Hvisited).
  destruct (to_visit st) as [|[[url depth] hint] rest] eqn:Hq;
    [rewrite crawl_iteration_nil by exact Hq; unfold seeds_only_inv;
     rewrite Hq; auto|].
  pose proof (suffix_head_depth init _ _ Hzero Hsuf) as Hdepth.
  unfold item_depth in Hdepth. simpl in Hdepth. subst depth.
  assert (Hrest : rest `suffix_of` init) by (now apply suffix_cons_l in Hsuf).
  destruct (crawl_guards max_depth st url 0) as [Hskip|(Hv & Hd & Hn)].
  - destruct (crawl_iteration_skip max_depth st url 0 hint rest Hq Hskip)
      as (Hvis & Hto & _).
    unfold seeds_only_inv. rewrite Hvis, Hto. auto.
  - destruct (crawl_iteration_visit max_depth st url 0 hint rest Hq Hv Hd Hn)
      as (Hvis & Hto & _).
    unfold seeds_only_inv. rewrite Hvis, Hto.
    assert (Hnone : enqueued max_depth st url 0 rest
                      (fetch_page url (crawl_globals st) (crawl_world st)).1.1 = []).
    { pose proof (enqueued_depth max_depth st url 0 rest
                    (fetch_page url (crawl_globals st) (crawl_world st)).1.1) as Hall.
      destruct (enqueued _ _ _ _ _ _) as [|item new]; [reflexivity|].
      apply Forall_cons in Hall as [(_ & Hlt & _) _]. lia. }
    rewrite Hnone, app_nil_r. split; [exact Hrest|].
    intros u Hu. apply elem_of_union in Hu as [Hu|Hu]; [|now apply Hvisited].
    apply elem_of_singleton in Hu as ->.
    destruct Hsuf as [pre ->]. rewrite map_app. apply elem_of_app. right.
    simpl. left.
Qed.

Lemma idle_step max_depth init st :
  (max_depth < 0)%Z -> Forall (fun i => item_depth i = 0%Z) (to_visit init) ->
  idle_inv init st -> idle_inv init (crawl_iteration max_depth st).
Proof.
  intros Hmax Hzero (Hsuf & Hrest).
  destruct (to_visit st) as [|[[url depth] hint] rest] eqn:Hq;
    [rewrite crawl_iteration_nil by exact Hq; unfold idle_inv; rewrite Hq; auto|].
  pose proof (suffix_head_depth _ _ _ Hzero Hsuf) as Hdepth.
  unfold item_depth in Hdepth. simpl in Hdepth. subst depth.
  destruct (crawl_iteration_skip max_depth st url 0 hint rest Hq)
    as (Hvis & Hto & Hall & Hlog & Hg & Hw & _); [right; left; lia|].
  unfold idle_inv. rewrite Hvis, Hto, Hall, Hlog, Hg, Hw.
  split; [now apply suffix_cons_l in Hsuf | exact Hrest].
Qed.

Lemma crawl_init_depths start_urls g w :
  Forall (fun i => item_depth i = 0%Z) (to_visit (crawl_init start_urls g w)).
Proof.
  simpl. apply Forall_forall. intros item Hin.
  now apply list_elem_of_fmap in Hin as (u & -> & _).
Qed.

(** *** The number of attempts *)

Lemma per_area_total_out (areas l : list string) (x : string) :
  get_product_area x ∉ areas ->
  per_area_total areas (x :: l) = per_area_total areas l.
Proof.
  induction areas as [|a areas IH]; simpl; [reflexivity|]. intros Hx.
  apply not_elem_of_cons in Hx as [Hne Hx].
  rewrite filter_cons_False by exact Hne. now rewrite IH.
Qed.

Lemma per_area_total_in (areas l : list string) (x : string) :
  NoDup areas -> get_product_area x ∈ areas ->
  per_area_total areas (x :: l) = S (per_area_total areas l).
Proof.
  induction areas as [|a areas IH]; simpl; intros Hnd Hx; [inversion Hx|].
  apply NoDup_cons in Hnd as [Ha Hnd].
  destruct (decide (get_product_area x = a)) as [Heq|Hne].
  - rewrite filter_cons_True by exact Heq. simpl.
    fold (per_area_total areas (x :: l)). fold (per_area_total areas l).
    rewrite per_area_total_out by (now rewrite Heq). reflexivity.
  - rewrite filter_cons_False by exact Hne.
    apply elem_of_cons in Hx as [?|Hx]; [contradiction|].
    fold (per_area_total areas (x :: l)). fold (per_area_total areas l).
    rewrite IH by assumption. lia.
Qed.

Lemma per_area_total_length (l : list string) :
  per_area_total all_areas l = length l.
Proof.
  induction l as [|x l IH].
  - unfold per_area_total. induction all_areas as [|a areas IHa]; simpl; auto.
  - rewrite per_area_total_in, IH;
      [reflexivity | apply all_areas_NoDup | apply get_product_area_in].
Qed.

Lemma per_area_total_bound (areas l : list string) (b : nat) :
  (forall a, length (filter (fun u => get_product_area u = a) l) <= b) ->
  per_area_total areas l <= length areas * b.
Proof.
  intros Hb. induction areas as [|a areas IH]; simpl; [lia|].
  specialize (Hb a). fold (per_area_total areas l). lia.
Qed.

End CrawlMore.

Section CrawlExtras.
Context `{E : Externals}.
Variables (start_urls : option (list string)) (max_depth : Z).
Variables (g : Globals) (w : World).

Local Abbreviation seeds := (default_start_urls start_urls).
Local Abbreviation st0 := (crawl_init (default_start_urls start_urls) g w).

(** X7. At every point of a crawl the result dictionary holds only pages
    whose fetch succeeded, each under a URL that has been visited, and no
    URL twice. *)
Theorem crawl_result_pages (n : nat) :
  let st := crawl_after n max_depth st0 in
  (forall u p, Dict.get u (all_pages st) = Some p ->
               page_success p = true /\ u ∈ visited st)
  /\ NoDup (Dict.keys (all_pages st)).
Proof.
  intros st.
  assert (Hinv : result_inv st).
  { apply crawl_after_ind; [apply result_inv_init | apply result_inv_step]. }
  destruct Hinv as (Hall & Hnd & _). split; [|exact Hnd].
  intros u p Hget. apply dict_get_elem in Hget.
  exact (proj1 (Forall_forall _ _) Hall _ Hget).
Qed.

(** X8. With a depth limit of zero or less nothing is ever enqueued: the
    frontier is always what is left of the seed list, and only seed URLs
    are visited or returned. *)
Theorem crawl_depth_zero_no_expansion (n : nat) :
  (max_depth <= 0)%Z ->
  let st := crawl_after n max_depth st0 in
  to_visit st `suffix_of` to_visit st0
  /\ (forall u, u ∈ visited st -> u ∈ seeds)
  /\ (forall u, u ∈ Dict.keys (all_pages st) -> u ∈ seeds).
Proof.
  intros Hmax st.
  assert (Hinv : seeds_only_inv (to_visit st0) st).
  { apply crawl_after_ind.
    - split; [reflexivity|]. intros u Hu. inversion Hu.
    - intros st'. apply seeds_only_step; [exact Hmax | apply crawl_init_depths]. }
  assert (Hres : result_inv st).
  { apply crawl_after_ind; [apply result_inv_init | apply result_inv_step]. }
  destruct Hinv as [Hsuf Hvis]. rewrite crawl_init_urls in Hvis.
  split; [exact Hsuf|]. split; [exact Hvis|].
  intros u Hu. apply Hvis.
  destruct Hres as (Hall & _ & _).
  apply list_elem_of_fmap in Hu as ([u' p] & -> & Hin).
  exact (proj2 (proj1 (Forall_forall _ _) Hall _ Hin)).
Qed.

(** X9. With a negative depth limit the loop of [crawl_docs] does
    nothing at all: no URL is visited, no page is fetched or returned,
    the loop writes none of its two log records (what is logged is the
    start line and the closing summary, which are written outside the
    loop), and module state and network are as before. *)
Theorem crawl_negative_depth_idle (n : nat) :
  (max_depth < 0)%Z ->
  let st := crawl_after n max_depth st0 in
  visited st = ∅ /\ all_pages st = [] /\ crawl_log st = []
  /\ crawl_globals st = g /\ crawl_world st = w.
Proof.
  intros Hmax st.
  assert (Hinv : idle_inv st0 st).
  { apply crawl_after_ind.
    - unfold idle_inv. auto 10.
    - intros st'. apply idle_step; [exact Hmax | apply crawl_init_depths]. }
  destruct Hinv as (_ & H1 & H2 & H3 & H4 & H5). auto.
Qed.

(** X10. Whatever the seeds, the depth limit and the site, a crawl
    attempts at most 825 fetches (75 for each of the eleven product areas)
    and returns at most as many pages. *)
Theorem crawl_attempts_bounded (n : nat) :
  let st := crawl_after n max_depth st0 in
  length (attempted (crawl_log st)) <= 825
  /\ length (all_pages st) <= length (attempted (crawl_log st)).
Proof.
  intros st.
  assert (Hb : budget_inv st).
  { apply crawl_after_ind; [apply budget_inv_init | apply budget_inv_step]. }
  assert (Hres : result_inv st).
  { apply crawl_after_ind; [apply result_inv_init | apply result_inv_step]. }
  split; [|apply Hres].
  rewrite <- per_area_total_length.
  change 825 with (length all_areas * 75).
  apply per_area_total_bound. intros a.
  destruct (Hb a) as [Hc Hle]. unfold MAX_PAGES_PER_PRODUCT in Hle. lia.
Qed.

(** X11. Started with a well-formed cache, the crawler only ever visits
    seed URLs and in-scope URLs: a link that [is_docs_url] rejects is
    never fetched. *)
Theorem crawl_stays_in_scope (n : nat) (u : string) :
  cache_wf g ->
  u ∈ visited (crawl_after n max_depth st0) ->
  u ∈ seeds \/ is_docs_url u = true.
Proof.
  intros Hwf.
  assert (Hinv : scope_inv seeds (crawl_after n max_depth st0)).
  { apply crawl_after_ind; [now apply scope_inv_init | apply scope_inv_step]. }
  apply Hinv.
Qed.

(** X12. Every fetch the crawl logs is for a visited URL at a depth
    between zero and the depth limit, under the product area of that URL;
    every item waiting in the frontier has a depth of at least zero and at
    most the larger of zero and the limit: a seed waits at depth 0 even
    when the limit is negative. *)
Theorem crawl_depth_within_limit (n : nat) :
  let st := crawl_after n max_depth st0 in
  (forall area url depth page,
     LogCrawling area url depth page ∈ crawl_log st ->
     area = get_product_area url /\ (0 <= depth <= max_depth)%Z
     /\ url ∈ visited st)
  /\ Forall (fun item => (0 <= item_depth item <= Z.max 0 max_depth)%Z)
            (to_visit st).
Proof.
  intros st.
  assert (Hinv : depth_inv max_depth st).
  { apply crawl_after_ind; [apply depth_inv_init | apply depth_inv_step]. }
  destruct Hinv as [Hfront Hlog]. split; [|exact Hfront].
  intros area url depth page Hin.
  exact (proj1 (Forall_forall _ _) Hlog _ Hin).
Qed.

(** X13. The [Failed to fetch] warning of [crawl_docs] belongs to the
    [else] of the depth test: each one names a URL whose fetch succeeded
    and whose page is in the result; a fetch that fails writes no
    warning. *)
Theorem crawl_failed_warning_means_success (n : nat) :
  let st := crawl_after n max_depth st0 in
  (forall url content,
     LogFailedToFetch url content ∈ crawl_log st ->
     exists p, Dict.get url (all_pages st) = Some p /\ page_success p = true)
  /\ (forall url depth hint rest,
        to_visit st = (url, depth, hint) :: rest ->
        page_success (fetch_page url (crawl_globals st) (crawl_world st)).1.1
        = false ->
        forall u c, LogFailedToFetch u c ∈ crawl_log (crawl_iteration max_depth st) ->
                    LogFailedToFetch u c ∈ crawl_log st).
Proof.
  intros st.
  assert (Hinv : depth_inv max_depth st).
  { apply crawl_after_ind; [apply depth_inv_init | apply depth_inv_step]. }
  assert (Hres : result_inv st).
  { apply crawl_after_ind; [apply result_inv_init | apply result_inv_step]. }
  split.
  - intros url content Hin.
    pose proof (proj1 (Forall_forall _ _) (proj2 Hinv) _ Hin) as Hkey. simpl in Hkey.
    apply dict_mem_keys, dict_get_mem in Hkey as [p Hp].
    exists p. split; [exact Hp|].
    apply dict_get_elem in Hp.
    exact (proj1 (proj1 (Forall_forall _ _) (proj1 Hres) _ Hp)).
  - intros url depth hint rest Hq Hfail u c Hin.
    destruct (crawl_guards max_depth st url depth) as [Hskip|(Hv & Hd & Hn)].
    + destruct (crawl_iteration_skip max_depth st url depth hint rest Hq Hskip)
        as (_ & _ & _ & Hlog & _). now rewrite Hlog in Hin.
    + destruct (crawl_iteration_visit max_depth st url depth hint rest Hq Hv Hd Hn)
        as (_ & _ & _ & _ & Hlog & _).
      rewrite Hlog, Hfail in Hin. simpl in Hin.
      apply elem_of_app in Hin as [Hin|Hin]; [exact Hin|].
      apply list_elem_of_singleton in Hin. discriminate.
Qed.

(** X14. A crawl started with a well-formed cache leaves a well-formed
    cache, so never more than [CACHE_SIZE] pages, and every page of its
    result is stored under its own URL with its links in scope. *)
Theorem crawl_keeps_cache_well_formed (n : nat) :
  cache_wf g ->
  let st := crawl_after n max_depth st0 in
  cache_wf (crawl_globals st)
  /\ length (page_cache (crawl_globals st)) <= CACHE_SIZE
  /\ Forall entry_ok (all_pages st).
Proof.
  intros Hwf st.
  assert (Hinv : scope_inv seeds st).
  { apply crawl_after_ind; [now apply scope_inv_init | apply scope_inv_step]. }
  destruct Hinv as (Hc & Hp & _). split; [exact Hc|]. split; [apply Hc | exact Hp].
Qed.

End CrawlExtras.

(** The three-page site crawled from A with depth limit 0: the frontier
    is what is left of the seed list. *)
Lemma crawl_depth_zero_no_expansion_witness :
  to_visit (crawl_after (E:=abc_site) 3 0
              (crawl_init (E:=abc_site) [url_A] empty_globals tt))
  `suffix_of` to_visit (crawl_init (E:=abc_site) [url_A] empty_globals tt).
Proof.
  refine (proj1 (crawl_depth_zero_no_expansion (E:=abc_site)
                   (Some [url_A]) 0 empty_globals tt 3 _)).
  lia.
Defined.

Lemma crawl_negative_depth_idle_witness :
  all_pages (crawl_after (E:=abc_site) 3 (-1)
               (crawl_init (E:=abc_site) [url_A] empty_globals tt)) = [].
Proof.
  refine (proj1 (proj2 (crawl_negative_depth_idle (E:=abc_site)
                          (Some [url_A]) (-1) empty_globals tt 3 _))).
  lia.
Defined.

Lemma crawl_stays_in_scope_witness :
  url_B ∈ [url_A] \/ is_docs_url url_B = true.
Proof.
  apply (crawl_stays_in_scope (E:=abc_site) (Some [url_A]) 1 empty_globals tt 2 url_B).
  - exact cache_wf_empty.
  - apply (bool_decide_unpack _). vm_compute. reflexivity.
Defined.

Lemma crawl_keeps_cache_well_formed_witness :
  length (page_cache (crawl_globals
            (crawl_after (E:=abc_site) 3 1
               (crawl_init (E:=abc_site) [url_A] empty_globals tt))))
  <= CACHE_SIZE.
Proof.
  exact (proj1 (proj2 (crawl_keeps_cache_well_formed (E:=abc_site)
                         (Some [url_A]) 1 empty_globals tt 3 cache_wf_empty))).
Defined.

(** ** Strings, continued *)

Lemma contains_app_r (sub s t : string) :
  Str.contains sub s = true -> Str.contains sub (s +:+ t) = true.
Proof.
  induction s as [|c s IH].
  - simpl. rewrite orb_false_r. intros H.
    destruct sub; [apply contains_empty | discriminate].
  - change (String c s +:+ t) with (String c (s +:+ t)).
    cbn [Str.contains]. intros H. apply orb_true_iff in H as [H|H].
    + change (String c (s +:+ t)) with (String c s +:+ t).
      now rewrite (prefix_app _ _ t H).
    + rewrite (IH H). apply orb_true_r.
Qed.

Lemma contains_app_l (sub s t : string) :
  Str.contains sub t = true -> Str.contains sub (s +:+ t) = true.
Proof.
  intros H. induction s as [|c s IH]; [exact H|].
  change (String c s +:+ t) with (String c (s +:+ t)).
  cbn [Str.contains]. rewrite IH. apply orb_true_r.
Qed.

Lemma prefix_split (b s : string) :
  String.prefix b s = true -> exists y, s = b +:+ y.
Proof.
  revert s. induction b as [|c b IH]; intros s H.
  - exists s. reflexivity.
  - destruct s as [|c' s]; [discriminate|]. simpl in H.
    destruct (ascii_dec c c') as [->|]; [|discriminate].
    destruct (IH s H) as [y ->]. exists y. reflexivity.
Qed.

Lemma contains_split (b s : string) :
  Str.contains b s = true -> exists x y, s = x +:+ b +:+ y.
Proof.
  induction s as [|c s IH]; cbn [Str.contains]; intros H;
    apply orb_true_iff in H as [H|H]; try discriminate.
  - destruct (prefix_split _ _ H) as [y ->]. exists EmptyString, y. reflexivity.
  - destruct (prefix_split _ _ H) as [y ->]. exists EmptyString, y. reflexivity.
  - destruct (IH H) as (x & y & ->). exists (String c x), y. reflexivity.
Qed.

Lemma contains_refl (b : string) : Str.contains b b = true.
Proof.
  assert (H : String.prefix b b = true).
  { induction b as [|c b IH]; [reflexivity|]. simpl.
    destruct (ascii_dec c c); [exact IH | congruence]. }
  destruct b; [reflexivity|]. cbn [Str.contains]. now rewrite H.
Qed.

Lemma contains_trans (a b s : string) :
  Str.contains a b = true -> Str.contains b s = true -> Str.contains a s = true.
Proof.
  intros Hab Hbs. destruct (contains_split _ _ Hbs) as (x & y & ->).
  now apply contains_app_l, contains_app_r.
Qed.

(** [count] is zero exactly when the needle does not occur. *)
Lemma count_zero (s sub : string) :
  Str.count s sub = 0 <-> Str.contains sub s = false.
Proof.
  unfold Str.count. destruct sub as [|c sub'].
  - rewrite contains_empty. split; [lia | discriminate].
  - set (needle := String c sub'). induction s as [|c' s IH].
    + simpl. split; reflexivity.
    + cbn [Str.count_from Str.contains].
      destruct (String.prefix needle (String c' s)); simpl; [split; [lia|discriminate]|].
      exact IH.
Qed.

Lemma lower_ascii_idem (c : ascii) :
  Str.lower_ascii (Str.lower_ascii c) = Str.lower_ascii c.
Proof. destruct c as [[] [] [] [] [] [] [] []]; reflexivity. Qed.

Lemma lower_idem (s : string) : Str.lower (Str.lower s) = Str.lower s.
Proof.
  induction s as [|c s IH]; simpl; [reflexivity|].
  now rewrite lower_ascii_idem, IH.
Qed.

Lemma substring_length_le (n : nat) (s : string) :
  String.length (String.substring 0 n s) <= n.
Proof.
  revert s. induction n as [|n IH]; intros [|c s]; simpl; try lia.
  specialize (IH s). lia.
Qed.

(** ** Relevance engine, continued *)

Lemma any_in_extend (indicators : list string) (a s b : string) :
  any_in indicators s = true -> any_in indicators (a +:+ s +:+ b) = true.
Proof.
  unfold any_in. intros H. apply existsb_exists in H as (ind & Hin & Hc).
  apply existsb_exists. exists ind. split; [exact Hin|].
  now apply contains_app_l, contains_app_r.
Qed.

Lemma any_in_contains (indicators : list string) (c s : string) :
  forallb (fun ind => Str.contains c ind) indicators = true ->
  any_in indicators s = true -> Str.contains c s = true.
Proof.
  unfold any_in. intros Hall H. apply existsb_exists in H as (ind & Hin & Hc).
  rewrite forallb_forall in Hall. exact (contains_trans _ _ _ (Hall _ Hin) Hc).
Qed.

(** The decision of [is_memcached_related_query] as one expression. *)
Lemma is_memcached_related_query_spec (query : string) :
  is_memcached_related_query query
  = let q := Str.lower query in
    (any_in ["memcache"; "memcached"; "cache"; "caching"] q
     && any_in ["settings.php"; "settings"; "configuration"; "config"] q)
    || (any_in ["memcache"; "memcached"; "cache"; "caching"] q
        && any_in ["enable"; "enabling"; "configure"; "setup"; "install"; "add";
                   "integration"] q)
    || any_in ["enable memcached"; "memcache integration"; "memcached settings";
               "cache backend"; "acquia memcache"; "cloud classic memcache"] q.
Proof.
  unfold is_memcached_related_query. cbv zeta.
  generalize (Str.lower query). intros q.
  destruct (any_in ["memcache"; "memcached"; "cache"; "caching"] q);
    destruct (any_in ["settings.php"; "settings"; "configuration"; "config"] q);
    destruct (any_in ["enable"; "enabling"; "configure"; "setup"; "install";
                      "add"; "integration"] q);
    destruct (any_in ["enable memcached"; "memcache integration";
                      "memcached settings"; "cache backend"; "acquia memcache";
                      "cloud classic memcache"] q);
    reflexivity.
Qed.

Lemma sum_over_zero {A} (f : A -> Z) (l : list A) :
  (forall x, (0 <= f x)%Z) ->
  sum_over f l = 0%Z <-> Forall (fun x => f x = 0%Z) l.
Proof.
  intros Hf. induction l as [|x l IH]; simpl.
  - split; [constructor | reflexivity].
  - rewrite Forall_cons, <- IH.
    pose proof (Hf x). pose proof (sum_over_nonneg f l Hf). lia.
Qed.

(** X15. Recognition of a Memcached query only looks for substrings of
    the lower-cased query: text added before or after a recognised query
    leaves it recognised, and no query is recognised unless it contains
    [cach], in any case of letters. *)
Theorem memcached_query_extension (query : string) :
  is_memcached_related_query query = true ->
  (forall before after,
     is_memcached_related_query (before +:+ query +:+ after) = true)
  /\ Str.contains "cach" (Str.lower query) = true.
Proof.
  rewrite is_memcached_related_query_spec. cbv zeta. intros H. split.
  - intros before after. rewrite is_memcached_related_query_spec. cbv zeta.
    rewrite !lower_app.
    apply orb_true_iff in H as [H|H].
    + apply orb_true_iff in H as [H|H]; apply andb_true_iff in H as [H1 H2];
        rewrite (any_in_extend _ _ _ _ H1), (any_in_extend _ _ _ _ H2);
        cbn [andb]; [reflexivity|].
      apply orb_true_iff. left. apply orb_true_r.
    + rewrite (any_in_extend _ _ _ _ H). apply orb_true_r.
  - apply orb_true_iff in H as [H|H].
    + apply orb_true_iff in H as [H|H]; apply andb_true_iff in H as [H1 _];
        (eapply any_in_contains; [|exact H1]; reflexivity).
    + eapply any_in_contains; [|exact H]; reflexivity.
Qed.

Lemma memcached_query_extension_witness :
  is_memcached_related_query ("How do I " +:+ "enable memcached" +:+ " on Acquia?")
  = true.
Proof.
  apply (proj1 (memcached_query_extension "enable memcached" eq_refl)).
Defined.

(** X16. For a recognised Memcached query, every page stored under the
    pinned URL, and every page with [memcached] in its title, scores at
    least 1000. *)
Theorem memcached_boost (query : string) (p : Page) :
  is_memcached_related_query query = true ->
  page_url p = MEMCACHED_DOC_URL
  \/ Str.contains "memcached" (Str.lower (page_title p)) = true ->
  (1000 <= calculate_relevance query p)%Z.
Proof.
  intros Hrel Hpin. unfold calculate_relevance. rewrite Hrel.
  set (words := Str.split (Str.lower query)).
  assert (0 <= sum_over (fun word => if Str.contains word (Str.lower (page_title p)) then 1 else 0) words)%Z
    by (apply sum_over_nonneg; intros x; destruct (Str.contains x _); lia).
  assert (0 <= sum_over (fun word => Z.of_nat (Str.count (Str.lower (page_content p)) word)) words)%Z
    by (apply sum_over_nonneg; intros; lia).
  assert (0 <= sum_over (fun keyword => Z.of_nat (Str.count (Str.lower (page_content p)) keyword) * 50) memcache_keywords)%Z
    by (apply sum_over_nonneg; intros; lia).
  assert (Hb : String.eqb (page_url p) MEMCACHED_DOC_URL
               || Str.contains "memcached" (Str.lower (page_title p)) = true).
  { apply orb_true_iff. destruct Hpin as [Hu|Ht]; [left | now right].
    now apply String.eqb_eq. }
  rewrite Hb. destruct (Str.contains (Str.lower query) _); lia.
Qed.

Lemma memcached_boost_witness :
  (1000 <= calculate_relevance "configure caching"
             (mkPage url_A "Memcached basics" "" [] true))%Z.
Proof.
  apply memcached_boost; [reflexivity | right; reflexivity].
Defined.

(** X17. For a query that is not a Memcached query, a page scores zero
    exactly when neither the lower-cased query nor any of its words occurs
    in the lower-cased title or content. *)
Theorem zero_score_iff_no_match (query : string) (p : Page) :
  is_memcached_related_query query = false ->
  let q := Str.lower query in
  let title := Str.lower (page_title p) in
  let content := Str.lower (page_content p) in
  calculate_relevance query p = 0%Z <->
  Str.contains q title = false /\ Str.contains q content = false
  /\ Forall (fun word => Str.contains word title = false
                         /\ Str.contains word content = false) (Str.split q).
Proof.
  intros Hrel q title content. unfold calculate_relevance. rewrite Hrel.
  fold q title content.
  set (words := Str.split q).
  set (tw := sum_over (fun word => if Str.contains word title then 1%Z else 0%Z)
                      words).
  set (cw := sum_over (fun word => Z.of_nat (Str.count content word)) words).
  assert (Htw0 : (0 <= tw)%Z)
    by (apply sum_over_nonneg; intros x; destruct (Str.contains _ _); lia).
  assert (Hcw0 : (0 <= cw)%Z) by (apply sum_over_nonneg; intros; lia).
  assert (Htw : tw = 0%Z <-> Forall (fun word => Str.contains word title = false) words).
  { unfold tw. rewrite sum_over_zero
      by (intros x; destruct (Str.contains _ _); lia).
    apply Forall_iff. intros x. destruct (Str.contains x title); split;
      congruence || lia. }
  assert (Hcw : cw = 0%Z <-> Forall (fun word => Str.contains word content = false) words).
  { unfold cw. rewrite sum_over_zero by (intros; lia).
    apply Forall_iff. intros x. rewrite <- count_zero. lia. }
  pose proof (count_zero content q) as Hq.
  rewrite Forall_and, <- Htw, <- Hcw, <- Hq.
  destruct (Str.contains q title); split; intros; try lia;
    repeat split; try lia; try tauto.
Qed.

Lemma zero_score_iff_no_match_witness :
  calculate_relevance "zebra crossing"
    (mkPage url_A "Acquia DAM" "Digital asset management." [] true) = 0%Z.
Proof.
  apply (zero_score_iff_no_match "zebra crossing"); vm_compute;
    [reflexivity|]. repeat constructor.
Defined.

(** X18. Scoring ignores the case of letters: lower-casing the query, the
    title and the content changes neither the score nor the recognition
    of a Memcached query. *)
Theorem calculate_relevance_case_insensitive (query : string) (p : Page) :
  calculate_relevance (Str.lower query)
    (mkPage (page_url p) (Str.lower (page_title p)) (Str.lower (page_content p))
            (page_links p) (page_success p))
  = calculate_relevance query p
  /\ is_memcached_related_query (Str.lower query)
     = is_memcached_related_query query.
Proof.
  assert (Hrel : is_memcached_related_query (Str.lower query)
                 = is_memcached_related_query query).
  { rewrite !is_memcached_related_query_spec. cbv zeta. now rewrite lower_idem. }
  split; [|exact Hrel].
  unfold calculate_relevance. simpl page_url. simpl page_title. simpl page_content.
  rewrite Hrel, !lower_idem. reflexivity.
Qed.

(** ** Snippets and paragraphs *)

Lemma relevant_sentences_no_words (sentences : list string) (found : nat) :
  relevant_sentences [] sentences found = [].
Proof. induction sentences as [|s sentences IH]; simpl; [reflexivity | exact IH]. Qed.

Lemma relevant_sentences_length (query_words sentences : list string)
    (found : nat) :
  found <= 1 ->
  length (relevant_sentences query_words sentences found) + found <= 2.
Proof.
  revert found. induction sentences as [|s sentences IH]; intros found Hf;
    cbn [relevant_sentences length]; [lia|].
  destruct (any_in query_words (Str.lower s)).
  - destruct (Nat.leb_spec 2 (S found)); cbn [length]; [lia|].
    specialize (IH (S found)). lia.
  - apply IH. exact Hf.
Qed.

(** X19. For a [max_length] that is not negative (the program always
    passes the default, 300), a snippet is never longer than [max_length]
    plus the three dots of the ellipsis, it is made of at most two
    sentences, and it is empty when the query has no word (an empty or
    blank query). *)
Theorem extract_snippet_bounds (query content : string) (max_length : nat) :
  String.length (extract_snippet query content max_length) <= max_length + 3
  /\ length (relevant_sentences (Str.split (Str.lower query))
                                (Str.split_on "." content) 0) <= 2
  /\ (Str.split (Str.lower query) = [] ->
      extract_snippet query content max_length = EmptyString).
Proof.
  split; [|split].
  - unfold extract_snippet.
    set (snippet := match relevant_sentences _ _ 0 with
                    | [] => EmptyString
                    | _ => _
                    end).
    destruct (Nat.ltb_spec max_length (String.length snippet)); [|lia].
    rewrite string_length_app. unfold Str.take.
    pose proof (substring_length_le max_length snippet). simpl. lia.
  - pose proof (relevant_sentences_length (Str.split (Str.lower query))
                  (Str.split_on "." content) 0). lia.
  - intros Hwords. unfold extract_snippet. rewrite Hwords.
    rewrite relevant_sentences_no_words. simpl.
    destruct (Nat.ltb_spec max_length 0); [lia | reflexivity].
Qed.

Lemma relevant_paras_spec (query_words paragraphs : list string)
    (max_paragraphs : Z) (found : nat) :
  let r := relevant_paras query_words paragraphs max_paragraphs found in
  r `sublist_of` paragraphs
  /\ Forall (fun para => any_in query_words (Str.lower para) = true) r
  /\ length r <= Z.to_nat (Z.max 1 (max_paragraphs - Z.of_nat found)).
Proof.
  revert found. induction paragraphs as [|para rest IH]; intros found; simpl.
  - split; [constructor|]. split; [constructor | simpl; lia].
  - destruct (any_in query_words (Str.lower para)) eqn:Hany.
    + destruct (Z.leb_spec max_paragraphs (Z.of_nat (S found))).
      * split; [apply sublist_skip, sublist_nil_l|].
        split; [repeat constructor; exact Hany | simpl; lia].
      * destruct (IH (S found)) as (Hs & Hf & Hl).
        split; [now apply sublist_skip|].
        split; [constructor; assumption | simpl; lia].
    + destruct (IH found) as (Hs & Hf & Hl).
      split; [now apply sublist_cons | split; assumption].
Qed.

(** X20. [extract_relevant_paragraphs] returns paragraphs of the content,
    in their order, each longer than 30 characters after stripping and
    each containing a query word; there are at most [max_paragraphs] of
    them, but one where [max_paragraphs] is zero or negative, because the
    limit is tested after the append. *)
Theorem extract_relevant_paragraphs_spec (query content : string)
    (max_paragraphs : Z) :
  let r := extract_relevant_paragraphs query content max_paragraphs in
  r `sublist_of` map Str.strip (Str.split_on (ascii_of_nat 10) content)
  /\ Forall (fun para =>
               30 < String.length para
               /\ any_in (Str.split (Str.lower query)) (Str.lower para) = true) r
  /\ length r <= Z.to_nat (Z.max 1 max_paragraphs).
Proof.
  intros r. subst r. unfold extract_relevant_paragraphs.
  destruct (relevant_paras_spec (Str.split (Str.lower query))
              (long_paragraphs content) max_paragraphs 0) as (Hs & Hf & Hl).
  assert (Hlong : long_paragraphs content
                  `sublist_of` map Str.strip (Str.split_on (ascii_of_nat 10) content)).
  { unfold long_paragraphs.
    generalize (map Str.strip (Str.split_on (ascii_of_nat 10) content)).
    intros l. induction l as [|x l IH]; simpl; [constructor|].
    destruct (30 <? String.length x)%nat;
      [now apply sublist_skip | now apply sublist_cons]. }
  split; [now transitivity (long_paragraphs content)|].
  split.
  - apply Forall_forall. intros para Hin. split.
    + assert (Hin' : para ∈ long_paragraphs content)
        by (eapply sublist_subseteq; eassumption).
      unfold long_paragraphs in Hin'. apply list_elem_of_In, filter_In in Hin'.
      destruct Hin' as [_ Hlen]. now apply Nat.ltb_lt in Hlen.
    + exact (proj1 (Forall_forall _ _) Hf para Hin).
  - replace (max_paragraphs - Z.of_nat 0)%Z with max_paragraphs in Hl by lia.
    exact Hl.
Qed.

(** With a limit of zero still one paragraph comes back. *)
Example extract_relevant_paragraphs_zero :
  length (extract_relevant_paragraphs "memcached" MEMCACHED_DOC_CONTENT 0) = 1.
Proof. vm_compute. reflexivity. Qed.

(** ** Search over crawled pages *)

Section SortBy.
Context {A : Type} (key : A -> Z).

Lemma insert_desc_by_perm (x : A) (l : list A) : insert_desc_by key x l ≡ₚ x :: l.
Proof.
  induction l as [|y l IH]; simpl; [reflexivity|].
  destruct (key x <? key y)%Z; [|reflexivity].
  rewrite IH. apply Permutation_swap.
Qed.

Lemma sort_desc_by_perm (l : list A) : sort_desc_by key l ≡ₚ l.
Proof.
  induction l as [|x l IH]; simpl; [reflexivity|].
  now rewrite insert_desc_by_perm, IH.
Qed.

Lemma insert_desc_by_sorted (x : A) (l : list A) :
  StronglySorted (fun a b => (key b <= key a)%Z) l ->
  StronglySorted (fun a b => (key b <= key a)%Z) (insert_desc_by key x l).
Proof.
  induction l as [|y l IH]; simpl; intros Hs; [repeat constructor|].
  apply StronglySorted_inv in Hs as [Hs Hy].
  destruct (Z.ltb_spec (key x) (key y)).
  - constructor; [auto|].
    rewrite insert_desc_by_perm. constructor; [lia | exact Hy].
  - constructor; [constructor; assumption|].
    constructor; [lia|]. eapply Forall_impl; [exact Hy|]. simpl. intros; lia.
Qed.

Lemma sort_desc_by_sorted (l : list A) :
  StronglySorted (fun a b => (key b <= key a)%Z) (sort_desc_by key l).
Proof.
  induction l as [|x l IH]; simpl; [constructor | now apply insert_desc_by_sorted].
Qed.

End SortBy.

Lemma scored_hits_spec (query : string) (pages : Dict.t Page) :
  Forall (fun h =>
            (0 < hit_relevance h)%Z
            /\ exists p, (hit_url h, p) ∈ pages
                 /\ hit_relevance h = calculate_relevance query p
                 /\ hit_title h = page_title p
                 /\ hit_excerpts h
                    = extract_relevant_paragraphs query (page_content p) 3)
         (scored_hits query pages).
Proof.
  induction pages as [|[url p] pages IH]; simpl; [constructor|].
  assert (IH' : Forall (fun h =>
            (0 < hit_relevance h)%Z
            /\ exists p0, (hit_url h, p0) ∈ (url, p) :: pages
                 /\ hit_relevance h = calculate_relevance query p0
                 /\ hit_title h = page_title p0
                 /\ hit_excerpts h
                    = extract_relevant_paragraphs query (page_content p0) 3)
         (scored_hits query pages)).
  { eapply Forall_impl; [exact IH|]. simpl. intros h (Hpos & p0 & Hin & Hrest).
    split; [exact Hpos|]. exists p0. split; [now right | exact Hrest]. }
  destruct (Z.ltb_spec 0 (calculate_relevance query p)); [|exact IH'].
  constructor; [|exact IH']. simpl. split; [assumption|].
  exists p. split; [left | auto].
Qed.

(** X21. [search_in_pages] returns at most ten hits, in descending order
    of relevance; each hit has a positive score and carries the URL, title,
    score and excerpts of one of the pages given; the hits left out, if
    any, score no higher than any hit returned. *)
Theorem search_in_pages_spec (query : string) (pages : Dict.t Page) :
  let hits := search_in_pages query pages in
  length hits <= 10
  /\ StronglySorted (fun a b => (hit_relevance b <= hit_relevance a)%Z) hits
  /\ Forall (fun h =>
               (0 < hit_relevance h)%Z
               /\ exists p, (hit_url h, p) ∈ pages
                    /\ hit_relevance h = calculate_relevance query p
                    /\ hit_title h = page_title p
                    /\ hit_excerpts h
                       = extract_relevant_paragraphs query (page_content p) 3)
            hits
  /\ exists rest,
       hits ++ rest ≡ₚ scored_hits query pages
       /\ forall h h', h ∈ hits -> h' ∈ rest ->
                       (hit_relevance h' <= hit_relevance h)%Z.
Proof.
  intros hits. subst hits. unfold search_in_pages.
  set (sorted := sort_desc_by hit_relevance (scored_hits query pages)).
  pose proof (sort_desc_by_sorted hit_relevance (scored_hits query pages)) as Hs.
  fold sorted in Hs. rewrite <- (take_drop 10 sorted) in Hs.
  split; [rewrite length_take; lia|].
  split; [exact (StronglySorted_app_1_l _ _ _ Hs)|].
  split.
  - apply Forall_take. unfold sorted. rewrite sort_desc_by_perm.
    apply scored_hits_spec.
  - exists (drop 10 sorted). split.
    + rewrite take_drop. apply sort_desc_by_perm.
    + intros h h' Hh Hh'.
      exact (StronglySorted_app_1_elem_of _ _ _ _ _ Hs Hh Hh').
Qed.

(** ** Search orchestrator, continued *)

Section SearchInvariant.
Context `{E : Externals}.
Variable query : string.
Variable P : Result -> Prop.
Variable I : Globals -> Prop.
Hypothesis HI : forall url g w, I g -> I (fetch_page url g w).1.2.
Hypothesis HP : forall url page,
  page_success page = true -> (0 < calculate_relevance query page)%Z ->
  P (make_result query url page (calculate_relevance query page)).

Lemma score_linked_inv linked_url results g w :
  Forall P results -> I g ->
  Forall P (score_linked query linked_url results g w).1.1
  /\ I (score_linked query linked_url results g w).1.2.
Proof.
  intros Hr Hg. unfold score_linked.
  pose proof (HI linked_url g w Hg) as Hg'.
  destruct (fetch_page linked_url g w) as [[page g'] w']. simpl in Hg'.
  destruct (page_success page) eqn:Hs; [|simpl; auto].
  destruct (Z.ltb_spec 0 (calculate_relevance query page)); simpl; [|auto].
  split; [|exact Hg']. apply Forall_app. split; [exact Hr|].
  repeat constructor. now apply HP.
Qed.

Lemma explore_linked_inv doc_urls links results g w :
  Forall P results -> I g ->
  Forall P (explore_linked query doc_urls links results g w).1.1
  /\ I (explore_linked query doc_urls links results g w).1.2.
Proof.
  revert results g w. induction links as [|l links IH]; intros results g w Hr Hg;
    simpl; [auto|].
  destruct (negb (in_list l doc_urls)); [|now apply IH].
  destruct (score_linked_inv l results g w Hr Hg) as [Hr' Hg'].
  destruct (score_linked query l results g w) as [[results' g'] w'].
  now apply IH.
Qed.

Lemma explore_overview_inv links results g w :
  Forall P results -> I g ->
  Forall P (explore_overview query links results g w).1.1
  /\ I (explore_overview query links results g w).1.2.
Proof.
  revert results g w. induction links as [|l links IH]; intros results g w Hr Hg;
    simpl; [auto|].
  destruct (negb (in_list l (map res_url results))); [|now apply IH].
  destruct (score_linked_inv l results g w Hr Hg) as [Hr' Hg'].
  destruct (score_linked query l results g w) as [[results' g'] w'].
  now apply IH.
Qed.

Lemma search_pass_inv doc_urls urls results g w :
  Forall P results -> I g ->
  Forall P (search_pass query doc_urls urls results g w).1.1
  /\ I (search_pass query doc_urls urls results g w).1.2.
Proof.
  revert results g w. induction urls as [|url urls IH]; intros results g w Hr Hg;
    simpl; [auto|].
  pose proof (HI url g w Hg) as Hg1.
  destruct (fetch_page url g w) as [[page g1] w1]. simpl in Hg1.
  destruct (page_success page) eqn:Hs; [|now apply IH].
  destruct (Z.ltb_spec 0 (calculate_relevance query page)) as [Hpos|Hle].
  - assert (Hr1 : Forall P (results ++ [make_result query url page
                                          (calculate_relevance query page)])).
    { apply Forall_app. split; [exact Hr|]. repeat constructor. now apply HP. }
    match goal with
    | |- context [if ?c then _ else _] => destruct c; [|now apply IH]
    end.
    destruct (explore_linked_inv doc_urls (take 20 (page_links page)) _ g1 w1 Hr1 Hg1)
      as [Hr2 Hg2].
    destruct (explore_linked query doc_urls _ _ g1 w1) as [[results2 g2] w2].
    now apply IH.
  - cbn [andb].
    match goal with
    | |- context [if ?c then _ else _] => destruct c; [|now apply IH]
    end.
    destruct (explore_overview_inv (take 30 (page_links page)) results g1 w1 Hr Hg1)
      as [Hr2 Hg2].
    destruct (explore_overview query _ results g1 w1) as [[results2 g2] w2].
    now apply IH.
Qed.

Lemma collect_results_inv g w :
  I g ->
  Forall P (collect_results query g w).1.1 /\ I (collect_results query g w).1.2.
Proof.
  intros Hg. unfold collect_results.
  destruct (site_search (search_url query) w) as [found w1].
  apply search_pass_inv; [constructor | exact Hg].
Qed.

End SearchInvariant.

Section SearchExtras.
Context `{E : Externals}.

Lemma sorted_take {A} (R : A -> A -> Prop) (n : nat) (l : list A) :
  StronglySorted R l -> StronglySorted R (take n l).
Proof.
  intros Hs. rewrite <- (take_drop n l) in Hs.
  exact (StronglySorted_app_1_l _ _ _ Hs).
Qed.

Lemma direct_search_docs_shape query g w :
  (direct_search_docs query g w).1.2 = (collect_results query g w).1.2
  /\ let collected := (collect_results query g w).1.1 in
     let injected := smart_memcached_injection query (sort_desc collected) in
     (direct_search_docs query g w).1.1
     = match injected with [] => [no_results query] | _ => take 10 injected end.
Proof.
  unfold direct_search_docs.
  destruct (collect_results query g w) as [[collected g'] w']. simpl.
  destruct (smart_memcached_injection query (sort_desc collected)); auto.
Qed.

(** X22. [direct_search_docs] always answers with at least one and at
    most ten results. *)
Theorem direct_search_docs_length (query : string) (g : Globals) (w : World) :
  1 <= length (direct_search_docs query g w).1.1 <= 10.
Proof.
  destruct (direct_search_docs_shape query g w) as [_ ->]. cbv zeta.
  destruct (smart_memcached_injection query _) as [|r l]; [simpl; lia|].
  rewrite length_take. cbn [length]. lia.
Qed.

(** X23. The answer of [direct_search_docs] is the placeholder alone, or
    every result in it has a positive relevance; the results are in
    descending order of relevance, for a Memcached query from the second
    result on. *)
Theorem direct_search_docs_ranking (query : string) (g : Globals) (w : World) :
  let results := (direct_search_docs query g w).1.1 in
  (results = [no_results query] /\ is_memcached_related_query query = false)
  \/ (Forall (fun r => (0 < res_relevance r)%Z) results
      /\ StronglySorted (fun a b => (res_relevance b <= res_relevance a)%Z)
           (if is_memcached_related_query query then tail results else results)).
Proof.
  intros results. subst results.
  destruct (direct_search_docs_shape query g w) as [_ ->]. cbv zeta.
  destruct (collect_results_inv query (fun r => (0 < res_relevance r)%Z)
              (fun _ => True) (fun _ _ _ _ => Logic.I)
              (fun url page _ Hpos => Hpos) g w Logic.I) as [Hpos _].
  set (collected := (collect_results query g w).1.1) in *.
  assert (Hsorted := sort_desc_sorted collected).
  assert (Hpos' : Forall (fun r => (0 < res_relevance r)%Z) (sort_desc collected))
    by (now rewrite sort_desc_perm).
  unfold smart_memcached_injection.
  destruct (is_memcached_related_query query) eqn:Hrel.
  - right. destruct (existsb _ (sort_desc collected)) eqn:Hex; cbn [negb].
    + destruct (sort_desc collected) as [|r l] eqn:Hsd; [discriminate Hex|].
      rewrite <- Hsd in *.
      split; [now apply Forall_take|].
      assert (Hst : StronglySorted
                      (fun a b => (res_relevance b <= res_relevance a)%Z)
                      (take 10 (sort_desc collected))) by (now apply sorted_take).
      destruct (take 10 (sort_desc collected)); simpl; [constructor|].
      now apply StronglySorted_inv in Hst as [? _].
    + change (take 10 (memcached_result query :: sort_desc collected))
        with (memcached_result query :: take 9 (sort_desc collected)).
      split.
      * constructor; [|now apply Forall_take].
        pose proof (pinned_score query Hrel). simpl. lia.
      * simpl. now apply sorted_take.
  - destruct (sort_desc collected) as [|r l] eqn:Hsd; [left; auto|].
    right. rewrite <- Hsd in *.
    split; [now apply Forall_take | now apply sorted_take].
Qed.

(** X24. Injecting twice is injecting once; injection never drops or
    reorders a result, it adds at most one at the front; after it a
    Memcached query always has a result under the pinned URL, and any
    other query has its results unchanged. *)
Theorem smart_memcached_injection_idempotent (query : string)
    (results : list Result) :
  let injected := smart_memcached_injection query results in
  smart_memcached_injection query injected = injected
  /\ (exists front, injected = front ++ results /\ length front <= 1)
  /\ (is_memcached_related_query query = true ->
      Exists (fun r => res_url r = MEMCACHED_DOC_URL) injected)
  /\ (is_memcached_related_query query = false -> injected = results).
Proof.
  intros injected. subst injected. unfold smart_memcached_injection.
  destruct (is_memcached_related_query query); [|repeat split; try discriminate;
    exists []; split; [reflexivity | simpl; lia]].
  destruct (existsb _ results) eqn:Hex; cbn [negb].
  - rewrite Hex. cbn [negb]. split; [reflexivity|].
    split; [exists []; split; [reflexivity | simpl; lia]|].
    split; [|discriminate]. intros _.
    apply existsb_exists in Hex as (r & Hin & Hr).
    apply Exists_exists. exists r.
    split; [now apply list_elem_of_In | now apply String.eqb_eq].
  - assert (Hhead : String.eqb (res_url (memcached_result query)) MEMCACHED_DOC_URL
                    = true) by reflexivity.
    cbn [existsb]. rewrite Hhead. cbn [orb negb]. split; [reflexivity|].
    split; [exists [memcached_result query]; split; [reflexivity | simpl; lia]|].
    split; [|discriminate]. intros _. apply Exists_cons_hd. reflexivity.
Qed.

(** X25. [get_source_links_for_query] never returns an empty link. For a
    Memcached query it is the pinned URL, found without any search, fetch
    or change of state; for another query that matches nothing it is the
    manual-search URL. *)
Theorem get_source_links_for_query_spec (query : string) (g : Globals)
    (w : World) :
  (get_source_links_for_query query g w).1.1 <> EmptyString
  /\ (is_memcached_related_query query = true ->
      get_source_links_for_query query g w = (MEMCACHED_DOC_URL, g, w))
  /\ (is_memcached_related_query query = false ->
      network_scoreless query -> cache_scoreless query g ->
      (get_source_links_for_query query g w).1.1 = search_url query).
Proof.
  unfold get_source_links_for_query. split; [|split].
  - destruct (is_memcached_related_query query); [discriminate|].
    destruct (direct_search_docs query g w) as [[results g'] w'].
    destruct results as [|r l]; [discriminate|].
    destruct (res_url r) eqn:Hu; simpl; [discriminate | congruence].
  - intros ->. reflexivity.
  - intros Hrel Hnet Hg. rewrite Hrel.
    pose proof (collect_results_scoreless query Hnet g w Hg) as Hnone.
    destruct (direct_search_docs_shape query g w) as [_ Hres].
    cbv zeta in Hres. rewrite Hnone in Hres.
    unfold smart_memcached_injection in Hres. rewrite Hrel in Hres.
    simpl in Hres.
    destruct (direct_search_docs query g w) as [[results g'] w'].
    simpl in Hres. subst results. reflexivity.
Qed.

(** X26. A search started with a well-formed cache leaves a well-formed
    cache: it never holds more than [CACHE_SIZE] pages, whatever the
    number of pages the two passes fetch. *)
Theorem direct_search_docs_keeps_cache_well_formed (query : string)
    (g : Globals) (w : World) :
  cache_wf g ->
  cache_wf (direct_search_docs query g w).1.2
  /\ length (page_cache (direct_search_docs query g w).1.2) <= CACHE_SIZE.
Proof.
  intros Hwf.
  destruct (direct_search_docs_shape query g w) as [-> _].
  destruct (collect_results_inv query (fun _ => True) cache_wf
              (fun url g0 w0 H => proj1 (fetch_page_wf_aux url g0 w0 H))
              (fun _ _ _ _ => Logic.I) g w Hwf) as [_ Hwf'].
  split; [exact Hwf' | apply Hwf'].
Qed.

End SearchExtras.

Lemma direct_search_docs_keeps_cache_well_formed_witness :
  length (page_cache (direct_search_docs (E:=dam_site) "zebra" empty_globals tt).1.2)
  <= CACHE_SIZE.
Proof.
  exact (proj2 (direct_search_docs_keeps_cache_well_formed (E:=dam_site) "zebra"
                  empty_globals tt cache_wf_empty)).
Defined.

(** ** Resources *)

Lemma replace_from_skip (old new a s : string) :
  Str.replace_from old new (String.length a) (a +:+ s)
  = Str.replace_from old new 0 s.
Proof. induction a as [|c a IH]; [reflexivity | exact IH]. Qed.

Lemma replace_from_absent (old new s : string) :
  Str.contains old s = false -> Str.replace_from old new 0 s = s.
Proof.
  induction s as [|c s IH]; [reflexivity|].
  cbn [Str.contains Str.replace_from]. intros H.
  apply orb_false_iff in H as [Hp Hc]. rewrite Hp, (IH Hc). reflexivity.
Qed.

Lemma prefix_app_self (b s : string) : String.prefix b (b +:+ s) = true.
Proof.
  induction b as [|c b IH]; simpl; [now destruct s|].
  destruct (ascii_dec c c); [exact IH | congruence].
Qed.

(** Removing a prefix that does not occur again gives back the rest. *)
Lemma replace_prefix (old s : string) :
  old <> EmptyString -> Str.contains old s = false ->
  Str.replace (old +:+ s) old EmptyString = s.
Proof.
  intros Hne Hc. unfold Str.replace. destruct old as [|c old']; [congruence|].
  change (String c old' +:+ s) with (String c (old' +:+ s)).
  cbn [Str.replace_from].
  change (String c (old' +:+ s)) with (String c old' +:+ s).
  rewrite prefix_app_self.
  change (String.length (String c old') - 1) with (String.length old' - 0).
  rewrite Nat.sub_0_r. change (EmptyString +:+ ?x) with x.
  rewrite replace_from_skip. now apply replace_from_absent.
Qed.

Section ResourceFacts.
Context `{E : Externals}.

Lemma initialize_memcached_cache_spec g :
  exists g1, initialize_memcached_cache g = Some g1
             /\ Dict.get MEMCACHED_DOC_URL (page_cache g1)
                = Some get_memcached_doc_data.
Proof.
  unfold initialize_memcached_cache.
  destruct (add_to_cache_succeeds CACHE_SIZE MEMCACHED_DOC_URL
              get_memcached_doc_data g) as [g1 Hadd].
  { left. unfold CACHE_SIZE. lia. }
  exists g1. split; [exact Hadd|].
  destruct (add_to_cache_shape _ _ _ _ _ Hadd) as (pc & uk & -> & _).
  simpl. apply dict_get_set_eq.
Qed.

Lemma read_resource_cached uri p g w :
  Dict.get (Str.replace uri "drupal://" EmptyString) (page_cache g) = Some p ->
  read_resource uri g w
  = Some (format_page (Str.replace uri "drupal://" EmptyString) p, g, w).
Proof.
  intros Hget. unfold read_resource.
  set (url := Str.replace uri "drupal://" EmptyString) in *.
  assert (Hm : Dict.mem url (page_cache g) = true)
    by (apply dict_get_mem; eauto).
  destruct (String.eqb url MEMCACHED_DOC_URL).
  - rewrite Hm. cbn [negb]. now rewrite Hget.
  - now rewrite Hget.
Qed.

(** X27. [read_resource] looks up the URI with every [drupal://] in it
    removed; for a URI made of [drupal://] and a URL that holds no
    [drupal://] of its own, that is the URL. It always returns a text.
    When the URL looked up is cached, the text is built from the cached
    page, without a request and without change of state. When it is the
    pinned URL and not cached, the pinned document is put into the cache
    first and served, still without a request. When it is another
    uncached URL and its fetch fails, the answer is the [Content not
    available] text for that URL, and the state is the one [fetch_page]
    left, with the cache as it was. *)
Theorem read_resource_spec (uri : string) (g : Globals) (w : World) :
  let url := Str.replace uri "drupal://" EmptyString in
  is_Some (read_resource uri g w)
  /\ (forall u, Str.contains "drupal://" u = false ->
        Str.replace ("drupal://" +:+ u) "drupal://" EmptyString = u)
  /\ (forall p, Dict.get url (page_cache g) = Some p ->
        read_resource uri g w = Some (format_page url p, g, w))
  /\ (url = MEMCACHED_DOC_URL -> Dict.get url (page_cache g) = None ->
      exists g1,
        read_resource uri g w
        = Some (format_page MEMCACHED_DOC_URL get_memcached_doc_data, g1, w)
        /\ Dict.get MEMCACHED_DOC_URL (page_cache g1)
           = Some get_memcached_doc_data)
  /\ (url <> MEMCACHED_DOC_URL -> Dict.get url (page_cache g) = None ->
      page_success (fetch_page url g w).1.1 = false ->
      read_resource uri g w
      = Some ("Content not available for " +:+ url,
              (fetch_page url g w).1.2, (fetch_page url g w).2)
      /\ page_cache (fetch_page url g w).1.2 = page_cache g).
Proof.
  intros url. split; [|split; [|split; [|split]]].
  - unfold read_resource. fold url.
    destruct (String.eqb_spec url MEMCACHED_DOC_URL) as [Hu|Hu].
    + destruct (Dict.mem url (page_cache g)) eqn:Hm; cbn [negb].
      * apply dict_get_mem in Hm as [p Hp]. rewrite Hp. eauto.
      * destruct (initialize_memcached_cache_spec g) as (g1 & -> & Hget).
        rewrite Hu, Hget. eauto.
    + destruct (Dict.get url (page_cache g)); [eauto|].
      destruct (fetch_page url g w) as [[p g1] w1].
      destruct (page_success p); eauto.
  - intros u Hc. apply replace_prefix; [discriminate | exact Hc].
  - intros p. apply read_resource_cached.
  - intros Hu Hnone. unfold read_resource. fold url. rewrite Hu in *.
    rewrite String.eqb_refl.
    assert (Hm : Dict.mem MEMCACHED_DOC_URL (page_cache g) = false).
    { destruct (Dict.mem _ _) eqn:Hm; [|reflexivity].
      apply dict_get_mem in Hm as [p Hp]. congruence. }
    rewrite Hm. cbn [negb].
    destruct (initialize_memcached_cache_spec g) as (g1 & -> & Hget).
    rewrite Hget. eauto.
  - intros Hne Hnone Hfail. unfold read_resource. fold url.
    destruct (String.eqb_spec url MEMCACHED_DOC_URL); [contradiction|].
    rewrite Hnone.
    pose proof (fetch_page_cases url g w) as Hcases.
    destruct Hcases as [(cached & Hget & _)
       |[(_ & p & g' & w' & Hf & Hpc & _ & _ & _ & Hs & _)
       |(_ & title & content & hrefs & nav & links & disc & g2 & w'
           & _ & _ & _ & _ & _ & Hf)]].
    + congruence.
    + rewrite Hf. simpl. rewrite Hs. split; [reflexivity | exact Hpc].
    + rewrite Hf in Hfail. discriminate.
Qed.

(** X28. [list_resources] never raises; it lists one resource per cached
    page, in cache order, under the URI [drupal://] followed by the URL;
    the pinned document is always among them. A listed URI whose URL
    holds no [drupal://] of its own is read back by [read_resource] from
    the cache alone, as the text of the page it was listed for. (For a
    cached URL that does hold [drupal://], [read_resource] looks up the
    URL without it.) *)
Theorem list_resources_round_trip (g : Globals) (w : World) :
  exists resources g1,
    list_resources g = Some (resources, g1)
    /\ map uri resources
       = map (fun url => "drupal://" +:+ url) (Dict.keys (page_cache g1))
    /\ MEMCACHED_DOC_URL ∈ Dict.keys (page_cache g1)
    /\ (MEMCACHED_DOC_URL ∈ Dict.keys (page_cache g) -> g1 = g)
    /\ (forall url,
          url ∈ Dict.keys (page_cache g1) ->
          Str.contains "drupal://" url = false ->
          exists p, Dict.get url (page_cache g1) = Some p
                    /\ read_resource ("drupal://" +:+ url) g1 w
                       = Some (format_page url p, g1, w)).
Proof.
  unfold list_resources.
  assert (Hens : exists g1,
            (if negb (Dict.mem MEMCACHED_DOC_URL (page_cache g))
             then initialize_memcached_cache g else Some g) = Some g1
            /\ MEMCACHED_DOC_URL ∈ Dict.keys (page_cache g1)
            /\ (MEMCACHED_DOC_URL ∈ Dict.keys (page_cache g) -> g1 = g)).
  { destruct (Dict.mem MEMCACHED_DOC_URL (page_cache g)) eqn:Hm; cbn [negb].
    - exists g. split; [reflexivity|]. split; [now apply dict_mem_keys | auto].
    - destruct (initialize_memcached_cache_spec g) as (g1 & -> & Hget).
      exists g1. split; [reflexivity|]. split.
      + apply dict_mem_keys, dict_get_mem. eauto.
      + intros Hin. apply dict_mem_keys in Hin. congruence. }
  destruct Hens as (g1 & -> & Hin & Hsame).
  eexists _, g1. split; [reflexivity|].
  split; [unfold Dict.keys; now rewrite !map_map|].
  split; [exact Hin|]. split; [exact Hsame|].
  intros url Hurl Hc.
  apply dict_mem_keys, dict_get_mem in Hurl as [p Hp].
  exists p. split; [exact Hp|].
  pose proof (read_resource_cached ("drupal://" +:+ url) p g1 w) as Hread.
  rewrite (replace_prefix "drupal://" url) in Hread by (discriminate || exact Hc).
  now apply Hread.
Qed.

(** A cached URL that holds [drupal://] is listed, and the URI listed
    for it reads another page: the URL without that text is looked up,
    found neither in the cache nor on the network. *)
Example list_resources_inner_scheme :
  let url := "https://docs.acquia.com/a/drupal://b" in
  let g := mkGlobals [(url, blank_page url)] [] ∅ in
  is_docs_url url = true
  /\ option_map (fun r => map uri r.1) (list_resources (E:=offline) g)
     = Some ["drupal://" +:+ url; "drupal://" +:+ MEMCACHED_DOC_URL]
  /\ option_map (fun r => r.1.1) (read_resource (E:=offline) ("drupal://" +:+ url) g tt)
     = Some "Content not available for https://docs.acquia.com/a/b".
Proof. vm_compute. repeat split. Qed.

End ResourceFacts.

(** ** The crawl tool *)

Lemma merge_crawled_spec (crawled cache : Dict.t Page) (added_count : Z) :
  let r := merge_crawled crawled cache added_count in
  cache `prefix_of` r.1
  /\ length r.1 <= Nat.max (length cache) CACHE_SIZE
  /\ length r.1 <= length cache + length crawled
  /\ r.2 = (added_count + Z.of_nat (length r.1 - length cache))%Z
  /\ (NoDup (Dict.keys cache) -> NoDup (Dict.keys r.1))
  /\ (forall Q : string * Page -> Prop,
        Forall Q cache -> Forall Q crawled -> Forall Q r.1).
Proof.
  revert cache added_count.
  induction crawled as [|[url p] crawled IH]; intros cache added_count; simpl.
  - split; [reflexivity|]. split; [lia|]. split; [lia|].
    split; [rewrite Nat.sub_diag; simpl; lia|]. split; auto.
  - destruct (Dict.mem url cache) eqn:Hm; cbn [negb andb].
    + destruct (IH cache added_count) as (H1 & H2 & H3 & H4 & H5 & H6).
      split; [exact H1|]. split; [exact H2|]. split; [lia|].
      split; [exact H4|]. split; [exact H5|].
      intros Q Hc Hcr. apply Forall_cons in Hcr as [_ Hcr]. now apply H6.
    + destruct (Nat.ltb_spec (length cache) CACHE_SIZE) as [Hlt|Hge].
      * apply dict_mem_false in Hm.
        destruct (IH (Dict.set url p cache) (added_count + 1)%Z)
          as (H1 & H2 & H3 & H4 & H5 & H6).
        rewrite (dict_set_absent url p cache Hm) in *.
        rewrite length_app in *. simpl length in *.
        pose proof (prefix_length _ _ H1) as Hpl. rewrite length_app in Hpl.
        simpl in Hpl.
        split; [transitivity (cache ++ [(url, p)]); [now apply prefix_app_r | exact H1]|].
        split; [lia|]. split; [lia|]. split; [lia|].
        split.
        -- intros Hnd. apply H5. unfold Dict.keys. rewrite map_app.
           apply NoDup_app. split; [exact Hnd|]. split; [|apply NoDup_singleton].
           intros x Hx Hin. apply list_elem_of_singleton in Hin. simpl in Hin.
           subst x. contradiction.
        -- intros Q Hc Hcr. apply Forall_cons in Hcr as [Hp Hcr].
           apply H6; [|exact Hcr]. apply Forall_app. split; [exact Hc|].
           repeat constructor. exact Hp.
      * destruct (IH cache added_count) as (H1 & H2 & H3 & H4 & H5 & H6).
        split; [exact H1|]. split; [exact H2|]. split; [lia|].
        split; [exact H4|]. split; [exact H5|].
        intros Q Hc Hcr. apply Forall_cons in Hcr as [_ Hcr]. now apply H6.
Qed.

Section ToolFacts.
Context `{E : Externals}.

Lemma crawl_measure_init start_urls g w :
  crawl_measure (crawl_init start_urls g w) = crawl_fuel start_urls.
Proof.
  unfold crawl_measure, remaining_budget, crawl_fuel. simpl to_visit.
  rewrite length_map.
  rewrite (budget_sum_ext (fun _ => 0%Z)); [reflexivity|].
  intros a. unfold count_of. simpl. now rewrite lookup_empty.
Qed.

(** X29. The [crawl_docs] tool, given enough fuel for the crawl and a
    well-formed cache, always completes; afterwards the cache is still
    well formed, so holds at most [CACHE_SIZE] pages; the merge evicts
    nothing: the cache the crawl left is a prefix of the final cache; and
    [added_count] is the number of entries the merge appended, at most
    the number of crawled pages. *)
Theorem tool_crawl_docs_spec (max_depth : option Z) (g : Globals) (w : World)
    (extra : nat) :
  cache_wf g ->
  exists k added_count g',
    let st := crawl_after k (default MAX_CRAWL_DEPTH max_depth)
                (crawl_init (default_start_urls None) g w) in
    tool_crawl_docs (crawl_fuel (default_start_urls None) + extra) max_depth g w
    = Some (all_pages st, added_count, g', crawl_world st)
    /\ cache_wf g'
    /\ page_cache (crawl_globals st) `prefix_of` page_cache g'
    /\ added_count
       = Z.of_nat (length (page_cache g') - length (page_cache (crawl_globals st)))
    /\ (0 <= added_count <= Z.of_nat (length (all_pages st)))%Z.
Proof.
  intros Hwf. unfold tool_crawl_docs, crawl_docs.
  set (d := default MAX_CRAWL_DEPTH max_depth).
  set (init := crawl_init (default_start_urls None) g w).
  destruct (crawl_loop_terminates d
              (crawl_fuel (default_start_urls None) + extra) init)
    as (k & _ & Hrun & _).
  { unfold init. rewrite crawl_measure_init. lia. }
  fold init. rewrite Hrun.
  set (st := crawl_after k d init).
  assert (Hinv : scope_inv (default_start_urls None) st).
  { apply crawl_after_ind; [now apply scope_inv_init | apply scope_inv_step]. }
  destruct Hinv as ((Hnd & Hentries & Hlen) & Hpages & _).
  destruct (merge_crawled_spec (all_pages st) (page_cache (crawl_globals st)) 0)
    as (H1 & H2 & H3 & H4 & H5 & H6).
  destruct (merge_crawled (all_pages st) (page_cache (crawl_globals st)) 0)
    as [cache added] eqn:Hm.
  simpl in H1, H2, H3, H4, H5, H6.
  exists k, added, (mkGlobals cache (url_to_cache_key (crawl_globals st))
                              (discovered_urls (crawl_globals st))).
  cbv zeta. fold d init st. split; [reflexivity|].
  split; [|split; [exact H1|split; [simpl; lia|]]].
  - unfold cache_wf. simpl. split; [now apply H5|].
    split; [now apply H6 | lia].
  - pose proof (prefix_length _ _ H1). lia.
Qed.

End ToolFacts.

Lemma tool_crawl_docs_spec_witness :
  exists k added_count g',
    tool_crawl_docs (E:=offline) (crawl_fuel (default_start_urls None) + 0)
                    (Some 1%Z) empty_globals tt
    = Some (all_pages (crawl_after (E:=offline) k 1
                         (crawl_init (E:=offline) (default_start_urls None)
                                     empty_globals tt)),
            added_count, g', tt)
    /\ cache_wf g'.
Proof.
  destruct (tool_crawl_docs_spec (E:=offline) (Some 1%Z) empty_globals tt 0
              cache_wf_empty) as (k & added & g' & Hrun & Hwf & _).
  exists k, added, g'. split; [|exact Hwf].
  rewrite Hrun. destruct (crawl_world _). reflexivity.
Defined.

(** ** Product areas *)




(** A path with two markers goes to the area tested first; the markers
    are matched anywhere in the path and in any case. *)
Example get_product_area_samples :
  map get_product_area
      [ "https://docs.acquia.com/site-factory/acquia-source/x";
        "https://docs.acquia.com/Acquia-DAM/overview";
        "https://docs.acquia.com/a/b/web-governance-old";
        "https://docs.acquia.com/search?q=/acquia-dam" ]
  = ["acquia-source"; "acquia-dam"; "web-governance"; "general"].
Proof. vm_compute. reflexivity. Qed.
